(** * UV & Vitamin D tracker: the estimation, exposure, session and
    persistence logic of [src/app/page.tsx], embedded in Rocq.

    JavaScript numbers are IEEE 754 binary64 values; they are modelled by
    Rocq's primitive [float], whose operations are the same binary64
    operations (round to nearest, ties to even).  A decimal literal such as
    [0.4] denotes, here as in JavaScript, the binary64 value nearest to it. *)

From Stdlib Require Import ZArith Uint63 Floats Bool List String Ascii Lia.
From Stdlib Require Import DecimalString Permutation.
Import ListNotations.

Set Warnings "-inexact-float,-register-all".

Local Open Scope float_scope.

(** ** JavaScript numbers and the built-ins the page uses *)

Module JS.

(** The Number for a mathematical integer; exact when [|n| < 2^53]. *)
Definition of_Z (n : Z) : float :=
  match n with
  | Z0 => 0
  | Zpos _ => of_uint63 (Uint63.of_Z n)
  | Zneg p => - of_uint63 (Uint63.of_Z (Zpos p))
  end.

Definition Math_PI : float := 3.141592653589793.

(** [Math.max(a, b)]: NaN when an argument is NaN, and [+0] counts as
    larger than [-0]. *)
Definition Math_max (a b : float) : float :=
  if is_nan a || is_nan b then nan
  else if a <? b then b
  else if b <? a then a
  else if get_sign a then b else a.

(** [Math.min(a, b)]: NaN when an argument is NaN, and [-0] counts as
    smaller than [+0]. *)
Definition Math_min (a b : float) : float :=
  if is_nan a || is_nan b then nan
  else if a <? b then a
  else if b <? a then b
  else if get_sign a then a else b.

(** [Math.round(x)]: the integer nearest to [x], the larger one on a tie;
    [-0] for [-0.5 <= x < 0] and for [-0].  A finite float is
    [(-1)^s * m * 2^e]; with [e >= 0] it is an integer already, with
    [e < 0] its magnitude is below [2^53] and [floor (x + 1/2)] is computed
    exactly in [Z]. *)
Definition Math_round (x : float) : float :=
  match Prim2SF x with
  | S754_finite s m e =>
      if (0 <=? e)%Z then x
      else
        let num := ((if s then Zneg m else Zpos m) * 2 + 2 ^ (- e))%Z in
        let n := (num / 2 ^ (1 - e))%Z in
        if (n =? 0)%Z then (if s then (- 0) else 0) else of_Z n
  | _ => x
  end.

(** The integer [n] of [Number.prototype.toFixed(1)] for the magnitude
    [m * 2^e]: [n / 10] is as close to it as possible, and the larger [n]
    is taken on a tie. *)
Definition tenths (m : positive) (e : Z) : Z :=
  if (0 <=? e)%Z then (10 * Zpos m * 2 ^ e)%Z
  else ((20 * Zpos m + 2 ^ (- e)) / 2 ^ (1 - e))%Z.

(** [Number(x.toFixed(1))].  [toFixed] prints the sign and then the digits
    of [tenths]; [Number] reads the decimal back as the nearest binary64
    value, which is the correctly rounded quotient [n / 10] since [n] and
    [10] are exact.  From [2^49] on, floats are at least [1/8] apart while
    [n / 10] is within [1/20] of [x], so the text reads back as [x] (the
    exponent form printed from [1e21] on reads back as [x] too).  NaN and
    the infinities print as themselves; [-0] prints as [0.0]. *)
Definition toFixed1 (x : float) : float :=
  match Prim2SF x with
  | S754_nan => nan
  | S754_infinity _ => x
  | S754_zero _ => 0
  | S754_finite s m e =>
      if 0x1p49 <=? abs x then x
      else
        let r := of_Z (tenths m e) / 10 in
        if s then - r else r
  end.

(** ToBoolean on a Number and on a String. *)
Definition truthy_number (x : float) : bool := negb (is_nan x || is_zero x).

Definition truthy_string (s : string) : bool :=
  match s with
  | EmptyString => false
  | String _ _ => true
  end.

(** [Math.floor(x)].  A finite float with [e >= 0] is an integer already;
    with [e < 0] its magnitude is below [2^53] and the floor is taken in
    [Z].  The floor of a value in [(0, 1)] is [+0]; NaN, the infinities and
    the zeros are returned as they are. *)
Definition Math_floor (x : float) : float :=
  match Prim2SF x with
  | S754_finite s m e =>
      if (0 <=? e)%Z then x
      else
        let n := ((if s then Zneg m else Zpos m) / 2 ^ (- e))%Z in
        if (n =? 0)%Z then 0 else of_Z n
  | _ => x
  end.

(** [x % y]: the remainder of the truncating division, with the sign of
    the dividend; it is always exact.  NaN when [x] is infinite or [y] is
    zero, [x] when [y] is infinite or [x] is zero.  Both magnitudes are
    written over the smaller of the two exponents, [e]; the remainder of
    the two integers is below [2^53], and scaling it by [2^e] is exact. *)
Definition remainder (x y : float) : float :=
  match Prim2SF x, Prim2SF y with
  | S754_nan, _ => nan
  | _, S754_nan => nan
  | S754_infinity _, _ => nan
  | _, S754_zero _ => nan
  | _, S754_infinity _ => x
  | S754_zero _, _ => x
  | S754_finite sx mx ex, S754_finite _ my ey =>
      let e := Z.min ex ey in
      let r := ((Zpos mx * 2 ^ (ex - e)) mod (Zpos my * 2 ^ (ey - e)))%Z in
      let v := Z.ldexp (of_Z r) e in
      if sx then - v else v
  end.

(** [Number.prototype.toString()] on NaN, the infinities, and the whole
    numbers below [2^53] in magnitude, which print as their decimal digits.
    Fractions, and the whole numbers from [2^53] on (printed with the
    fewest digits that read back as the same Number, then zeros or an
    exponent), are outside this model: [None]. *)
Definition toString (x : float) : option string :=
  match Prim2SF x with
  | S754_nan => Some "NaN"%string
  | S754_infinity s => Some (if s then "-Infinity" else "Infinity")%string
  | S754_zero _ => Some "0"%string
  | S754_finite s m e =>
      let digits (n : Z) :=
        NilZero.string_of_int (Z.to_int (if s then (- n) else n)%Z) in
      if (0 <=? e)%Z then
        let n := (Zpos m * 2 ^ e)%Z in
        if (n <? 2 ^ 53)%Z then Some (digits n) else None
      else if (Zpos m mod 2 ^ (- e) =? 0)%Z
      then Some (digits (Zpos m / 2 ^ (- e))%Z)
      else None
  end.

(** [s.padStart(targetLength, c)] for a filler [c] of one character. *)
Definition padStart (targetLength : nat) (c : ascii) (s : string) : string :=
  (string_of_list_ascii (repeat c (targetLength - String.length s)) ++ s)%string.

End JS.

(** ** Preset tables *)

Inductive ClothingPreset := minimal | light | moderate | covered.
Inductive SunscreenPreset := none | spf15 | spf30 | spf50.

Record Preset := { label : string; attenuation : float }.

Definition clothingPresets (c : ClothingPreset) : Preset :=
  match c with
  | minimal => {| label := "Minimal (shorts & tee)"; attenuation := 1 |}
  | light => {| label := "Light layers"; attenuation := 0.8 |}
  | moderate => {| label := "Moderate coverage"; attenuation := 0.6 |}
  | covered => {| label := "Mostly covered"; attenuation := 0.4 |}
  end.

Definition sunscreenPresets (s : SunscreenPreset) : Preset :=
  match s with
  | none => {| label := "No sunscreen"; attenuation := 1 |}
  | spf15 => {| label := "SPF 15"; attenuation := 0.6 |}
  | spf30 => {| label := "SPF 30"; attenuation := 0.4 |}
  | spf50 => {| label := "SPF 50"; attenuation := 0.2 |}
  end.

(** ** Exposure calculator *)

Record ExposureGain := { effectiveUv : float; vitaminGain : float }.

Definition calculateExposureGain (seconds baseUv : float)
    (clothing : ClothingPreset) (sunscreen : SunscreenPreset) : ExposureGain :=
  let minutes := seconds / 60 in
  let clothingFactor := attenuation (clothingPresets clothing) in
  let sunscreenFactor := attenuation (sunscreenPresets sunscreen) in
  let effectiveUv := baseUv * clothingFactor * sunscreenFactor in
  let vitaminGain := effectiveUv * minutes * 5 in
  {| effectiveUv := effectiveUv; vitaminGain := vitaminGain |}.

(** ** Risk label *)

Inductive RiskLabel := Low | Moderate | High | VeryHigh | Extreme.

Definition determineRiskLabel (uv : float) : RiskLabel :=
  if uv <? 3 then Low
  else if uv <? 6 then Moderate
  else if uv <? 8 then High
  else if uv <? 11 then VeryHigh
  else Extreme.

(** ** Strings

    A [string] stands for a JavaScript string whose UTF-16 code units all lie
    in the Latin-1 range: each [ascii] is one code unit, [0 .. 255]. *)

Definition charCodeAt (c : ascii) : Z := Z.of_N (N_of_ascii c).

(** [toLowerCase] on one Latin-1 code unit: [A-Z] and the capitals
    [U+00C0 .. U+00DE] other than the multiplication sign [U+00D7] move up by
    32; every other unit below 256 is its own lower case. *)
Definition lower_unit (c : ascii) : ascii :=
  let n := N_of_ascii c in
  if ((65 <=? n) && (n <=? 90)
      || (192 <=? n) && (n <=? 222) && negb (n =? 215))%N
  then ascii_of_N (n + 32) else c.

Fixpoint toLowerCase (s : string) : string :=
  match s with
  | EmptyString => EmptyString
  | String c rest => String (lower_unit c) (toLowerCase rest)
  end.

(** [s.split('').reduce((acc, char) => acc + char.charCodeAt(0), init)].  The
    accumulator is an integer far below [2^53] for every string an engine can
    hold, so each addition is exact and the Number is this integer. *)
Fixpoint reduce_charCodes (s : string) (acc : Z) : Z :=
  match s with
  | EmptyString => acc
  | String c rest => reduce_charCodes rest (acc + charCodeAt c)
  end.

(** ** A reference sine

    [Math.sin] is implementation-approximated: the language fixes no bit
    pattern for its results.  The development therefore takes the sine of
    the platform as a parameter; where a concrete sine is needed it uses
    [sin_series], the Maclaurin polynomial of degree 61 summed without error
    over the binary value of the argument and rounded once to binary64.  For
    [|x| <= 4] the truncated tail is below [1e-50], far under half an ulp of
    the result. *)

Module RefSin.

Local Open Scope Z_scope.

(** [1 - x^2/(2k(2k+1)) * t] for [x = n/d] and [t = a/b], as a fraction. *)
Definition horner_step (n d : Z) (k : Z) (t : Z * Z) : Z * Z :=
  let '(a, b) := t in
  let c := (2 * k) * (2 * k + 1) in
  (d * d * c * b - n * n * a, d * d * c * b).

Fixpoint horner (n d : Z) (k : nat) (t : Z * Z) : Z * Z :=
  match k with
  | O => t
  | S k' => horner n d k' (horner_step n d (Z.of_nat k) t)
  end.

(** The binary64 value nearest to [a / b], for [a >= 0] and [b > 0]: the
    quotient is cut to 62 or 63 bits with a sticky last bit, which
    [of_uint63] then rounds to nearest even. *)
Definition round_quotient (a b : Z) : float :=
  if a =? 0 then 0%float
  else
    let s := 62 - (Z.log2 a - Z.log2 b) in
    let num := if 0 <=? s then a * 2 ^ s else a in
    let den := if 0 <=? s then b else b * 2 ^ (- s) in
    let q := num / den in
    let sticky := if (num mod den =? 0) then 0 else 1 in
    Z.ldexp (JS.of_Z (Z.lor q sticky)) (- s).

Definition terms : nat := 30.

Definition sin_series (x : float) : float :=
  match Prim2SF x with
  | S754_nan => nan
  | S754_infinity _ => nan
  | S754_zero _ => x
  | S754_finite s m e =>
      let n := if 0 <=? e then Zpos m * 2 ^ e else Zpos m in
      let d := if 0 <=? e then 1 else 2 ^ (- e) in
      let '(a, b) := horner n d terms (1, 1) in
      let r := round_quotient (Z.abs (n * a)) (d * b) in
      if xorb s (a <? 0) then (- r)%float else r
  end.

End RefSin.

(** ** Persisted state and the durable slot *)

Record PersistedState := {
  location : string;
  clothing : ClothingPreset;
  sunscreen : SunscreenPreset;
  vitaminGoal : float;
  vitaminProgress : float
}.

Definition defaultPersistedState : PersistedState :=
  {| location := "San Francisco, CA";
     clothing := light;
     sunscreen := spf30;
     vitaminGoal := 1000;
     vitaminProgress := 250 |}.

(** [Partial<PersistedState>]: [None] is a key the object does not have. *)
Record Partial := {
  upd_location : option string;
  upd_clothing : option ClothingPreset;
  upd_sunscreen : option SunscreenPreset;
  upd_vitaminGoal : option float;
  upd_vitaminProgress : option float
}.

Definition no_updates : Partial :=
  {| upd_location := None; upd_clothing := None; upd_sunscreen := None;
     upd_vitaminGoal := None; upd_vitaminProgress := None |}.

Definition spread {A : Type} (prev : A) (u : option A) : A :=
  match u with
  | Some v => v
  | None => prev
  end.

(** [{ ...prev, ...updates }] *)
Definition merge (prev : PersistedState) (updates : Partial) : PersistedState :=
  {| location := spread (location prev) (upd_location updates);
     clothing := spread (clothing prev) (upd_clothing updates);
     sunscreen := spread (sunscreen prev) (upd_sunscreen updates);
     vitaminGoal := spread (vitaminGoal prev) (upd_vitaminGoal updates);
     vitaminProgress := spread (vitaminProgress prev) (upd_vitaminProgress updates) |}.

(** The object that [JSON.parse] returns for the stored text, as far as the
    loader reads it, in the case where the cast [as PersistedState] is
    right: a field that is present has the declared type.  [None] is a
    field that is missing or [null].  The cast itself checks nothing; stored
    text of any other shape is the subject of [loadRaw] below, and
    [typed_storage] says which contents this record covers. *)
Record StoredRecord := {
  st_location : option string;
  st_clothing : option ClothingPreset;
  st_sunscreen : option SunscreenPreset;
  st_vitaminGoal : option float;
  st_vitaminProgress : option float
}.

(** What the slot holds: text that [JSON.parse] rejects (or the empty text,
    which the loader skips), or the text of a record. *)
Inductive Item :=
| Corrupt
| Json (r : StoredRecord).

(** [localStorage], reduced to the one key the page uses.  [getItem] and
    [setItem] may throw (storage disabled, quota exceeded). *)
Record Storage := {
  slot : option Item;
  readable : bool;
  writable : bool
}.

Definition getItem (s : Storage) : option (option Item) :=
  if readable s then Some (slot s) else None.

Definition setItem (s : Storage) (v : Item) : option Storage :=
  if writable s
  then Some {| slot := Some v; readable := readable s; writable := writable s |}
  else None.

(** [JSON.stringify] writes a Number that is NaN or infinite as [null], and
    [-0] as [0]; every other Number is written so that it reads back as
    itself. *)
Definition json_number (x : float) : option float :=
  if is_finite x then Some (if is_zero x then 0 else x) else None.

Definition JSON_stringify (p : PersistedState) : Item :=
  Json {| st_location := Some (location p);
          st_clothing := Some (clothing p);
          st_sunscreen := Some (sunscreen p);
          st_vitaminGoal := json_number (vitaminGoal p);
          st_vitaminProgress := json_number (vitaminProgress p) |}.

(** [parsed.field || fallback] *)
Definition or_default {A : Type} (truthy : A -> bool) (v : option A) (fallback : A) : A :=
  match v with
  | Some a => if truthy a then a else fallback
  | None => fallback
  end.

(** The preset names are non-empty strings. *)
Definition truthy_preset {A : Type} (_ : A) : bool := true.

(** The load effect of [usePersistedState] on a storage whose fields have
    their declared types: the state it leaves behind.  On such a storage it
    is the load on any content, [loadRaw], as [typed_load_agrees] shows. *)
Definition loadState (s : Storage) : PersistedState :=
  match getItem s with
  | Some (Some (Json parsed)) =>
      {| location := or_default JS.truthy_string (st_location parsed)
                       (location defaultPersistedState);
         clothing := or_default truthy_preset (st_clothing parsed)
                       (clothing defaultPersistedState);
         sunscreen := or_default truthy_preset (st_sunscreen parsed)
                       (sunscreen defaultPersistedState);
         vitaminGoal := or_default JS.truthy_number (st_vitaminGoal parsed)
                       (vitaminGoal defaultPersistedState);
         vitaminProgress := or_default JS.truthy_number (st_vitaminProgress parsed)
                       (vitaminProgress defaultPersistedState) |}
  | _ => defaultPersistedState
  end.

(** [try { localStorage.setItem(STORAGE_KEY, JSON.stringify(next)) }
    catch { console.warn(...) }]: the storage afterwards. *)
Definition persist (before : Storage) (next : PersistedState) : Storage :=
  match setItem before (JSON_stringify next) with
  | Some after => after
  | None => before
  end.

(** [updateState]: merge, try to write, keep the merged state either way. *)
Definition updateState (updates : Partial) (st : PersistedState * Storage)
  : PersistedState * Storage :=
  let '(prev, store) := st in
  let next := merge prev updates in
  (next, persist store next).

(** What a working storage gives back for a state that was written to it:
    the load of the serialization. *)
Definition reloaded (p : PersistedState) : PersistedState :=
  loadState {| slot := Some (JSON_stringify p); readable := true; writable := true |}.

(** A storage that works and holds nothing under the key. *)
Definition empty_storage : Storage :=
  {| slot := None; readable := true; writable := true |}.

(** ** Stored text of any shape

    The load casts the parsed value to [PersistedState] without a check: a
    stored field may be of any JSON type, and [parsed.field || fallback]
    keeps it whenever it is truthy.  The loaded state is a
    [PersistedState] only when each kept field has its declared type;
    [Storage], [StoredRecord] and [loadState] above are that case.  What
    follows is the load on any content, its fields being JavaScript
    values. *)

(** The values that [JSON.parse] returns. *)
Inductive JValue :=
| JNull
| JBool (b : bool)
| JNumber (x : float)
| JString (s : string)
| JArray (items : list JValue)
| JObject (members : list (string * JValue)).

(** ToBoolean: [null], [false], [0], [-0], NaN and the empty string are
    falsy, every array and object is truthy. *)
Definition ToBoolean (v : JValue) : bool :=
  match v with
  | JNull => false
  | JBool b => b
  | JNumber x => JS.truthy_number x
  | JString s => JS.truthy_string s
  | JArray _ | JObject _ => true
  end.

(** The value of a run of decimal digits. *)
Fixpoint digits_value (s : string) (acc : Z) : option Z :=
  match s with
  | EmptyString => Some acc
  | String c rest =>
      let n := N_of_ascii c in
      if ((48 <=? n) && (n <=? 57))%N
      then digits_value rest (10 * acc + (Z.of_N n - 48))%Z
      else None
  end.

(** ToNumber, which the arithmetic operators apply to their operands:
    [null] is 0, [true] is 1, the empty string is 0, and a string of decimal
    digits is the number it spells.  Other strings (signs, fractions,
    exponents, blanks, digits from [2^53] on), arrays and objects are
    outside this model: [None]. *)
Definition ToNumber (v : JValue) : option float :=
  match v with
  | JNull => Some 0
  | JBool b => Some (if b then 1 else 0)
  | JNumber x => Some x
  | JString EmptyString => Some 0
  | JString s =>
      match digits_value s 0 with
      | Some n => if (n <? 2 ^ 53)%Z then Some (JS.of_Z n) else None
      | None => None
      end
  | JArray _ | JObject _ => None
  end.

(** The member that [JSON.parse] leaves under a key: the last one in the
    text when the key occurs more than once. *)
Fixpoint member (key : string) (members : list (string * JValue)) : option JValue :=
  match members with
  | [] => None
  | (k, v) :: rest =>
      match member key rest with
      | Some later => Some later
      | None => if String.eqb k key then Some v else None
      end
  end.

(** The members that [parsed.field] can find for the five field names.
    Reading a property of [null] throws a TypeError: [None].  A number, a
    boolean, a string and an array have none of the five. *)
Definition properties (parsed : JValue) : option (list (string * JValue)) :=
  match parsed with
  | JNull => None
  | JObject members => Some members
  | _ => Some []
  end.

(** What the slot holds: text that [JSON.parse] rejects (or the empty text,
    which the loader skips), or text that parses to a value. *)
Inductive RawItem :=
| RawCorrupt
| RawJson (parsed : JValue).

Record RawStorage := {
  raw_slot : option RawItem;
  raw_readable : bool;
  raw_writable : bool
}.

(** The state that the load leaves behind, field by field. *)
Record LoadedState := {
  ld_location : JValue;
  ld_clothing : JValue;
  ld_sunscreen : JValue;
  ld_vitaminGoal : JValue;
  ld_vitaminProgress : JValue
}.

(** The keys of the two preset tables. *)
Definition clothingKey (c : ClothingPreset) : string :=
  match c with
  | minimal => "minimal"
  | light => "light"
  | moderate => "moderate"
  | covered => "covered"
  end.

Definition sunscreenKey (s : SunscreenPreset) : string :=
  match s with
  | none => "none"
  | spf15 => "spf15"
  | spf30 => "spf30"
  | spf50 => "spf50"
  end.

(** A state of the declared type, as JavaScript values. *)
Definition asLoaded (p : PersistedState) : LoadedState :=
  {| ld_location := JString (location p);
     ld_clothing := JString (clothingKey (clothing p));
     ld_sunscreen := JString (sunscreenKey (sunscreen p));
     ld_vitaminGoal := JNumber (vitaminGoal p);
     ld_vitaminProgress := JNumber (vitaminProgress p) |}.

(** The load effect of [usePersistedState] on any storage: [getItem] may
    throw, [if (raw)] skips a missing or empty text, [JSON.parse] may
    throw, reading a field of [null] throws; in each of these cases the
    state stays the default one.  Otherwise every field is
    [parsed.field || fallback]. *)
Definition loadRaw (s : RawStorage) : LoadedState :=
  let fallback := asLoaded defaultPersistedState in
  if raw_readable s then
    match raw_slot s with
    | Some (RawJson parsed) =>
        match properties parsed with
        | Some members =>
            {| ld_location := or_default ToBoolean (member "location" members)
                                (ld_location fallback);
               ld_clothing := or_default ToBoolean (member "clothing" members)
                                (ld_clothing fallback);
               ld_sunscreen := or_default ToBoolean (member "sunscreen" members)
                                 (ld_sunscreen fallback);
               ld_vitaminGoal := or_default ToBoolean (member "vitaminGoal" members)
                                   (ld_vitaminGoal fallback);
               ld_vitaminProgress :=
                 or_default ToBoolean (member "vitaminProgress" members)
                   (ld_vitaminProgress fallback) |}
        | None => fallback
        end
    | _ => fallback
    end
  else fallback.

(** [Math.min((vitaminProgress / vitaminGoal) * 100, 100)] on such a state;
    the division applies ToNumber to both fields. *)
Definition rawProgressPercentage (st : LoadedState) : option float :=
  match ToNumber (ld_vitaminProgress st), ToNumber (ld_vitaminGoal st) with
  | Some progress, Some goal => Some (JS.Math_min ((progress / goal) * 100) 100)
  | _, _ => None
  end.

(** *** When the stored fields have their declared types *)

Definition clothingOfKey (k : string) : option ClothingPreset :=
  if String.eqb k "minimal" then Some minimal
  else if String.eqb k "light" then Some light
  else if String.eqb k "moderate" then Some moderate
  else if String.eqb k "covered" then Some covered
  else None.

Definition sunscreenOfKey (k : string) : option SunscreenPreset :=
  if String.eqb k "none" then Some none
  else if String.eqb k "spf15" then Some spf15
  else if String.eqb k "spf30" then Some spf30
  else if String.eqb k "spf50" then Some spf50
  else None.

(** A stored field read at its declared type: [Some None] when it is
    missing or [null], [None] when it is of another type. *)
Definition typedString (v : option JValue) : option (option string) :=
  match v with
  | None | Some JNull => Some None
  | Some (JString s) => Some (Some s)
  | Some _ => None
  end.

Definition typedNumber (v : option JValue) : option (option float) :=
  match v with
  | None | Some JNull => Some None
  | Some (JNumber x) => Some (Some x)
  | Some _ => None
  end.

Definition typedClothing (v : option JValue) : option (option ClothingPreset) :=
  match v with
  | None | Some JNull => Some None
  | Some (JString k) => option_map Some (clothingOfKey k)
  | Some _ => None
  end.

Definition typedSunscreen (v : option JValue) : option (option SunscreenPreset) :=
  match v with
  | None | Some JNull => Some None
  | Some (JString k) => option_map Some (sunscreenOfKey k)
  | Some _ => None
  end.

(** The item of the typed model for a stored item, when all five fields
    have their declared types.  A parsed [null] makes the load throw and
    leaves the defaults, as text that does not parse does. *)
Definition typed_item (i : RawItem) : option Item :=
  match i with
  | RawCorrupt => Some Corrupt
  | RawJson parsed =>
      match properties parsed with
      | None => Some Corrupt
      | Some members =>
          match typedString (member "location" members),
                typedClothing (member "clothing" members),
                typedSunscreen (member "sunscreen" members),
                typedNumber (member "vitaminGoal" members),
                typedNumber (member "vitaminProgress" members) with
          | Some l, Some c, Some s, Some g, Some p =>
              Some (Json {| st_location := l; st_clothing := c; st_sunscreen := s;
                            st_vitaminGoal := g; st_vitaminProgress := p |})
          | _, _, _, _, _ => None
          end
      end
  end.

Definition typed_storage (s : RawStorage) : option Storage :=
  match raw_slot s with
  | None => Some {| slot := None; readable := raw_readable s;
                    writable := raw_writable s |}
  | Some i =>
      match typed_item i with
      | Some t => Some {| slot := Some t; readable := raw_readable s;
                          writable := raw_writable s |}
      | None => None
      end
  end.

(** The other way round: the text of a typed record, parsed. *)
Definition present {A : Type} (key : string) (wrap : A -> JValue) (v : option A)
  : list (string * JValue) :=
  match v with
  | Some a => [(key, wrap a)]
  | None => []
  end.

Definition raw_record (r : StoredRecord) : JValue :=
  JObject (present "location" JString (st_location r)
           ++ present "clothing" (fun c => JString (clothingKey c)) (st_clothing r)
           ++ present "sunscreen" (fun s => JString (sunscreenKey s)) (st_sunscreen r)
           ++ present "vitaminGoal" JNumber (st_vitaminGoal r)
           ++ present "vitaminProgress" JNumber (st_vitaminProgress r)).

Definition raw_storage (s : Storage) : RawStorage :=
  {| raw_slot := match slot s with
                 | None => None
                 | Some Corrupt => Some RawCorrupt
                 | Some (Json r) => Some (RawJson (raw_record r))
                 end;
     raw_readable := readable s;
     raw_writable := writable s |}.

(** Stored text whose goal is the string ["0"], and stored text whose
    clothing is ["constructor"], the name of an inherited property of the
    preset table. *)
Definition string_goal_storage : RawStorage :=
  {| raw_slot := Some (RawJson (JObject [("vitaminGoal"%string, JString "0")]));
     raw_readable := true; raw_writable := true |}.

Definition foreign_clothing_storage : RawStorage :=
  {| raw_slot := Some (RawJson (JObject [("clothing"%string, JString "constructor")]));
     raw_readable := true; raw_writable := true |}.

(** ** The page *)

Record HourlyForecast := { hour : string; uv : float }.

(** The [value] of the goal field when it changes: the empty text, or a text
    together with the Number that [Number(text)] reads it as (NaN when it is
    not numeric). *)
Inductive InputValue :=
| EmptyText
| Text (reads_as : float).

Section Page.

(** What the page takes from its platform: the sine of the engine, the
    month of [new Date()] (0 for January), and the label
    [format(addHours(now, index), 'haaa')] of the hour [index] hours from
    now. *)
Variable Math_sin : float -> float.
Variable getMonth : Z.
Variable format_hour : Z -> string.

(** The arguments at which the page calls the sine. *)
Definition seasonal_arg (month : Z) : float :=
  (JS.of_Z (month + 1) / 12) * JS.Math_PI.

Definition forecast_arg (index : Z) : float :=
  (JS.of_Z index / 8) * JS.Math_PI.

Definition forecast_uv (baseUv : float) (index : Z) : float :=
  let modifier := Math_sin (forecast_arg index) in
  JS.Math_max (JS.toFixed1 (baseUv * (0.4 + modifier))) 0.

(** [Array.from({ length: 8 }, (_, index) => ...)] *)
Definition generateForecast (baseUv : float) : list HourlyForecast :=
  map (fun index => {| hour := format_hour index; uv := forecast_uv baseUv index |})
      (map Z.of_nat (seq 0 8)).

Definition deriveBaseUv (location : string) : float :=
  let hash := reduce_charCodes (toLowerCase location) 0 in
  let seasonalBoost := Math_sin (seasonal_arg getMonth) in
  let normalized := (JS.of_Z (hash mod 700) / 700) * 6 + 2 in
  JS.toFixed1 (JS.Math_min (normalized + seasonalBoost * 3) 11).

Record App := {
  persistedState : PersistedState;
  store : Storage;
  ready : bool;
  sessionActive : bool;
  sessionSeconds : float
}.

(** First render: default state, nothing loaded yet. *)
Definition initial (s : Storage) : App :=
  {| persistedState := defaultPersistedState; store := s; ready := false;
     sessionActive := false; sessionSeconds := 0 |}.

Definition updatePersistedState (updates : Partial) (a : App) : App :=
  let '(next, store') := updateState updates (persistedState a, store a) in
  {| persistedState := next; store := store'; ready := ready a;
     sessionActive := sessionActive a; sessionSeconds := sessionSeconds a |}.

(** The load effect, which ends by raising the readiness flag. *)
Definition load (a : App) : App :=
  {| persistedState := loadState (store a); store := store a; ready := true;
     sessionActive := sessionActive a; sessionSeconds := sessionSeconds a |}.

(** The effect on [ready]. *)
Definition afterReady (a : App) : App :=
  if ready a then updatePersistedState no_updates a else a.

(** A fresh start of the page on a given storage, up to the first
    interactive render. *)
Definition mount (s : Storage) : App := afterReady (load (initial s)).

(** The interval callback; the interval exists only while the session is
    active. *)
Definition tick (a : App) : App :=
  if sessionActive a
  then {| persistedState := persistedState a; store := store a; ready := ready a;
          sessionActive := true; sessionSeconds := sessionSeconds a + 1 |}
  else a.

Definition handleStart (a : App) : App :=
  if sessionActive a then a
  else {| persistedState := persistedState a; store := store a; ready := ready a;
          sessionActive := true; sessionSeconds := 0 |}.

Definition setSessionActive (b : bool) (a : App) : App :=
  {| persistedState := persistedState a; store := store a; ready := ready a;
     sessionActive := b; sessionSeconds := sessionSeconds a |}.

Definition handleStop (a : App) : App :=
  if negb (sessionActive a) then a
  else
    let baseUv := deriveBaseUv (location (persistedState a)) in
    let gain := vitaminGain (calculateExposureGain (sessionSeconds a) baseUv
                               (clothing (persistedState a))
                               (sunscreen (persistedState a))) in
    updatePersistedState
      {| upd_location := None; upd_clothing := None; upd_sunscreen := None;
         upd_vitaminGoal := None;
         upd_vitaminProgress :=
           Some (JS.Math_round (vitaminProgress (persistedState a) + gain)) |}
      (setSessionActive false a).

Definition handleReset (a : App) : App :=
  {| persistedState := persistedState a; store := store a; ready := ready a;
     sessionActive := false; sessionSeconds := 0 |}.

Definition progressPercentage (p : PersistedState) : float :=
  JS.Math_min ((vitaminProgress p / vitaminGoal p) * 100) 100.

(** [Number(event.target.value || 0)]: the empty text is falsy and gives
    [Number(0)]; any other text gives the Number it reads as. *)
Definition goalOfInput (value : InputValue) : float :=
  match value with
  | EmptyText => 0
  | Text reads_as => reads_as
  end.

Definition setGoal (value : InputValue) (a : App) : App :=
  updatePersistedState
    {| upd_location := None; upd_clothing := None; upd_sunscreen := None;
       upd_vitaminGoal := Some (goalOfInput value);
       upd_vitaminProgress := None |} a.

Definition setProgress (v : float) (a : App) : App :=
  updatePersistedState
    {| upd_location := None; upd_clothing := None; upd_sunscreen := None;
       upd_vitaminGoal := None; upd_vitaminProgress := Some v |} a.

(** The three progress buttons. *)
Definition minus100 (a : App) : App :=
  setProgress (JS.Math_max (vitaminProgress (persistedState a) - 100) 0) a.

Definition plus100 (a : App) : App :=
  setProgress (vitaminProgress (persistedState a) + 100) a.

Definition resetProgress (a : App) : App := setProgress 0 a.

Definition setLocation (v : string) (a : App) : App :=
  updatePersistedState
    {| upd_location := Some v; upd_clothing := None; upd_sunscreen := None;
       upd_vitaminGoal := None; upd_vitaminProgress := None |} a.

Definition setClothing (c : ClothingPreset) (a : App) : App :=
  updatePersistedState
    {| upd_location := None; upd_clothing := Some c; upd_sunscreen := None;
       upd_vitaminGoal := None; upd_vitaminProgress := None |} a.

Definition setSunscreen (s : SunscreenPreset) (a : App) : App :=
  updatePersistedState
    {| upd_location := None; upd_clothing := None; upd_sunscreen := Some s;
       upd_vitaminGoal := None; upd_vitaminProgress := None |} a.

(** What can happen to a page that is up: a timer tick or one of the
    controls.  Reloading starts the page afresh on the storage left
    behind. *)
Inductive Event :=
| Tick
| Start
| Stop
| ResetSession
| EditLocation (value : string)
| SelectClothing (c : ClothingPreset)
| SelectSunscreen (s : SunscreenPreset)
| EditGoal (value : InputValue)
| Minus100
| Plus100
| ResetProgress
| Reload.

Definition step (a : App) (ev : Event) : App :=
  match ev with
  | Tick => tick a
  | Start => handleStart a
  | Stop => handleStop a
  | ResetSession => handleReset a
  | EditLocation v => setLocation v a
  | SelectClothing c => setClothing c a
  | SelectSunscreen s => setSunscreen s a
  | EditGoal v => setGoal v a
  | Minus100 => minus100 a
  | Plus100 => plus100 a
  | ResetProgress => resetProgress a
  | Reload => mount (store a)
  end.

Definition run (a : App) (evs : list Event) : App := fold_left step evs a.

(** The states the page can be in once it is interactive. *)
Inductive reachable : App -> Prop :=
| reach_mount : forall s, reachable (mount s)
| reach_step : forall a ev, reachable a -> reachable (step a ev).

End Page.

(** ** The timer text *)

(** [normalizeTimer]; [None] when a field is a Number that [JS.toString]
    does not cover. *)
Definition normalizeTimer (seconds : float) : option string :=
  match JS.toString (JS.Math_floor (seconds / 3600)),
        JS.toString (JS.Math_floor (JS.remainder seconds 3600 / 60)),
        JS.toString (JS.Math_floor (JS.remainder seconds 60)) with
  | Some hrs, Some mins, Some secs =>
      Some (JS.padStart 2 "0" hrs ++ ":" ++ JS.padStart 2 "0" mins
            ++ ":" ++ JS.padStart 2 "0" secs)%string
  | _, _, _ => None
  end.

(** The text [HH:MM:SS] of a whole number of seconds, for comparison. *)
Definition digit (n : Z) : ascii := ascii_of_N (48 + Z.to_N n).

Definition two_digits (n : Z) : string :=
  String (digit (n / 10)) (String (digit (n mod 10)) EmptyString).

Definition clock_text (seconds : Z) : string :=
  (two_digits (seconds / 3600) ++ ":" ++ two_digits (seconds mod 3600 / 60)
   ++ ":" ++ two_digits (seconds mod 60))%string.

(** ** The sunlight window *)

(** [s.split('').reduce((acc, char, index) =>
       acc + char.charCodeAt(0) * (index + 1), init)], from position
    [index] on.  The accumulator is a Number: for a long string the sum
    passes [2^53] and is rounded. *)
Fixpoint reduce_weighted (s : string) (index : Z) (acc : float) : float :=
  match s with
  | EmptyString => acc
  | String c rest =>
      reduce_weighted rest (index + 1)
        (acc + JS.of_Z (charCodeAt c) * JS.of_Z (index + 1))
  end.

Record SunWindow := { sunrise : string; sunset : string }.

Section SunWindow.

(** [format(baseDate, 'p')] for today's date after [setHours(hours)] and
    [setMinutes(minutes)], as a function of the two arguments. *)
Variable format_time : float -> float -> string.

Definition formatHours (decimalHours : float) : string :=
  let hours := JS.Math_floor decimalHours in
  let minutes := JS.Math_round ((decimalHours - hours) * 60) in
  format_time hours minutes.

Definition deriveSunWindow (location : string) : SunWindow :=
  let hash := reduce_weighted location 0 0 in
  let sunriseHour := 5 + JS.remainder hash 120 / 60 in
  let sunsetHour := 17 + JS.remainder hash 180 / 60 in
  {| sunrise := formatHours sunriseHour; sunset := formatHours sunsetHour |}.

End SunWindow.

(** A formatter to run the window with: hours and minutes as [H:MM], the
    way a 24-hour locale prints the time of day. *)
Definition time_24h (hours minutes : float) : string :=
  match JS.toString hours, JS.toString minutes with
  | Some h, Some m => (h ++ ":" ++ JS.padStart 2 "0" m)%string
  | _, _ => EmptyString
  end.

(** The same sum over the integers. *)
Fixpoint weighted_sum (s : string) (index : Z) : Z :=
  match s with
  | EmptyString => 0%Z
  | String c rest => (charCodeAt c * (index + 1) + weighted_sum rest (index + 1))%Z
  end.

(** The risk labels in the order of the thresholds. *)
Definition riskRank (r : RiskLabel) : nat :=
  match r with
  | Low => 0
  | Moderate => 1
  | High => 2
  | VeryHigh => 3
  | Extreme => 4
  end.

(** The events of the session timer and those of the progress buttons. *)
Definition session_event (ev : Event) : bool :=
  match ev with
  | Tick | Start | ResetSession => true
  | _ => false
  end.

Definition button_event (ev : Event) : bool :=
  match ev with
  | Minus100 | Plus100 | ResetProgress => true
  | _ => false
  end.

(** ** The specification's wording, for comparison with the code *)

Module Spec.

(** "summing the character codes" of a string *)
Fixpoint charCodeSum (s : string) : Z :=
  match s with
  | EmptyString => 0%Z
  | String c rest => (charCodeAt c + charCodeSum rest)%Z
  end.

(** "scaling the remainder into [2, 8]" *)
Definition scaled (remainder : Z) : float := JS.of_Z remainder / 700 * 6 + 2.

(** "taking that sum modulo 700, scaling the remainder into [2, 8], adding
    the seasonal term sin(((currentMonth+1)/12)·π) × 3, clamping the sum to a
    maximum of 11.0, and rounding to 1 decimal" *)
Definition baseUvOfSum (sin : float -> float) (currentMonth : Z) (sum : Z) : float :=
  let remainder := (sum mod 700)%Z in
  let seasonal := sin (JS.of_Z (currentMonth + 1) / 12 * JS.Math_PI) * 3 in
  let clamped := JS.Math_min (scaled remainder + seasonal) 11 in
  JS.toFixed1 clamped.

(** The pseudo-index of the location string as written, without any change
    of case. *)
Definition baseUvOfLocation (sin : float -> float) (currentMonth : Z)
    (location : string) : float :=
  baseUvOfSum sin currentMonth (charCodeSum location).

(** "uv = max(round(baseUv · (0.4 + sin((i/8)·π)), 1 decimal), 0)" *)
Definition forecastUv (sin : float -> float) (baseUv : float) (i : Z) : float :=
  JS.Math_max (JS.toFixed1 (baseUv * (0.4 + sin (JS.of_Z i / 8 * JS.Math_PI)))) 0.

End Spec.

(** ** Decoded floats: keys for their order, and classes

    Comparisons of primitive floats are specified on their decoded form
    [spec_float].  A decoded value that is not NaN is sent to a key, ordered
    lexicographically (sign class, exponent, mantissa), so that comparisons
    become linear arithmetic. *)

Local Open Scope Z_scope.

Definition fkey (f : spec_float) : Z * Z * Z :=
  match f with
  | S754_zero _ => (0, 0, 0)
  | S754_nan => (0, 0, 0)
  | S754_infinity false => (2, 0, 0)
  | S754_infinity true => (-2, 0, 0)
  | S754_finite false m e => (1, e, Zpos m)
  | S754_finite true m e => (-1, - e, Zneg m)
  end.

Definition key_lt (a b : Z * Z * Z) : Prop :=
  let '(c1, e1, m1) := a in
  let '(c2, e2, m2) := b in
  c1 < c2 \/ (c1 = c2 /\ (e1 < e2 \/ (e1 = e2 /\ m1 < m2))).

Definition key_le (a b : Z * Z * Z) : Prop :=
  let '(c1, e1, m1) := a in
  let '(c2, e2, m2) := b in
  c1 < c2 \/ (c1 = c2 /\ (e1 < e2 \/ (e1 = e2 /\ m1 <= m2))).

Definition not_nan (f : spec_float) : Prop := f <> S754_nan.

Local Close Scope Z_scope.

Definition finite_nonzerob (f : spec_float) : bool :=
  match f with
  | S754_finite _ _ _ => true
  | _ => false
  end.

Definition finite_nonzero (f : spec_float) : Prop := finite_nonzerob f = true.

(** Decoded values that are finite, and the normal values below one half
    of whose exponent field says so: a mantissa of 53 bits with an exponent
    of at most -53. *)
Definition finiteb (f : spec_float) : bool :=
  match f with
  | S754_zero _ | S754_finite _ _ _ => true
  | _ => false
  end.

Definition fractionb (f : spec_float) : bool :=
  match f with
  | S754_finite _ my ey => ((Zpos (digits2_pos my) =? 53) && (ey <=? -53))%Z
  | _ => false
  end.

(** The attenuation factors are of this kind: one, or a normal value below
    one. *)
Definition unit_factor (y : float) : Prop :=
  y = 1 \/ fractionb (Prim2SF y) = true.

(** Decoded values that are zero or above. *)
Definition nonnegb (f : spec_float) : bool :=
  match f with
  | S754_zero _ => true
  | S754_infinity s => negb s
  | S754_finite s _ _ => negb s
  | S754_nan => false
  end.

(** The decoded form of the whole number [n], [0 < n < 2^53]: its digits
    moved up to fill 53 bits. *)
Definition whole (s : bool) (n : Z) : spec_float :=
  S754_finite s (Z.to_pos (n * 2 ^ (53 - Zdigits2 n))) (Zdigits2 n - 53)%Z.

(** * Facts about binary64 values

    ** Order *)

Section FloatOrder.

Local Open Scope Z_scope.

Lemma SFcompare_key (f g : spec_float) :
  not_nan f -> not_nan g ->
  match SFcompare f g with
  | Some Lt => key_lt (fkey f) (fkey g)
  | Some Eq => fkey f = fkey g
  | Some Gt => key_lt (fkey g) (fkey f)
  | None => False
  end.
Proof.
  unfold not_nan. intros Hf Hg.
  destruct f as [s1|s1| |s1 m1 e1]; try congruence;
    destruct g as [s2|s2| |s2 m2 e2]; try congruence;
    try (destruct s1; cbn; lia);
    try (destruct s2; cbn; lia);
    try (destruct s1, s2; cbn; first [reflexivity | lia]).
  destruct s1, s2; cbn; try lia.
  - destruct (Z.compare_spec e1 e2) as [He|He|He]; cbn; try lia.
    subst e2. change (Pos.compare_cont Eq m1 m2) with (Pos.compare m1 m2).
    destruct (Pos.compare_spec m1 m2) as [Hm|Hm|Hm]; cbn; try lia.
    now subst.
  - destruct (Z.compare_spec e1 e2) as [He|He|He]; cbn; try lia.
    subst e2. change (Pos.compare_cont Eq m1 m2) with (Pos.compare m1 m2).
    destruct (Pos.compare_spec m1 m2) as [Hm|Hm|Hm]; cbn; try lia.
    now subst.
Qed.

Lemma key_le_refl (a : Z * Z * Z) : key_le a a.
Proof. destruct a as [[c e] m]. cbn. lia. Qed.

Lemma key_lt_le (a b : Z * Z * Z) : key_lt a b -> key_le a b.
Proof. destruct a as [[c e] m], b as [[c' e'] m']. cbn. lia. Qed.

Lemma key_lt_not_le (a b : Z * Z * Z) : key_lt a b <-> ~ key_le b a.
Proof. destruct a as [[c e] m], b as [[c' e'] m']. cbn. lia. Qed.

Lemma key_le_not_lt (a b : Z * Z * Z) : key_le a b <-> ~ key_lt b a.
Proof. destruct a as [[c e] m], b as [[c' e'] m']. cbn. lia. Qed.

(** IEEE comparisons, read through the keys. *)

Lemma is_nan_spec (x : float) :
  is_nan x = true <-> Prim2SF x = S754_nan.
Proof.
  unfold is_nan. rewrite FloatAxioms.eqb_spec. unfold SFeqb.
  destruct (Prim2SF x) as [s|s| |s m e]; cbn.
  - split; [discriminate | congruence].
  - destruct s; cbn; split; (discriminate || congruence).
  - tauto.
  - rewrite Z.compare_refl, Pos.compare_cont_refl.
    destruct s; cbn; split; (discriminate || congruence).
Qed.

Lemma is_nan_false (x : float) :
  is_nan x = false <-> not_nan (Prim2SF x).
Proof.
  unfold not_nan. rewrite <- is_nan_spec.
  destruct (is_nan x); split; congruence.
Qed.

Lemma SFcompare_cases (f g : spec_float) :
  not_nan f -> not_nan g ->
  (SFcompare f g = Some Lt /\ key_lt (fkey f) (fkey g))
  \/ (SFcompare f g = Some Eq /\ key_le (fkey f) (fkey g) /\ key_le (fkey g) (fkey f))
  \/ (SFcompare f g = Some Gt /\ key_lt (fkey g) (fkey f)).
Proof.
  intros Hf Hg. pose proof (SFcompare_key f g Hf Hg) as K.
  destruct (SFcompare f g) as [[]|]; try contradiction.
  - right; left. rewrite K. auto using key_le_refl.
  - now left.
  - now right; right.
Qed.

Lemma SFcompare_nan_r (f : spec_float) : SFcompare f S754_nan = None.
Proof. now destruct f. Qed.

Lemma ltb_iff (x y : float) :
  is_nan x = false -> is_nan y = false ->
  ((x <? y)%float = true <-> key_lt (fkey (Prim2SF x)) (fkey (Prim2SF y))).
Proof.
  rewrite !is_nan_false. intros Hx Hy.
  rewrite FloatAxioms.ltb_spec. unfold SFltb.
  destruct (SFcompare_cases _ _ Hx Hy) as [(E & K)|[(E & K1 & K2)|(E & K)]];
    rewrite E; split; trivial; try discriminate; intros L; exfalso.
  - apply key_le_not_lt in K2. tauto.
  - apply key_lt_le, key_le_not_lt in K. tauto.
Qed.

Lemma leb_iff (x y : float) :
  is_nan x = false -> is_nan y = false ->
  ((x <=? y)%float = true <-> key_le (fkey (Prim2SF x)) (fkey (Prim2SF y))).
Proof.
  rewrite !is_nan_false. intros Hx Hy.
  rewrite FloatAxioms.leb_spec. unfold SFleb.
  destruct (SFcompare_cases _ _ Hx Hy) as [(E & K)|[(E & K1 & K2)|(E & K)]];
    rewrite E; split; trivial; try discriminate.
  - intros _. now apply key_lt_le.
  - intros L. apply key_lt_not_le in K. tauto.
Qed.

Lemma ltb_not_nan (x y : float) :
  (x <? y)%float = true -> is_nan x = false /\ is_nan y = false.
Proof.
  rewrite FloatAxioms.ltb_spec, !is_nan_false. unfold SFltb, not_nan.
  intros H. split; intros E; rewrite E in H.
  - discriminate.
  - now rewrite SFcompare_nan_r in H.
Qed.

Lemma leb_not_nan (x y : float) :
  (x <=? y)%float = true -> is_nan x = false /\ is_nan y = false.
Proof.
  rewrite FloatAxioms.leb_spec, !is_nan_false. unfold SFleb, not_nan.
  intros H. split; intros E; rewrite E in H.
  - discriminate.
  - now rewrite SFcompare_nan_r in H.
Qed.

Lemma ltb_nan_l (x y : float) : is_nan x = true -> (x <? y)%float = false.
Proof.
  intros N. destruct (x <? y)%float eqn:E; trivial.
  apply ltb_not_nan in E. destruct E; congruence.
Qed.

Lemma leb_nan_r (x y : float) : is_nan y = true -> (x <=? y)%float = false.
Proof.
  intros N. destruct (x <=? y)%float eqn:E; trivial.
  apply leb_not_nan in E. destruct E; congruence.
Qed.

(** On values that are not NaN the order is total. *)
Lemma leb_negb_ltb (x y : float) :
  is_nan x = false -> is_nan y = false ->
  (y <=? x)%float = negb (x <? y)%float.
Proof.
  intros Hx Hy.
  destruct (ltb_iff x y Hx Hy) as [L1 L2], (leb_iff y x Hy Hx) as [G1 G2].
  pose proof (key_le_not_lt (fkey (Prim2SF y)) (fkey (Prim2SF x))) as K.
  destruct (x <? y)%float, (y <=? x)%float; cbn; trivial; exfalso.
  - apply K; auto.
  - assert (D : false = true); [|discriminate D].
    apply G2, K. intros L. specialize (L2 L). discriminate L2.
Qed.

Lemma ltb_leb_mono (x a b : float) :
  (a <=? b)%float = true -> (x <? a)%float = true -> (x <? b)%float = true.
Proof.
  intros G L.
  destruct (ltb_not_nan _ _ L) as [Hx Ha], (leb_not_nan _ _ G) as [_ Hb].
  apply ltb_iff; trivial. apply ltb_iff in L; trivial. apply leb_iff in G; trivial.
  revert L G.
  destruct (fkey (Prim2SF x)) as [[? ?] ?], (fkey (Prim2SF a)) as [[? ?] ?],
    (fkey (Prim2SF b)) as [[? ?] ?]. cbn. lia.
Qed.

End FloatOrder.

(** ** Which operations can produce NaN

    Rounding a non-negative integer mantissa never yields NaN, so the
    arithmetic operations produce NaN only from NaN, from [inf - inf],
    [0 * inf], [0 / 0] and [inf / inf]. *)

Section FloatNaN.

Local Open Scope Z_scope.

Lemma shr_1_nonneg (mrs : shr_record) :
  0 <= shr_m mrs -> 0 <= shr_m (shr_1 mrs).
Proof.
  destruct mrs as [m r s]. cbn.
  destruct m as [|p|p]; cbn; try lia; destruct p; cbn; lia.
Qed.

Lemma iter_shr_1_nonneg (p : positive) (mrs : shr_record) :
  0 <= shr_m mrs -> 0 <= shr_m (iter_pos shr_1 p mrs).
Proof.
  revert mrs. induction p as [p IH|p IH|]; intros mrs H; cbn.
  - apply IH, IH. now apply shr_1_nonneg.
  - now apply IH, IH.
  - now apply shr_1_nonneg.
Qed.

Lemma shr_nonneg (mrs : shr_record) (e n : Z) :
  0 <= shr_m mrs -> 0 <= shr_m (fst (shr mrs e n)).
Proof.
  intros H. unfold shr. destruct n; cbn; trivial.
  now apply iter_shr_1_nonneg.
Qed.

Lemma shr_fexp_nonneg (m e : Z) (l : SpecFloat.location) :
  0 <= m -> 0 <= shr_m (fst (shr_fexp prec emax m e l)).
Proof.
  intros H. unfold shr_fexp. apply shr_nonneg.
  destruct l as [|[]]; exact H.
Qed.

Lemma round_nearest_even_nonneg (m : Z) (l : SpecFloat.location) :
  0 <= m -> 0 <= round_nearest_even m l.
Proof.
  intros H. unfold round_nearest_even.
  destruct l as [|[]]; try lia. destruct (Z.even m); lia.
Qed.

Lemma binary_round_aux_not_nan (sx : bool) (mx ex : Z) (lx : SpecFloat.location) :
  0 <= mx -> not_nan (binary_round_aux prec emax sx mx ex lx).
Proof.
  intros H. unfold binary_round_aux, not_nan.
  pose proof (shr_fexp_nonneg mx ex lx H) as H1.
  destruct (shr_fexp prec emax mx ex lx) as [mrs' e'].
  cbn [fst] in H1.
  pose proof (shr_fexp_nonneg
                (round_nearest_even (shr_m mrs') (loc_of_shr_record mrs'))
                e' loc_Exact
                (round_nearest_even_nonneg _ _ H1)) as H2.
  destruct (shr_fexp prec emax _ e' loc_Exact) as [mrs'' e''].
  cbn [fst] in H2.
  destruct (shr_m mrs'') as [|p|p]; try discriminate.
  - destruct (e'' <=? emax - prec); discriminate.
  - lia.
Qed.

Lemma binary_round_not_nan (sx : bool) (mx : positive) (ex : Z) :
  not_nan (binary_round prec emax sx mx ex).
Proof.
  unfold binary_round. destruct (shl_align _ _ _) as [mz ez].
  apply binary_round_aux_not_nan. lia.
Qed.

Lemma binary_normalize_not_nan (m e : Z) (sz : bool) :
  not_nan (binary_normalize prec emax m e sz).
Proof.
  unfold binary_normalize. destruct m; try apply binary_round_not_nan.
  discriminate.
Qed.

Lemma SFmul_not_nan (f g : spec_float) :
  not_nan f -> finite_nonzero g -> not_nan (SF64mul f g).
Proof.
  unfold not_nan. intros Hf Hg.
  destruct g as [| | |sy my ey]; try discriminate Hg.
  destruct f as [sx|sx| |sx mx ex]; cbn; try discriminate; try congruence.
  apply binary_round_aux_not_nan. lia.
Qed.

Lemma SFsub_not_nan (f g : spec_float) :
  not_nan f -> finite_nonzero g -> not_nan (SF64sub f g).
Proof.
  unfold not_nan. intros Hf Hg.
  destruct g as [| | |sy my ey]; try discriminate Hg.
  destruct f as [sx|sx| |sx mx ex]; cbn; try discriminate; try congruence.
  apply binary_normalize_not_nan.
Qed.

Lemma SFdiv_not_nan (f g : spec_float) :
  not_nan f -> finite_nonzero g -> not_nan (SF64div f g).
Proof.
  unfold not_nan. intros Hf Hg.
  destruct g as [| | |sy my ey]; try discriminate Hg.
  destruct f as [sx|sx| |sx mx ex]; cbn -[SFdiv_core_binary];
    try discriminate; try congruence.
  unfold SFdiv_core_binary.
  set (e' := Z.min _ _). set (sh := ex - ey - e').
  set (m' := match sh with Z0 => Zpos mx | Zpos _ => Z.shiftl (Zpos mx) sh | Zneg _ => 0 end).
  assert (Hm : 0 <= m').
  { subst m'. destruct sh; try lia. apply Z.shiftl_nonneg. lia. }
  pose proof (Z.div_pos m' (Zpos my) Hm ltac:(lia)) as Hq.
  unfold Z.div in Hq.
  destruct (Z.div_eucl m' (Zpos my)) as [q r].
  apply binary_round_aux_not_nan. exact Hq.
Qed.

(** The same facts on primitive floats. *)

Lemma mul_not_nan (x y : float) :
  is_nan x = false -> finite_nonzero (Prim2SF y) -> is_nan (x * y)%float = false.
Proof.
  rewrite !is_nan_false, mul_spec. apply SFmul_not_nan.
Qed.

Lemma sub_not_nan (x y : float) :
  is_nan x = false -> finite_nonzero (Prim2SF y) -> is_nan (x - y)%float = false.
Proof.
  rewrite !is_nan_false, sub_spec. apply SFsub_not_nan.
Qed.

Lemma div_not_nan (x y : float) :
  is_nan x = false -> finite_nonzero (Prim2SF y) -> is_nan (x / y)%float = false.
Proof.
  rewrite !is_nan_false, div_spec. apply SFdiv_not_nan.
Qed.

Lemma opp_not_nan (x : float) : is_nan x = false -> is_nan (- x)%float = false.
Proof.
  rewrite !is_nan_false, opp_spec. unfold not_nan.
  destruct (Prim2SF x); cbn; congruence.
Qed.

Lemma of_uint63_not_nan (n : PrimInt63.int) : is_nan (of_uint63 n) = false.
Proof.
  rewrite is_nan_false, of_uint63_spec. apply binary_normalize_not_nan.
Qed.

Lemma of_Z_not_nan (n : Z) : is_nan (JS.of_Z n) = false.
Proof.
  destruct n; cbn [JS.of_Z].
  - reflexivity.
  - apply of_uint63_not_nan.
  - apply opp_not_nan, of_uint63_not_nan.
Qed.

Lemma is_finite_spec (x : float) :
  is_finite x = match Prim2SF x with
                | S754_zero _ | S754_finite _ _ _ => true
                | _ => false
                end.
Proof.
  unfold is_finite, is_nan, is_infinity.
  rewrite !FloatAxioms.eqb_spec, abs_spec. unfold SFeqb.
  change (Prim2SF infinity) with (S754_infinity false).
  destruct (Prim2SF x) as [s|s| |s m e]; cbn; trivial.
  - now destruct s.
  - rewrite Z.compare_refl, Pos.compare_cont_refl. now destruct s.
Qed.

Lemma is_nan_true_eq (x : float) : is_nan x = true -> x = nan.
Proof.
  intros H. apply Prim2SF_inj. apply is_nan_spec in H. now rewrite H.
Qed.

Lemma nan_mul (y : float) : (nan * y)%float = nan.
Proof. apply Prim2SF_inj. now rewrite mul_spec. Qed.

(** The built-ins of the page on values that are not NaN. *)

Lemma toFixed1_not_nan (x : float) :
  is_nan x = false -> is_nan (JS.toFixed1 x) = false.
Proof.
  intros H. unfold JS.toFixed1.
  pose proof H as H'. apply is_nan_false in H'. unfold not_nan in H'.
  destruct (Prim2SF x) as [s|s| |s m e]; trivial; try congruence.
  destruct (0x1p49 <=? abs x)%float; trivial.
  assert (D : is_nan (JS.of_Z (JS.tenths m e) / 10)%float = false)
    by (apply div_not_nan; [apply of_Z_not_nan | reflexivity]).
  destruct s; trivial. now apply opp_not_nan.
Qed.

Lemma Math_max_0_nonneg (x : float) :
  is_nan x = false -> (0 <=? JS.Math_max x 0)%float = true.
Proof.
  intros H. unfold JS.Math_max. rewrite H.
  change (is_nan 0) with false. cbn [orb].
  pose proof (leb_negb_ltb x 0 H eq_refl) as T.
  destruct (x <? 0)%float eqn:L; [reflexivity|].
  destruct (0 <? x)%float; [exact T|].
  destruct (get_sign x); [reflexivity | exact T].
Qed.

End FloatNaN.

(** ** When a product stays finite

    The two roundings of [binary_round_aux] are shifts, that is divisions by
    powers of two; following the number of digits through them bounds the
    exponent of the result. *)

Section FloatFinite.

Local Open Scope Z_scope.

Lemma digits2_pos_size (p : positive) : digits2_pos p = Pos.size p.
Proof. induction p; cbn; congruence. Qed.

Lemma Zdigits2_log2 (m : Z) : 0 < m -> Zdigits2 m = Z.log2 m + 1.
Proof.
  destruct m as [|p|p]; try lia. intros _. cbn [Zdigits2].
  rewrite digits2_pos_size. destruct p; cbn; lia.
Qed.

Lemma shr_1_div2 (mrs : shr_record) :
  0 <= shr_m mrs -> shr_m (shr_1 mrs) = shr_m mrs / 2.
Proof.
  destruct mrs as [m r s]. cbn [shr_m]. intros H.
  destruct m as [|p|p]; try lia; [reflexivity|].
  destruct p; cbn [shr_1 shr_m].
  - rewrite Pos2Z.inj_xI. apply Z.div_unique with 1; lia.
  - rewrite Pos2Z.inj_xO. apply Z.div_unique with 0; lia.
  - reflexivity.
Qed.

Lemma iter_shr_1_div (n : positive) (mrs : shr_record) :
  0 <= shr_m mrs ->
  shr_m (iter_pos shr_1 n mrs) = shr_m mrs / 2 ^ Zpos n.
Proof.
  revert mrs. induction n as [n IH|n IH|]; intros mrs H; cbn [iter_pos].
  - rewrite IH, IH, shr_1_div2; trivial.
    + rewrite !Z.div_div by lia. f_equal.
      replace (Zpos n~1) with (Zpos n + Zpos n + 1) by lia.
      rewrite !Z.pow_add_r, Z.pow_1_r by lia. ring.
    + now apply shr_1_nonneg.
    + apply iter_shr_1_nonneg. now apply shr_1_nonneg.
  - rewrite IH, IH; trivial.
    + rewrite !Z.div_div by lia. f_equal.
      replace (Zpos n~0) with (Zpos n + Zpos n) by lia.
      rewrite !Z.pow_add_r by lia. ring.
    + now apply iter_shr_1_nonneg.
  - rewrite shr_1_div2 by trivial. now rewrite Z.pow_1_r.
Qed.

(** The two roundings of [binary_round_aux], spelled out for a mantissa
    with more digits than the format holds. *)
Lemma shr_fexp_long (m e : Z) (l : SpecFloat.location) :
  0 < m -> e < fexp prec emax (Zdigits2 m + e) ->
  let n := fexp prec emax (Zdigits2 m + e) - e in
  shr_m (fst (shr_fexp prec emax m e l)) = m / 2 ^ n
  /\ snd (shr_fexp prec emax m e l) = fexp prec emax (Zdigits2 m + e).
Proof.
  intros Hm Hn n. unfold shr_fexp. fold n. unfold shr.
  destruct n as [|p|p] eqn:E; try lia. cbn [fst snd]. split.
  - rewrite iter_shr_1_div; destruct l as [|[]]; cbn [shr_record_of_loc shr_m]; lia.
  - lia.
Qed.

Lemma shr_fexp_exponent (m e : Z) (l : SpecFloat.location) :
  snd (shr_fexp prec emax m e l) = Z.max e (fexp prec emax (Zdigits2 m + e)).
Proof.
  unfold shr_fexp, shr.
  destruct (fexp prec emax (Zdigits2 m + e) - e) eqn:E; cbn [snd]; lia.
Qed.

Lemma Zdigits2_nonneg (m : Z) : 0 <= Zdigits2 m.
Proof. destruct m; cbn; lia. Qed.

Lemma round_nearest_even_bounds (m : Z) (l : SpecFloat.location) :
  m <= round_nearest_even m l <= m + 1.
Proof.
  unfold round_nearest_even. destruct l as [|[]]; try lia.
  destruct (Z.even m); lia.
Qed.

Lemma Zdigits2_le_succ (a b : Z) : 0 <= a -> a <= b <= a + 1 -> Zdigits2 b <= Zdigits2 a + 1.
Proof.
  intros Ha Hb. destruct (Z.eq_dec a 0) as [->|Na].
  - assert (b = 0 \/ b = 1) as [->| ->] by lia; cbn; lia.
  - rewrite !Zdigits2_log2 by lia.
    assert (D : b = a \/ b = Z.succ a) by lia. destruct D as [->| ->]; [lia|].
    pose proof (Z.log2_succ_le a). lia.
Qed.

Lemma Zdigits2_lt_pow (m k : Z) : 0 <= k -> 0 <= m < 2 ^ k -> Zdigits2 m <= k.
Proof.
  intros Hk Hm. destruct (Z.eq_dec m 0) as [->|N]; [cbn; lia|].
  rewrite Zdigits2_log2 by lia.
  assert (Z.log2 m < k) by (apply Z.log2_lt_pow2; lia). lia.
Qed.

Lemma Zdigits2_bounds (m : Z) : 0 < m -> 2 ^ (Zdigits2 m - 1) <= m < 2 ^ Zdigits2 m.
Proof.
  intros H. rewrite Zdigits2_log2 by trivial.
  replace (Z.log2 m + 1 - 1) with (Z.log2 m) by lia.
  replace (Z.log2 m + 1) with (Z.succ (Z.log2 m)) by lia.
  now apply Z.log2_spec.
Qed.

Lemma Zdigits2_div_pow (m n : Z) :
  0 < m -> 0 <= n -> Zdigits2 (m / 2 ^ n) = Z.max 0 (Zdigits2 m - n).
Proof.
  intros Hm Hn. rewrite <- Z.shiftr_div_pow2 by trivial.
  destruct (Z.eq_dec (Z.shiftr m n) 0) as [E|N].
  - rewrite E. cbn [Zdigits2].
    apply Z.shiftr_eq_0_iff in E as [E|[_ E]]; [lia|].
    rewrite Zdigits2_log2 by trivial. lia.
  - assert (P : 0 < Z.shiftr m n).
    { pose proof (Z.shiftr_nonneg m n). lia. }
    rewrite (Zdigits2_log2 _ P), Z.log2_shiftr, Zdigits2_log2 by trivial.
    assert (n <= Z.log2 m).
    { destruct (Z.le_gt_cases n (Z.log2 m)) as [L|G]; trivial.
      exfalso. apply N. apply Z.shiftr_eq_0; lia. }
    lia.
Qed.

Lemma shr_fexp_short (m e : Z) (l : SpecFloat.location) :
  fexp prec emax (Zdigits2 m + e) <= e ->
  shr_m (fst (shr_fexp prec emax m e l)) = m.
Proof.
  intros H. unfold shr_fexp, shr.
  destruct (fexp prec emax (Zdigits2 m + e) - e) eqn:E; try lia;
    destruct l as [|[]]; reflexivity.
Qed.

Lemma fexp_eq (z : Z) : fexp prec emax z = Z.max (z - 53) (-1074).
Proof. reflexivity. Qed.

(** Rounding does not overflow when the value is below [2^1023], or below
    [2^1024] with a leading part that cannot carry. *)
Lemma binary_round_aux_finite (s : bool) (M E : Z) (l : SpecFloat.location) :
  0 < M -> E <= 971 ->
  (Zdigits2 M + E <= 1023
   \/ (Zdigits2 M + E = 1024 /\ E < 971 /\ M / 2 ^ (Zdigits2 M - 53) + 1 < 2 ^ 53)) ->
  finiteb (binary_round_aux prec emax s M E l) = true.
Proof.
  intros HM HE HB. unfold binary_round_aux.
  pose proof (shr_fexp_exponent M E l) as He'.
  pose proof (shr_fexp_nonneg M E l ltac:(lia)) as Hm'.
  pose proof (shr_fexp_long M E l HM) as Hlong.
  pose proof (shr_fexp_short M E l) as Hshort.
  destruct (shr_fexp prec emax M E l) as [mrs' e']. cbn [fst snd] in *.
  set (M2 := round_nearest_even (shr_m mrs') (loc_of_shr_record mrs')).
  pose proof (round_nearest_even_bounds (shr_m mrs') (loc_of_shr_record mrs')) as HM2.
  fold M2 in HM2.
  pose proof (shr_fexp_exponent M2 e' loc_Exact) as He''.
  pose proof (shr_fexp_nonneg M2 e' loc_Exact ltac:(lia)) as Hm''.
  destruct (shr_fexp prec emax M2 e' loc_Exact) as [mrs'' e'']. cbn [fst snd] in *.
  destruct (shr_m mrs'') as [|p|p]; try reflexivity; try lia.
  assert (G : e'' <= 971);
    [|apply Z.leb_le in G; change (emax - prec) with 971; now rewrite G].
  pose proof (Zdigits2_nonneg M) as Hd.
  pose proof (Zdigits2_le_succ (shr_m mrs') M2 Hm' HM2) as Hd2.
  rewrite fexp_eq in *.
  destruct (Z.lt_ge_cases E (Z.max (Zdigits2 M + E - 53) (-1074))) as [Sh|NoSh].
  - destruct (Hlong Sh) as [Hv _]. cbv zeta in Hv.
    assert (Hdm : Zdigits2 (shr_m mrs') = Z.max 0 (Zdigits2 M - (Z.max (Zdigits2 M + E - 53) (-1074) - E))).
    { rewrite Hv. apply Zdigits2_div_pow; lia. }
    destruct HB as [HB|(HB1 & HB2 & HB3)]; [lia|].
    assert (F : Z.max (Zdigits2 M + E - 53) (-1074) - E = Zdigits2 M - 53) by lia.
    rewrite F in Hv. rewrite <- Hv in HB3.
    assert (Zdigits2 M2 <= 53) by (apply Zdigits2_lt_pow; lia).
    lia.
  - specialize (Hshort ltac:(lia)). rewrite Hshort in *. lia.
Qed.

Lemma bounded_facts (mx : positive) (ex : Z) :
  bounded prec emax mx ex = true ->
  Z.max (Zpos (digits2_pos mx) + ex - 53) (-1074) = ex /\ ex <= 971.
Proof.
  unfold bounded, canonical_mantissa. rewrite andb_true_iff, Z.eqb_eq, Z.leb_le.
  rewrite fexp_eq. change (emax - prec) with 971. tauto.
Qed.

(** A finite value times a normal value below one stays finite. *)
Lemma SFmul_fraction_finite (sx sy : bool) (mx my : positive) (ex ey : Z) :
  bounded prec emax mx ex = true ->
  Zpos (digits2_pos my) = 53 -> ey <= -53 ->
  finiteb (SF64mul (S754_finite sx mx ex) (S754_finite sy my ey)) = true.
Proof.
  intros Hx Hdy Hey. apply bounded_facts in Hx as [Hc Hex].
  unfold SF64mul, SFmul.
  pose proof (Zdigits2_bounds (Zpos mx) ltac:(lia)) as Bx.
  pose proof (Zdigits2_bounds (Zpos my) ltac:(lia)) as By.
  cbn [Zdigits2] in Bx, By. rewrite Hdy in By.
  set (dx := Zpos (digits2_pos mx)) in *.
  assert (Hdx : 1 <= dx <= 53) by lia.
  assert (Hd : Zdigits2 (Zpos (mx * my)) <= dx + 53).
  { apply Zdigits2_lt_pow; [lia|]. rewrite Pos2Z.inj_mul, Z.pow_add_r by lia.
    split; [lia|]. apply Z.mul_lt_mono_nonneg; lia. }
  apply binary_round_aux_finite; try lia.
  destruct (Z.le_gt_cases (Zdigits2 (Zpos (mx * my)) + (ex + ey)) 1023) as [L|G];
    [now left|right].
  assert (D : Zdigits2 (Zpos (mx * my)) = 106) by lia.
  rewrite D. repeat split; try lia.
  change (106 - 53) with 53.
  assert (Q : Zpos (mx * my) / 2 ^ 53 < Zpos my).
  { apply Z.div_lt_upper_bound; [lia|]. rewrite Pos2Z.inj_mul.
    assert (Zpos mx < 2 ^ 53)
      by (pose proof (Z.pow_le_mono_r 2 dx 53 ltac:(lia) ltac:(lia)); lia).
    apply Z.mul_lt_mono_pos_r; lia. }
  lia.
Qed.

Lemma shr_1_even (k : Z) :
  0 <= k ->
  shr_1 {| shr_m := 2 * k; shr_r := false; shr_s := false |}
  = {| shr_m := k; shr_r := false; shr_s := false |}.
Proof. destruct k; try lia; reflexivity. Qed.

Lemma iter_shr_1_exact (n : positive) (k : Z) :
  0 <= k ->
  iter_pos shr_1 n {| shr_m := k * 2 ^ Zpos n; shr_r := false; shr_s := false |}
  = {| shr_m := k; shr_r := false; shr_s := false |}.
Proof.
  revert k. induction n as [n IH|n IH|]; intros k Hk; cbn [iter_pos].
  - replace (k * 2 ^ Zpos n~1) with (2 * ((k * 2 ^ Zpos n) * 2 ^ Zpos n)).
    2:{ replace (Zpos n~1) with (Zpos n + Zpos n + 1) by lia.
        rewrite !Z.pow_add_r, Z.pow_1_r by lia. ring. }
    rewrite shr_1_even by (apply Z.mul_nonneg_nonneg; lia).
    rewrite IH by lia. now apply IH.
  - replace (k * 2 ^ Zpos n~0) with ((k * 2 ^ Zpos n) * 2 ^ Zpos n).
    2:{ replace (Zpos n~0) with (Zpos n + Zpos n) by lia.
        rewrite !Z.pow_add_r by lia. ring. }
    rewrite IH by lia. now apply IH.
  - rewrite Z.pow_1_r, (Z.mul_comm k 2). now apply shr_1_even.
Qed.

(** Multiplying by one is exact. *)
Lemma SFmul_one (sx : bool) (mx : positive) (ex : Z) :
  bounded prec emax mx ex = true ->
  SF64mul (S754_finite sx mx ex) (Prim2SF 1) = S754_finite sx mx ex.
Proof.
  intros Hx. apply bounded_facts in Hx as [Hc Hex].
  change (Prim2SF 1) with (S754_finite false 4503599627370496 (-52)).
  unfold SF64mul, SFmul, binary_round_aux.
  assert (HM : Zpos (mx * 4503599627370496) = Zpos mx * 2 ^ 52)
    by (rewrite Pos2Z.inj_mul; reflexivity).
  assert (Hd : Zdigits2 (Zpos (mx * 4503599627370496)) = Zpos (digits2_pos mx) + 52).
  { rewrite HM, Zdigits2_log2 by lia.
    rewrite Z.log2_mul_pow2 by lia.
    change (Zpos (digits2_pos mx)) with (Zdigits2 (Zpos mx)).
    rewrite Zdigits2_log2; lia. }
  assert (S1 : shr_fexp prec emax (Zpos (mx * 4503599627370496)) (ex + -52) loc_Exact
               = ({| shr_m := Zpos mx; shr_r := false; shr_s := false |}, ex)).
  { unfold shr_fexp. rewrite Hd, fexp_eq.
    replace (Z.max (Zpos (digits2_pos mx) + 52 + (ex + -52) - 53) (-1074) - (ex + -52))
      with 52 by lia.
    unfold shr. cbn [shr_record_of_loc]. rewrite HM.
    rewrite (iter_shr_1_exact 52 (Zpos mx)) by lia. f_equal. lia. }
  rewrite S1. cbn [shr_m loc_of_shr_record round_nearest_even].
  assert (S2 : shr_fexp prec emax (Zpos mx) ex loc_Exact
               = ({| shr_m := Zpos mx; shr_r := false; shr_s := false |}, ex)).
  { unfold shr_fexp. cbn [Zdigits2]. rewrite fexp_eq, Hc, Z.sub_diag. reflexivity. }
  rewrite S2. cbn [shr_m]. change (emax - prec) with 971.
  apply Z.leb_le in Hex. rewrite Hex. now rewrite xorb_false_r.
Qed.

Lemma mul_unit_factor_finite (x y : float) :
  unit_factor y -> is_finite (x * y)%float = is_finite x.
Proof.
  intros Hy. rewrite !is_finite_spec, mul_spec.
  pose proof (Prim2SF_valid x) as V.
  destruct Hy as [->|Hy].
  - destruct (Prim2SF x) as [s|s| |s m e] eqn:E; try reflexivity.
    cbn [SpecFloat.valid_binary] in V. now rewrite SFmul_one.
  - destruct (Prim2SF y) as [| | |sy my ey]; try discriminate Hy.
    cbn [fractionb] in Hy.
    apply andb_true_iff in Hy as [Hd He].
    apply Z.eqb_eq in Hd. apply Z.leb_le in He.
    destruct (Prim2SF x) as [s|s| |s m e] eqn:E; try reflexivity.
    cbn [SpecFloat.valid_binary] in V.
    pose proof (SFmul_fraction_finite s sy m my e ey V Hd He) as F.
    destruct (SF64mul _ _); trivial; discriminate F.
Qed.

End FloatFinite.

(** ** Enumerations *)

Lemma In_Z_range (n : nat) (z : Z) :
  (0 <= z < Z.of_nat n)%Z -> In z (map Z.of_nat (seq 0 n)).
Proof.
  intros H. rewrite <- (Z2Nat.id z) by lia.
  apply in_map, in_seq. lia.
Qed.

(** ** Rounding is monotone

    A sum or product is rounded from an exact integer mantissa; comparing
    that mantissa with a canonical value below it bounds the rounded result
    from below. *)

Section FloatMonotone.

Local Open Scope Z_scope.

Lemma pos_iter_xO (m d : positive) :
  Zpos (Pos.iter xO m d) = Zpos m * 2 ^ Zpos d.
Proof.
  induction d as [|d IH] using Pos.peano_ind.
  - cbn. lia.
  - rewrite Pos.iter_succ, Pos2Z.inj_xO, IH, Pos2Z.inj_succ, Z.pow_succ_r by lia. ring.
Qed.

Lemma shl_align_spec (m : positive) (e e' : Z) :
  let r := shl_align m e e' in
  snd r = Z.min e e' /\ Zpos (fst r) = Zpos m * 2 ^ (e - snd r).
Proof.
  unfold shl_align. destruct (e' - e) as [|d|d] eqn:E; cbn [fst snd].
  - split; [lia|]. rewrite Z.sub_diag. lia.
  - split; [lia|]. rewrite Z.sub_diag. lia.
  - split; [lia|]. rewrite pos_iter_xO. f_equal. f_equal. lia.
Qed.

Lemma fexp_mono (a b : Z) : a <= b -> fexp prec emax a <= fexp prec emax b.
Proof. rewrite !fexp_eq. lia. Qed.

Lemma Zdigits2_ge_pow (m k : Z) : 0 <= k -> 2 ^ k <= m -> k + 1 <= Zdigits2 m.
Proof.
  intros Hk Hm. assert (0 < m) by (pose proof (Z.pow_pos_nonneg 2 k); lia).
  rewrite Zdigits2_log2 by trivial.
  assert (k <= Z.log2 m) by (apply Z.log2_le_pow2; lia). lia.
Qed.

Lemma shr_fexp_value (m e : Z) (l : SpecFloat.location) :
  0 < m ->
  let e' := snd (shr_fexp prec emax m e l) in
  e <= e' /\ shr_m (fst (shr_fexp prec emax m e l)) = m / 2 ^ (e' - e).
Proof.
  intros Hm. cbv zeta. rewrite shr_fexp_exponent.
  destruct (Z.lt_ge_cases e (fexp prec emax (Zdigits2 m + e))) as [L|G].
  - destruct (shr_fexp_long m e l Hm L) as [V _]. cbv zeta in V.
    rewrite V. split; [lia|]. f_equal. f_equal. lia.
  - rewrite (shr_fexp_short m e l G). split; [lia|].
    replace (Z.max e (fexp prec emax (Zdigits2 m + e)) - e) with 0 by lia.
    now rewrite Z.pow_0_r, Z.div_1_r.
Qed.

Lemma Zdigits2_pos (m : Z) : 0 < m -> 1 <= Zdigits2 m.
Proof.
  intros H. rewrite Zdigits2_log2 by trivial.
  pose proof (Z.log2_nonneg m). lia.
Qed.

Lemma div_pow_pos (m d k : Z) :
  0 <= k -> 2 ^ (d - 1) <= m -> k <= d - 1 -> 1 <= m / 2 ^ k.
Proof.
  intros Hk Hm Hkd.
  apply Z.div_le_lower_bound; [apply Z.pow_pos_nonneg; lia|].
  rewrite Z.mul_1_r. transitivity (2 ^ (d - 1)); trivial.
  apply Z.pow_le_mono_r; lia.
Qed.

(** Rounding is monotone against a canonical value below: if the value
    [M * 2^E] is at least [mx * 2^ex], so is its rounding. *)
Lemma binary_round_aux_ge (M E : Z) (l : SpecFloat.location) (mx : positive) (ex : Z) :
  0 < M -> E <= ex ->
  fexp prec emax (Zpos (digits2_pos mx) + ex) = ex ->
  Zpos mx * 2 ^ (ex - E) <= M ->
  key_le (fkey (S754_finite false mx ex))
         (fkey (binary_round_aux prec emax false M E l)).
Proof.
  intros HM HE Hc HV. unfold binary_round_aux.
  pose proof (Zdigits2_bounds (Zpos mx) ltac:(lia)) as Bx. cbn [Zdigits2] in Bx.
  set (dx := Zpos (digits2_pos mx)) in *.
  assert (Hdx : 1 <= dx) by (subst dx; lia).
  pose proof (Zdigits2_bounds M HM) as BM.
  pose proof (Zdigits2_pos M HM) as D1.
  set (d := Zdigits2 M) in *.
  assert (Hd : dx + ex - E <= d).
  { replace (dx + ex - E) with ((dx - 1 + (ex - E)) + 1) by lia.
    apply Zdigits2_ge_pow; [lia|].
    rewrite Z.pow_add_r by lia.
    transitivity (Zpos mx * 2 ^ (ex - E)); trivial.
    apply Z.mul_le_mono_nonneg_r; [apply Z.pow_nonneg|]; lia. }
  pose proof (fexp_mono (dx + ex) (d + E) ltac:(lia)) as HF.
  rewrite Hc in HF.
  assert (Hex : -1074 <= ex) by (rewrite fexp_eq in Hc; lia).
  pose proof (shr_fexp_exponent M E l) as He'. fold d in He'.
  pose proof (shr_fexp_value M E l HM) as [_ Hm'].
  destruct (shr_fexp prec emax M E l) as [mrs' e']. cbn [fst snd] in *.
  assert (Ge' : ex <= e') by lia.
  assert (Pm' : 1 <= shr_m mrs').
  { rewrite Hm'. apply (div_pow_pos M d); try lia.
    rewrite He', fexp_eq. lia. }
  assert (Em' : e' = ex -> Zpos mx <= shr_m mrs').
  { intros ->. rewrite Hm'.
    rewrite <- (Z.div_mul (Zpos mx) (2 ^ (ex - E)))
      by (apply Z.pow_nonzero; lia).
    apply Z.div_le_mono; [apply Z.pow_pos_nonneg; lia | trivial]. }
  set (M2 := round_nearest_even (shr_m mrs') (loc_of_shr_record mrs')).
  pose proof (round_nearest_even_bounds (shr_m mrs') (loc_of_shr_record mrs')) as HM2.
  fold M2 in HM2.
  assert (PM2 : 0 < M2) by lia.
  pose proof (Zdigits2_bounds M2 PM2) as BM2.
  pose proof (Zdigits2_pos M2 PM2) as D2.
  pose proof (shr_fexp_exponent M2 e' loc_Exact) as He''.
  pose proof (shr_fexp_value M2 e' loc_Exact PM2) as [_ Hm''].
  destruct (shr_fexp prec emax M2 e' loc_Exact) as [mrs'' e'']. cbn [fst snd] in *.
  assert (Pm'' : 1 <= shr_m mrs'').
  { rewrite Hm''. apply (div_pow_pos M2 (Zdigits2 M2)); try lia.
    rewrite He'', fexp_eq. lia. }
  assert (Em'' : e'' = e' -> shr_m mrs'' = M2).
  { intros ->. rewrite Hm'', Z.sub_diag, Z.pow_0_r. apply Z.div_1_r. }
  destruct (shr_m mrs'') as [|p|p] eqn:Ep; try lia.
  destruct (e'' <=? emax - prec); cbn [fkey key_le]; [|lia].
  destruct (Z.eq_dec e'' ex) as [Eq|Ne]; [|lia].
  assert (E1 : e' = ex) by lia. assert (E2 : e'' = e') by lia.
  specialize (Em' E1). specialize (Em'' E2). lia.
Qed.

Lemma SFadd_pos_ge (mx mt : positive) (ex et : Z) :
  bounded prec emax mx ex = true ->
  key_le (fkey (S754_finite false mx ex))
         (fkey (SF64add (S754_finite false mx ex) (S754_finite false mt et))).
Proof.
  intros Hx. apply bounded_facts in Hx as [Hc Hex].
  unfold SF64add, SFadd. cbn [cond_Zopp].
  set (ez := Z.min ex et).
  destruct (shl_align_spec mx ex ez) as [Ea Va].
  destruct (shl_align_spec mt et ez) as [Eb Vb].
  destruct (shl_align mx ex ez) as [a ea], (shl_align mt et ez) as [b eb].
  cbn [fst snd] in *. cbn [Z.add binary_normalize].
  unfold binary_round.
  destruct (shl_align_spec (a + b) ez
              (fexp prec emax (Zpos (digits2_pos (a + b)) + ez))) as [Ez Vz].
  destruct (shl_align (a + b) ez _) as [mz ez']. cbn [fst snd] in *.
  apply binary_round_aux_ge; try lia.
  - now rewrite fexp_eq.
  - rewrite Vz, Pos2Z.inj_add, Va.
    replace (ex - ez') with ((ex - ea) + (ez - ez')) by lia.
    rewrite Z.pow_add_r by lia.
    assert (0 < 2 ^ (ez - ez')) by (apply Z.pow_pos_nonneg; lia).
    assert (0 < 2 ^ (ex - ea)) by (apply Z.pow_pos_nonneg; lia).
    nia.
Qed.

Lemma leb_zero_nonneg (t : float) : (0 <=? t)%float = true <-> nonnegb (Prim2SF t) = true.
Proof.
  rewrite FloatAxioms.leb_spec. unfold SFleb.
  change (Prim2SF 0) with (S754_zero false).
  destruct (Prim2SF t) as [s|[]| |[] m e]; cbn; split; congruence.
Qed.

Lemma ltb_zero_pos (x : float) :
  (0 <? x)%float = true <->
  match Prim2SF x with
  | S754_infinity false | S754_finite false _ _ => True
  | _ => False
  end.
Proof.
  rewrite FloatAxioms.ltb_spec. unfold SFltb.
  change (Prim2SF 0) with (S754_zero false).
  destruct (Prim2SF x) as [s|[]| |[] m e]; cbn; split; try tauto; congruence.
Qed.

(** Adding a value that is not negative does not decrease a positive
    value. *)
Lemma add_nonneg_ge (x t : float) :
  (0 <? x)%float = true -> (0 <=? t)%float = true -> (x <=? x + t)%float = true.
Proof.
  rewrite ltb_zero_pos, leb_zero_nonneg. intros Hx Ht.
  pose proof (Prim2SF_valid x) as V.
  assert (K : not_nan (SF64add (Prim2SF x) (Prim2SF t))
              /\ key_le (fkey (Prim2SF x)) (fkey (SF64add (Prim2SF x) (Prim2SF t)))).
  { destruct (Prim2SF x) as [sx|[]| |[] mx ex]; try contradiction.
    - destruct (Prim2SF t) as [st|[]| |[] mt et]; try discriminate Ht;
        cbn; split; try discriminate; lia.
    - cbn [SpecFloat.valid_binary] in V.
      destruct (Prim2SF t) as [st|[]| |[] mt et]; try discriminate Ht.
      + cbn. split; [discriminate|lia].
      + cbn. split; [discriminate|lia].
      + split; [|now apply SFadd_pos_ge].
        unfold SF64add, SFadd. apply binary_normalize_not_nan. }
  destruct K as [N K]. rewrite <- add_spec in N, K.
  apply leb_iff; trivial.
  - apply is_nan_false. destruct (Prim2SF x) as [sx|[]| |[] mx ex];
      try contradiction; discriminate.
  - now apply is_nan_false.
Qed.

Lemma binary_round_aux_sign (M E : Z) (l : SpecFloat.location) :
  0 <= M -> nonnegb (binary_round_aux prec emax false M E l) = true.
Proof.
  intros HM. pose proof (binary_round_aux_not_nan false M E l HM) as N.
  unfold binary_round_aux in *.
  destruct (shr_fexp prec emax M E l) as [mrs' e'].
  destruct (shr_fexp prec emax _ e' loc_Exact) as [mrs'' e''].
  destruct (shr_m mrs'') as [|p|p]; try reflexivity.
  - now destruct (e'' <=? emax - prec).
  - now destruct N.
Qed.

(** The product of two values that are not negative is not negative, unless
    it is the NaN of [0 * inf]. *)
Lemma mul_nonneg (a b : float) :
  (0 <=? a)%float = true -> (0 <? b)%float = true -> is_finite b = true ->
  (0 <=? a * b)%float = true.
Proof.
  rewrite !leb_zero_nonneg, ltb_zero_pos, is_finite_spec, mul_spec.
  unfold SF64mul, SFmul.
  destruct (Prim2SF b) as [sb|[]| |[] mb eb]; try contradiction; try discriminate.
  intros Ha _ _.
  destruct (Prim2SF a) as [sa|[]| |[] ma ea]; try discriminate Ha; try reflexivity.
  cbn [xorb]. apply binary_round_aux_sign. lia.
Qed.

Lemma leb_trans (x y z : float) :
  (x <=? y)%float = true -> (y <=? z)%float = true -> (x <=? z)%float = true.
Proof.
  intros H1 H2.
  destruct (leb_not_nan _ _ H1) as [Nx Ny], (leb_not_nan _ _ H2) as [_ Nz].
  apply leb_iff in H1, H2; trivial. apply leb_iff; trivial.
  revert H1 H2.
  destruct (fkey (Prim2SF x)) as [[? ?] ?], (fkey (Prim2SF y)) as [[? ?] ?],
    (fkey (Prim2SF z)) as [[? ?] ?]. cbn. lia.
Qed.

Lemma leb_refl (x : float) : is_nan x = false -> (x <=? x)%float = true.
Proof. intros N. apply leb_iff; trivial. apply key_le_refl. Qed.

Lemma ltb_leb (x y : float) : (x <? y)%float = true -> (x <=? y)%float = true.
Proof.
  intros H. destruct (ltb_not_nan _ _ H) as [Nx Ny].
  apply leb_iff; trivial. apply ltb_iff in H; trivial.
  now apply key_lt_le.
Qed.

(** [Math.min(y, c)] lies between a lower bound of both and [c]. *)
Lemma Math_min_bounds (lo y c : float) :
  (lo <=? y)%float = true -> (lo <=? c)%float = true ->
  (lo <=? JS.Math_min y c)%float = true /\ (JS.Math_min y c <=? c)%float = true.
Proof.
  intros Hy Hc.
  destruct (leb_not_nan _ _ Hy) as [_ Ny], (leb_not_nan _ _ Hc) as [_ Nc].
  unfold JS.Math_min. rewrite Ny, Nc. cbn [orb].
  destruct (y <? c)%float eqn:L.
  - split; [trivial | now apply ltb_leb].
  - assert (G : (y <=? c)%float = negb (c <? y)%float) by now apply leb_negb_ltb.
    destruct (c <? y)%float eqn:L'.
    + split; [trivial | now apply leb_refl].
    + destruct (get_sign y); split; trivial; now apply leb_refl.
Qed.

Lemma tenths_table :
  forallb (fun n => (2 <=? JS.of_Z n / 10)%float && (JS.of_Z n / 10 <=? 11)%float)
    (map (fun k => 20 + Z.of_nat k) (seq 0 91)) = true.
Proof. vm_compute. reflexivity. Qed.

Lemma tenths_in_range (n : Z) :
  20 <= n <= 110 ->
  (2 <=? JS.of_Z n / 10)%float = true /\ (JS.of_Z n / 10 <=? 11)%float = true.
Proof.
  intros H. pose proof tenths_table as T. rewrite forallb_forall in T.
  apply andb_true_iff, T. apply in_map_iff. exists (Z.to_nat (n - 20)).
  split; [lia|]. apply in_seq. lia.
Qed.

(** Rounding to one decimal keeps a value of [2, 11] in [2, 11]. *)
Lemma toFixed1_bounds (z : float) :
  (2 <=? z)%float = true -> (z <=? 11)%float = true ->
  (2 <=? JS.toFixed1 z)%float = true /\ (JS.toFixed1 z <=? 11)%float = true.
Proof.
  intros H2 H11.
  destruct (leb_not_nan _ _ H2) as [_ Nz].
  pose proof (Prim2SF_valid z) as V.
  assert (Big : (0x1p49 <=? abs z)%float = false).
  { destruct (0x1p49 <=? abs z)%float eqn:B; trivial. exfalso.
    apply leb_iff in B; [|reflexivity|].
    2:{ apply is_nan_false. rewrite abs_spec. apply is_nan_false in Nz.
        unfold not_nan in *. destruct (Prim2SF z); cbn; congruence. }
    apply leb_iff in H11; trivial. apply leb_iff in H2; trivial.
    rewrite abs_spec in B. revert B H2 H11.
    change (fkey (Prim2SF 0x1p49)) with (1, -3, 4503599627370496).
    change (fkey (Prim2SF 2)) with (1, -51, 4503599627370496).
    change (fkey (Prim2SF 11)) with (1, -49, 6192449487634432).
    destruct (Prim2SF z) as [s|[]| |[] m e]; cbn; lia. }
  apply leb_iff in H11; trivial. apply leb_iff in H2; trivial.
  unfold JS.toFixed1. rewrite Big. revert H2 H11 V.
  change (fkey (Prim2SF 2)) with (1, -51, 4503599627370496).
  change (fkey (Prim2SF 11)) with (1, -49, 6192449487634432).
  destruct (Prim2SF z) as [s|[]| |[] m e]; cbn [fkey key_le]; try lia.
  intros H2 H11 V. cbn [SpecFloat.valid_binary] in V.
  apply bounded_facts in V as [Hc _].
  pose proof (Zdigits2_bounds (Zpos m) ltac:(lia)) as B. cbn [Zdigits2] in B.
  assert (D : Zpos (digits2_pos m) = 53) by lia. rewrite D in B.
  change (2 ^ (53 - 1)) with 4503599627370496 in B.
  change (2 ^ 53) with 9007199254740992 in B.
  apply tenths_in_range. clear Big Nz.
  assert (Ecases : e = -51 \/ e = -50 \/ e = -49) by lia.
  clear Hc D.
  destruct Ecases as [->|[->| ->]].
  - change (JS.tenths m (-51))
      with ((20 * Zpos m + 2251799813685248) / 4503599627370496).
    split; [apply Z.div_le_lower_bound | apply Z.div_le_upper_bound]; lia.
  - change (JS.tenths m (-50))
      with ((20 * Zpos m + 1125899906842624) / 2251799813685248).
    split; [apply Z.div_le_lower_bound | apply Z.div_le_upper_bound]; lia.
  - change (JS.tenths m (-49))
      with ((20 * Zpos m + 562949953421312) / 1125899906842624).
    split; [apply Z.div_le_lower_bound; lia|].
    apply Z.lt_succ_r, Z.div_lt_upper_bound; lia.
Qed.

Lemma Zdigits2_mul_pow2 (m k : Z) :
  0 < m -> 0 <= k -> Zdigits2 (m * 2 ^ k) = Zdigits2 m + k.
Proof.
  intros Hm Hk.
  assert (0 < m * 2 ^ k) by (apply Z.mul_pos_pos; [|apply Z.pow_pos_nonneg]; lia).
  rewrite !Zdigits2_log2, Z.log2_mul_pow2 by lia. lia.
Qed.

Lemma Zdigits2_add_le (a b k : Z) :
  0 < a -> 0 < b -> 0 <= k -> Zdigits2 a <= k -> Zdigits2 b <= k ->
  Zdigits2 (a + b) <= k + 1.
Proof.
  intros Ha Hb Hk Da Db.
  pose proof (Zdigits2_bounds a Ha) as [_ Ba].
  pose proof (Zdigits2_bounds b Hb) as [_ Bb].
  assert (2 ^ Zdigits2 a <= 2 ^ k) by (apply Z.pow_le_mono_r; lia).
  assert (2 ^ Zdigits2 b <= 2 ^ k) by (apply Z.pow_le_mono_r; lia).
  apply Zdigits2_lt_pow; [lia|]. rewrite Z.pow_add_r, Z.pow_1_r by lia. lia.
Qed.

(** The sum of two positive values of moderate size is finite. *)
Lemma SFadd_pos_finite (mx mt : positive) (ex et lim : Z) :
  ex <= 971 -> et <= 971 -> lim <= 1022 ->
  Zpos (digits2_pos mx) + ex <= lim -> Zpos (digits2_pos mt) + et <= lim ->
  finiteb (SF64add (S754_finite false mx ex) (S754_finite false mt et)) = true.
Proof.
  intros Hex Het Hlim Hx Ht.
  unfold SF64add, SFadd. cbn [cond_Zopp].
  set (ez := Z.min ex et).
  destruct (shl_align_spec mx ex ez) as [Ea Va].
  destruct (shl_align_spec mt et ez) as [Eb Vb].
  destruct (shl_align mx ex ez) as [a ea], (shl_align mt et ez) as [b eb].
  cbn [fst snd] in *. cbn [Z.add binary_normalize].
  unfold binary_round.
  destruct (shl_align_spec (a + b) ez
              (fexp prec emax (Zpos (digits2_pos (a + b)) + ez))) as [Ez Vz].
  destruct (shl_align (a + b) ez _) as [mz ez']. cbn [fst snd] in *.
  assert (Da : Zdigits2 (Zpos a) = Zpos (digits2_pos mx) + (ex - ea))
    by (rewrite Va; apply (Zdigits2_mul_pow2 (Zpos mx)); lia).
  assert (Db : Zdigits2 (Zpos b) = Zpos (digits2_pos mt) + (et - eb))
    by (rewrite Vb; apply (Zdigits2_mul_pow2 (Zpos mt)); lia).
  assert (Dab : Zdigits2 (Zpos a + Zpos b) <= lim - ez + 1).
  { pose proof (Zdigits2_pos (Zpos a) ltac:(lia)).
    apply Zdigits2_add_le; lia. }
  assert (Dz : Zdigits2 (Zpos mz) = Zdigits2 (Zpos a + Zpos b) + (ez - ez')).
  { rewrite Vz, Pos2Z.inj_add. apply Zdigits2_mul_pow2; lia. }
  apply binary_round_aux_finite; try lia.
Qed.

(** With [0 <= s <= 1], the factor [0.4 + s] of the forecast is a finite
    number above zero. *)
Lemma forecast_factor_finite_nonzero (s : float) :
  (0 <=? s)%float = true -> (s <=? 1)%float = true ->
  finite_nonzero (Prim2SF (0.4 + s)%float).
Proof.
  intros H0 H1.
  pose proof (add_nonneg_ge 0.4 s eq_refl H0) as G.
  destruct (leb_not_nan _ _ G) as [_ N].
  apply leb_iff in G; [|reflexivity|trivial].
  destruct (leb_not_nan _ _ H1) as [Ns _].
  apply leb_iff in H1; [|trivial|reflexivity].
  apply leb_zero_nonneg in H0.
  pose proof (Prim2SF_valid s) as V.
  unfold finite_nonzero. revert G. rewrite add_spec.
  change (Prim2SF 0.4) with (S754_finite false 7205759403792794 (-54)).
  change (fkey (S754_finite false 7205759403792794 (-54)))
    with (1, -54, 7205759403792794).
  revert H1. change (fkey (Prim2SF 1)) with (1, -52, 4503599627370496).
  destruct (Prim2SF s) as [ss|[]| |[] ms es]; try discriminate H0;
    try (cbn; lia); try reflexivity.
  cbn [fkey key_le]. intros H1 G.
  cbn [SpecFloat.valid_binary] in V. apply bounded_facts in V as [Hc Hes].
  pose proof (SFadd_pos_finite 7205759403792794 ms (-54) es 1
                ltac:(lia) Hes ltac:(lia) ltac:(cbn; lia)) as F.
  assert (Ds : Zpos (digits2_pos ms) + es <= 1).
  { pose proof (Zdigits2_bounds (Zpos ms) ltac:(lia)) as B. cbn [Zdigits2] in B.
    destruct (Z.eq_dec es (-52)) as [->|Ne]; [|lia].
    assert (Zpos (digits2_pos ms) <= 53) by lia.
    assert (Zpos ms <= 4503599627370496) by lia.
    destruct (Z.eq_dec (Zpos (digits2_pos ms)) 53) as [E53|]; [|lia].
    rewrite E53 in B. change (2 ^ (53 - 1)) with 4503599627370496 in B. lia. }
  specialize (F Ds).
  destruct (SF64add _ _) as [sz|sz| |sz mz ez]; cbn in G, F |- *;
    try discriminate F; try reflexivity; lia.
Qed.

End FloatMonotone.

(** ** Whole numbers

    A whole number below [2^53] is a binary64 value, and sums, differences,
    products and remainders of such numbers are exact as long as the result
    stays below [2^53].  The quotient of two of them is rounded, but its
    floor is the integer quotient. *)

Section FloatExact.
Local Open Scope Z_scope.

Lemma shr_fexp_exact (c : positive) (Ec E : Z) :
  bounded prec emax c Ec = true -> E <= Ec ->
  shr_fexp prec emax (Zpos c * 2 ^ (Ec - E)) E loc_Exact
  = ({| shr_m := Zpos c; shr_r := false; shr_s := false |}, Ec).
Proof.
  intros Hb HE. apply bounded_facts in Hb as [Hc _].
  unfold shr_fexp.
  rewrite Zdigits2_mul_pow2 by lia.
  change (Zdigits2 (Zpos c)) with (Zpos (digits2_pos c)).
  rewrite fexp_eq.
  replace (Z.max (Zpos (digits2_pos c) + (Ec - E) + E - 53) (-1074)) with Ec by lia.
  unfold shr. cbn [shr_record_of_loc].
  destruct (Ec - E) as [|p|p] eqn:D; try lia.
  - rewrite Z.mul_1_r. f_equal. lia.
  - rewrite iter_shr_1_exact by lia. f_equal. lia.
Qed.

Lemma binary_round_aux_exact (s : bool) (M E : Z) (c : positive) (Ec : Z) :
  bounded prec emax c Ec = true -> E <= Ec -> M = Zpos c * 2 ^ (Ec - E) ->
  binary_round_aux prec emax s M E loc_Exact = S754_finite s c Ec.
Proof.
  intros Hb HE ->. unfold binary_round_aux.
  rewrite shr_fexp_exact by assumption.
  cbn [shr_m loc_of_shr_record round_nearest_even].
  pose proof (shr_fexp_exact c Ec Ec Hb (Z.le_refl _)) as S2.
  rewrite Z.sub_diag, Z.mul_1_r in S2. rewrite S2. cbn [shr_m].
  apply bounded_facts in Hb as [_ Hex].
  change (emax - prec) with 971. apply Z.leb_le in Hex. now rewrite Hex.
Qed.

Lemma binary_round_exact (s : bool) (m : positive) (e : Z) (c : positive) (Ec : Z) :
  bounded prec emax c Ec = true ->
  (e <= Ec /\ Zpos m = Zpos c * 2 ^ (Ec - e))
  \/ (Ec <= e /\ Zpos c = Zpos m * 2 ^ (e - Ec)) ->
  binary_round prec emax s m e = S754_finite s c Ec.
Proof.
  intros Hb H. unfold binary_round.
  pose proof (bounded_facts c Ec Hb) as [Hc _].
  assert (Hd : Zpos (digits2_pos m) + e = Zpos (digits2_pos c) + Ec).
  { change (Zpos (digits2_pos m)) with (Zdigits2 (Zpos m)).
    change (Zpos (digits2_pos c)) with (Zdigits2 (Zpos c)).
    destruct H as [[H1 H2]|[H1 H2]]; rewrite H2, Zdigits2_mul_pow2 by lia; lia. }
  rewrite Hd, fexp_eq, Hc.
  pose proof (shl_align_spec m e Ec) as A. cbv zeta in A.
  destruct (shl_align m e Ec) as [mz ez]. cbn [fst snd] in A. destruct A as [A1 A2].
  apply binary_round_aux_exact; trivial.
  - lia.
  - rewrite A2, A1. destruct H as [[H1 H2]|[H1 H2]].
    + rewrite Z.min_l by lia. rewrite Z.sub_diag, Z.mul_1_r. exact H2.
    + rewrite Z.min_r by lia. rewrite Z.sub_diag, Z.mul_1_r. now symmetry.
Qed.

Lemma whole_bounded (n : Z) :
  0 < n < 2 ^ 53 ->
  Zpos (Z.to_pos (n * 2 ^ (53 - Zdigits2 n))) = n * 2 ^ (53 - Zdigits2 n)
  /\ 1 <= Zdigits2 n <= 53
  /\ bounded prec emax (Z.to_pos (n * 2 ^ (53 - Zdigits2 n))) (Zdigits2 n - 53) = true.
Proof.
  intros Hn.
  assert (Hd : 1 <= Zdigits2 n <= 53).
  { split. apply Zdigits2_pos; lia. apply Zdigits2_lt_pow; lia. }
  assert (Hp : 0 < n * 2 ^ (53 - Zdigits2 n)).
  { apply Z.mul_pos_pos. lia. apply Z.pow_pos_nonneg; lia. }
  split; [|split]; trivial.
  - now rewrite Z2Pos.id.
  - unfold bounded, canonical_mantissa.
    change (Zpos (digits2_pos ?p)) with (Zdigits2 (Zpos p)).
    rewrite Z2Pos.id by assumption.
    rewrite Zdigits2_mul_pow2 by lia.
    rewrite fexp_eq.
    apply andb_true_iff. split.
    + apply Z.eqb_eq. lia.
    + apply Z.leb_le. change (emax - prec) with 971. lia.
Qed.

(** Rounding a mantissa and exponent whose value is a whole number below
    [2^53] gives the decoded form of that number. *)
Lemma binary_round_whole (s : bool) (m : positive) (e n : Z) :
  0 < n < 2 ^ 53 ->
  (0 <= e /\ n = Zpos m * 2 ^ e) \/ (e <= 0 /\ Zpos m = n * 2 ^ (- e)) ->
  binary_round prec emax s m e = whole s n.
Proof.
  intros Hn H. unfold whole.
  destruct (whole_bounded n Hn) as (Hc & Hd & Hb).
  apply binary_round_exact; trivial. rewrite Hc.
  set (d := Zdigits2 n) in *.
  destruct H as [[He H]|[He H]].
  - right. split. lia.
    replace (e - (d - 53)) with (e + (53 - d)) by lia.
    rewrite Z.pow_add_r, Z.mul_assoc, <- H by lia. reflexivity.
  - destruct (Z_le_gt_dec e (d - 53)) as [L|G].
    + left. split. lia. rewrite H.
      replace (- e) with ((53 - d) + (d - 53 - e)) by lia.
      rewrite Z.pow_add_r, Z.mul_assoc by lia. reflexivity.
    + right. split. lia. rewrite H.
      replace (53 - d) with (- e + (e - (d - 53))) by lia.
      rewrite Z.pow_add_r, Z.mul_assoc by lia. reflexivity.
Qed.

Lemma binary_round_aux_whole (s : bool) (M E n : Z) :
  0 < n < 2 ^ 53 -> E <= Zdigits2 n - 53 -> M = n * 2 ^ (- E) ->
  binary_round_aux prec emax s M E loc_Exact = whole s n.
Proof.
  intros Hn HE ->. unfold whole.
  destruct (whole_bounded n Hn) as (Hc & Hd & Hb).
  apply binary_round_aux_exact; trivial. rewrite Hc.
  rewrite <- Z.mul_assoc, <- Z.pow_add_r by lia. do 2 f_equal. lia.
Qed.

Lemma of_Z_whole (n : Z) :
  0 < n < 2 ^ 53 -> Prim2SF (JS.of_Z n) = whole false n.
Proof.
  intros Hn. destruct n as [|p|p]; try lia. unfold JS.of_Z.
  rewrite of_uint63_spec, Uint63.of_Z_spec.
  rewrite Z.mod_small.
  2:{ split. lia. apply Z.lt_trans with (2 ^ 53). lia. reflexivity. }
  cbn [binary_normalize]. apply binary_round_whole; trivial.
  left. split. lia. now rewrite Z.mul_1_r.
Qed.

Lemma whole_value (s : bool) (n : Z) :
  0 < n < 2 ^ 53 ->
  exists (c : positive) (E : Z),
    whole s n = S754_finite s c E /\ E <= 0 /\ Zpos c = n * 2 ^ (- E)
    /\ E = Zdigits2 n - 53.
Proof.
  intros Hn. destruct (whole_bounded n Hn) as (Hc & Hd & Hb).
  eexists _, _. split. reflexivity. split. lia. split; trivial.
  rewrite Hc. do 2 f_equal. lia.
Qed.

(** Sums and differences of whole numbers are exact. *)
Lemma of_Z_add (a b : Z) :
  0 <= a -> 0 <= b -> a + b < 2 ^ 53 ->
  (JS.of_Z a + JS.of_Z b)%float = JS.of_Z (a + b).
Proof.
  intros Ha Hb Hs.
  destruct (Z.eq_dec a 0) as [->|Na].
  { destruct (Z.eq_dec b 0) as [->|Nb]. reflexivity.
    apply Prim2SF_inj. rewrite add_spec. cbn [Z.add].
    change (Prim2SF (JS.of_Z 0)) with (S754_zero false).
    rewrite of_Z_whole by lia. reflexivity. }
  destruct (Z.eq_dec b 0) as [->|Nb].
  { apply Prim2SF_inj. rewrite add_spec, Z.add_0_r.
    change (Prim2SF (JS.of_Z 0)) with (S754_zero false).
    rewrite of_Z_whole by lia. reflexivity. }
  apply Prim2SF_inj. rewrite add_spec, !of_Z_whole by lia.
  destruct (whole_value false a) as (ca & Ea & -> & HEa & Hca & _); [lia|].
  destruct (whole_value false b) as (cb & Eb & -> & HEb & Hcb & _); [lia|].
  unfold SF64add, SFadd. cbn [cond_Zopp].
  pose proof (shl_align_spec ca Ea (Z.min Ea Eb)) as A.
  pose proof (shl_align_spec cb Eb (Z.min Ea Eb)) as B.
  cbv zeta in A, B. destruct A as [A1 A2], B as [B1 B2].
  rewrite A2, B2, A1, B1, Hca, Hcb.
  set (ez := Z.min Ea Eb).
  replace (Z.min Ea ez) with ez by lia. replace (Z.min Eb ez) with ez by lia.
  assert (HS : a * 2 ^ (- Ea) * 2 ^ (Ea - ez) + b * 2 ^ (- Eb) * 2 ^ (Eb - ez)
               = (a + b) * 2 ^ (- ez)).
  { rewrite <- !Z.mul_assoc, <- !Z.pow_add_r by lia.
    replace (- Ea + (Ea - ez)) with (- ez) by lia.
    replace (- Eb + (Eb - ez)) with (- ez) by lia. ring. }
  rewrite HS.
  assert (P : 0 < (a + b) * 2 ^ (- ez)).
  { apply Z.mul_pos_pos. lia. apply Z.pow_pos_nonneg; lia. }
  destruct ((a + b) * 2 ^ (- ez)) as [|p|p] eqn:Ep; try lia.
  cbn [binary_normalize]. apply binary_round_whole. lia.
  right. split. lia. now rewrite Ep.
Qed.

Lemma of_Z_sub (a b : Z) :
  0 <= b <= a -> a < 2 ^ 53 ->
  (JS.of_Z a - JS.of_Z b)%float = JS.of_Z (a - b).
Proof.
  intros Hab Ha.
  destruct (Z.eq_dec b 0) as [->|Nb].
  { rewrite Z.sub_0_r. destruct (Z.eq_dec a 0) as [->|Na]. reflexivity.
    apply Prim2SF_inj. rewrite sub_spec.
    change (Prim2SF (JS.of_Z 0)) with (S754_zero false).
    rewrite of_Z_whole by lia. reflexivity. }
  apply Prim2SF_inj. rewrite sub_spec, !of_Z_whole by lia.
  destruct (whole_value false a) as (ca & Ea & -> & HEa & Hca & _); [lia|].
  destruct (whole_value false b) as (cb & Eb & -> & HEb & Hcb & _); [lia|].
  unfold SF64sub, SFsub. cbn [cond_Zopp].
  pose proof (shl_align_spec ca Ea (Z.min Ea Eb)) as A.
  pose proof (shl_align_spec cb Eb (Z.min Ea Eb)) as B.
  cbv zeta in A, B. destruct A as [A1 A2], B as [B1 B2].
  rewrite A2, B2, A1, B1, Hca, Hcb.
  set (ez := Z.min Ea Eb).
  replace (Z.min Ea ez) with ez by lia. replace (Z.min Eb ez) with ez by lia.
  assert (HS : a * 2 ^ (- Ea) * 2 ^ (Ea - ez) - b * 2 ^ (- Eb) * 2 ^ (Eb - ez)
               = (a - b) * 2 ^ (- ez)).
  { rewrite <- !Z.mul_assoc, <- !Z.pow_add_r by lia.
    replace (- Ea + (Ea - ez)) with (- ez) by lia.
    replace (- Eb + (Eb - ez)) with (- ez) by lia. ring. }
  rewrite HS.
  destruct (Z.eq_dec a b) as [->|Nab].
  { rewrite Z.sub_diag. reflexivity. }
  assert (P : 0 < (a - b) * 2 ^ (- ez)).
  { apply Z.mul_pos_pos. lia. apply Z.pow_pos_nonneg; lia. }
  rewrite of_Z_whole by lia.
  destruct ((a - b) * 2 ^ (- ez)) as [|p|p] eqn:Ep; try lia.
  cbn [binary_normalize]. apply binary_round_whole. lia.
  right. split. lia. now rewrite Ep.
Qed.

Lemma of_Z_mul (a b : Z) :
  0 <= a < 2 ^ 53 -> 0 <= b < 2 ^ 53 -> a * b < 2 ^ 53 ->
  (JS.of_Z a * JS.of_Z b)%float = JS.of_Z (a * b).
Proof.
  intros Ha Hb Hs.
  destruct (Z.eq_dec b 0) as [->|Nb].
  { rewrite Z.mul_0_r. destruct (Z.eq_dec a 0) as [->|Na]. reflexivity.
    apply Prim2SF_inj. rewrite mul_spec.
    change (Prim2SF (JS.of_Z 0)) with (S754_zero false).
    rewrite of_Z_whole by lia. reflexivity. }
  destruct (Z.eq_dec a 0) as [->|Na].
  { apply Prim2SF_inj. rewrite mul_spec. cbn [Z.mul].
    change (Prim2SF (JS.of_Z 0)) with (S754_zero false).
    rewrite of_Z_whole by lia. reflexivity. }
  apply Prim2SF_inj. rewrite mul_spec, !of_Z_whole by nia.
  destruct (whole_value false a) as (ca & Ea & -> & HEa & Hca & HdA); [lia|].
  destruct (whole_value false b) as (cb & Eb & -> & HEb & Hcb & HdB); [lia|].
  unfold SF64mul, SFmul. cbn [xorb].
  apply binary_round_aux_whole. nia.
  - assert (Zdigits2 a + Zdigits2 b - 1 <= Zdigits2 (a * b)).
    { pose proof (Zdigits2_bounds a ltac:(lia)).
      pose proof (Zdigits2_bounds b ltac:(lia)).
      pose proof (Zdigits2_pos a ltac:(lia)). pose proof (Zdigits2_pos b ltac:(lia)).
      pose proof (Zdigits2_ge_pow (a * b) (Zdigits2 a - 1 + (Zdigits2 b - 1))) as G.
      rewrite Z.pow_add_r in G by lia.
      assert (0 < 2 ^ (Zdigits2 a - 1)) by (apply Z.pow_pos_nonneg; lia).
      assert (0 < 2 ^ (Zdigits2 b - 1)) by (apply Z.pow_pos_nonneg; lia).
      assert (2 ^ (Zdigits2 a - 1) * 2 ^ (Zdigits2 b - 1) <= a * b)
        by (apply Z.mul_le_mono_nonneg; lia).
      lia. }
    lia.
  - rewrite Pos2Z.inj_mul, Hca, Hcb.
    replace (- (Ea + Eb)) with (- Ea + - Eb) by lia.
    rewrite Z.pow_add_r by lia. ring.
Qed.

Lemma of_Z_0 : Prim2SF (JS.of_Z 0) = S754_zero false.
Proof. reflexivity. Qed.

Lemma Math_floor_whole (n : Z) :
  0 <= n < 2 ^ 53 -> JS.Math_floor (JS.of_Z n) = JS.of_Z n.
Proof.
  intros Hn. destruct (Z.eq_dec n 0) as [->|N]. reflexivity.
  unfold JS.Math_floor. rewrite of_Z_whole by lia.
  destruct (whole_value false n) as (c & E & -> & HE & Hc & _); [lia|].
  destruct (0 <=? E) eqn:L; trivial.
  rewrite Hc, Z.div_mul by (apply Z.pow_nonzero; lia).
  apply Z.eqb_neq in N. now rewrite N.
Qed.

Lemma toString_whole (n : Z) :
  0 <= n < 2 ^ 53 ->
  JS.toString (JS.of_Z n) = Some (NilZero.string_of_int (Z.to_int n)).
Proof.
  intros Hn. destruct (Z.eq_dec n 0) as [->|N]. reflexivity.
  unfold JS.toString. rewrite of_Z_whole by lia.
  destruct (whole_value false n) as (c & E & -> & HE & Hc & _); [lia|].
  destruct (0 <=? E) eqn:L.
  - apply Z.leb_le in L. assert (E = 0) as -> by lia.
    cbn [Z.opp] in Hc. rewrite Z.pow_0_r, Z.mul_1_r in *. rewrite Hc.
    assert (n < 2 ^ 53) as T by lia.
    apply Z.ltb_lt in T. now rewrite T.
  - rewrite Hc, Z.mod_mul, Z.div_mul by (apply Z.pow_nonzero; lia).
    reflexivity.
Qed.

Lemma remainder_whole (a b : Z) :
  0 <= a < 2 ^ 53 -> 0 < b < 2 ^ 53 ->
  JS.remainder (JS.of_Z a) (JS.of_Z b) = JS.of_Z (a mod b).
Proof.
  intros Ha Hb. unfold JS.remainder. rewrite (of_Z_whole b) by lia.
  destruct (whole_value false b) as (cb & Eb & -> & HEb & Hcb & HdB); [lia|].
  destruct (Z.eq_dec a 0) as [->|Na].
  { rewrite of_Z_0, Z.mod_0_l by lia. reflexivity. }
  rewrite of_Z_whole by lia.
  destruct (whole_value false a) as (ca & Ea & -> & HEa & Hca & HdA); [lia|].
  cbv zeta. set (e := Z.min Ea Eb).
  rewrite Hca, Hcb, <- !Z.mul_assoc, <- !Z.pow_add_r by lia.
  replace (- Ea + (Ea - e)) with (- e) by lia.
  replace (- Eb + (Eb - e)) with (- e) by lia.
  assert (P : 0 < 2 ^ (- e)) by (apply Z.pow_pos_nonneg; lia).
  rewrite Z.mul_mod_distr_r by lia.
  pose proof (Z.mod_pos_bound a b ltac:(lia)) as Hm.
  destruct (Z.eq_dec (a mod b) 0) as [Z0|NZ].
  { rewrite Z0, Z.mul_0_l. apply Prim2SF_inj.
    rewrite Z_ldexp_spec, of_Z_0. reflexivity. }
  set (n := a mod b) in *.
  assert (Hn : n * 2 ^ (- e) < 2 ^ 53).
  { pose proof (Zdigits2_bounds a ltac:(lia)) as Da.
    pose proof (Zdigits2_bounds b ltac:(lia)) as Db.
    pose proof (Z.mod_le a b ltac:(lia) ltac:(lia)) as Hle. fold n in Hle.
    pose proof (Zdigits2_pos a ltac:(lia)). pose proof (Zdigits2_pos b ltac:(lia)).
    assert (n < 2 ^ (53 + e)).
    { unfold e. destruct (Z.min_spec Ea Eb) as [[_ ->]|[_ ->]].
      - replace (53 + Ea) with (Zdigits2 a) by lia. lia.
      - replace (53 + Eb) with (Zdigits2 b) by lia. lia. }
    replace (2 ^ 53) with (2 ^ (53 + e) * 2 ^ (- e)).
    2:{ rewrite <- Z.pow_add_r by lia. f_equal. lia. }
    apply Z.mul_lt_mono_pos_r; lia. }
  assert (Hr : 0 < n * 2 ^ (- e)) by (apply Z.mul_pos_pos; lia).
  apply Prim2SF_inj. rewrite Z_ldexp_spec, of_Z_whole by lia.
  rewrite (of_Z_whole n) by lia.
  destruct (whole_value false (n * 2 ^ (- e))) as (cr & Er & -> & HEr & Hcr & _); [lia|].
  cbn [SFldexp]. apply binary_round_whole. lia.
  right. split. lia. rewrite Hcr, <- Z.mul_assoc, <- Z.pow_add_r by lia.
  do 2 f_equal. lia.
Qed.

(** Rounding a whole number to the nearest integer changes nothing. *)
Lemma Math_round_whole (n : Z) :
  0 <= n < 2 ^ 53 -> JS.Math_round (JS.of_Z n) = JS.of_Z n.
Proof.
  intros Hn. destruct (Z.eq_dec n 0) as [->|N]. reflexivity.
  unfold JS.Math_round. rewrite of_Z_whole by lia.
  destruct (whole_value false n) as (c & E & -> & HE & Hc & _); [lia|].
  destruct (Z.leb_spec 0 E) as [L|L]; trivial.
  assert (P : 0 < 2 ^ (- E)) by (apply Z.pow_pos_nonneg; lia).
  assert (Q : (Zpos c * 2 + 2 ^ (- E)) / 2 ^ (1 - E) = n).
  { replace (1 - E) with (- E + 1) by lia.
    rewrite Z.pow_add_r, Z.pow_1_r by lia. rewrite Hc.
    replace (n * 2 ^ (- E) * 2 + 2 ^ (- E)) with ((2 * n + 1) * 2 ^ (- E)) by ring.
    rewrite (Z.mul_comm (2 ^ (- E)) 2), Z.div_mul_cancel_r by lia.
    symmetry. apply Z.div_unique with 1; lia. }
  rewrite Q. apply Z.eqb_neq in N. now rewrite N.
Qed.

Lemma shr_fexp_zero (e : Z) :
  shr_m (fst (shr_fexp prec emax 0 e loc_Exact)) = 0.
Proof.
  pose proof (shr_fexp_nonneg 0 e loc_Exact (Z.le_refl 0)) as L.
  unfold shr_fexp, shr in *. cbn [Zdigits2 shr_record_of_loc] in *.
  destruct (fexp prec emax (0 + e) - e) as [|p|p]; cbn [fst shr_m] in *; trivial.
  rewrite iter_shr_1_div in * by (cbn; lia). cbn [shr_m] in *.
  now rewrite Z.div_0_l by (apply Z.pow_nonzero; lia).
Qed.

Lemma binary_round_aux_floor (x : float) (M E k : Z) (l : SpecFloat.location) :
  Prim2SF x = binary_round_aux prec emax false M E l ->
  0 < M -> 0 <= k ->
  Z.max E (fexp prec emax (Zdigits2 M + E)) + 1 < 0 ->
  k * 2 ^ (- E) <= M ->
  M + 2 ^ (Z.max E (fexp prec emax (Zdigits2 M + E)) - E) < (k + 1) * 2 ^ (- E) ->
  JS.Math_floor x = JS.of_Z k.
Proof.
  intros Hx HM Hk He1 Hlo Hhi.
  unfold binary_round_aux in Hx.
  pose proof (shr_fexp_value M E l HM) as V1. cbv zeta in V1.
  pose proof (shr_fexp_exponent M E l) as X1.
  destruct (shr_fexp prec emax M E l) as [mrs1 e1]. cbn [fst snd] in V1, X1.
  rewrite <- X1 in He1, Hhi. rewrite fexp_eq in X1.
  destruct V1 as [V1 V2].
  set (m1 := shr_m mrs1) in *.
  pose proof (round_nearest_even_bounds m1 (loc_of_shr_record mrs1)) as R.
  set (M0 := round_nearest_even m1 (loc_of_shr_record mrs1)) in *.
  assert (P1 : 0 < 2 ^ (e1 - E)) by (apply Z.pow_pos_nonneg; lia).
  assert (Hm1 : k * 2 ^ (- e1) <= m1).
  { rewrite V2. apply Z.div_le_lower_bound. lia.
    rewrite Z.mul_comm, <- Z.mul_assoc, <- Z.pow_add_r by lia.
    replace (- e1 + (e1 - E)) with (- E) by lia. exact Hlo. }
  assert (Hm1' : m1 + 1 < (k + 1) * 2 ^ (- e1)).
  { assert (m1 < (k + 1) * 2 ^ (- e1) - 1); [|lia].
    rewrite V2. apply Z.div_lt_upper_bound. lia.
    rewrite Z.mul_sub_distr_l, Z.mul_1_r.
    rewrite (Z.mul_comm (2 ^ (e1 - E))), <- Z.mul_assoc, <- Z.pow_add_r by lia.
    replace (- e1 + (e1 - E)) with (- E) by lia. lia. }
  assert (Hm0 : 0 <= m1).
  { rewrite V2. apply Z.div_pos; lia. }
  assert (Dm1 : Zdigits2 m1 <= 53).
  { rewrite V2, Zdigits2_div_pow by lia. lia. }
  assert (P2 : 0 < 2 ^ (- e1)) by (apply Z.pow_pos_nonneg; lia).
  destruct (Z.eq_dec M0 0) as [Z0|NZ].
  { assert (k = 0) as -> by nia.
    rewrite Z0 in Hx.
    pose proof (shr_fexp_zero e1) as Hz.
    destruct (shr_fexp prec emax 0 e1 loc_Exact) as [mrs2 e2]. cbn [fst] in Hz.
    rewrite Hz in Hx. unfold JS.Math_floor. rewrite Hx.
    apply Prim2SF_inj. now rewrite Hx. }
  pose proof (shr_fexp_value M0 e1 loc_Exact ltac:(lia)) as W1. cbv zeta in W1.
  pose proof (shr_fexp_exponent M0 e1 loc_Exact) as Y1.
  destruct (shr_fexp prec emax M0 e1 loc_Exact) as [mrs2 e2]. cbn [fst snd] in W1, Y1.
  destruct W1 as [W1 W2].
  assert (He2 : e2 <= e1 + 1).
  { rewrite Y1, fexp_eq.
    pose proof (Zdigits2_le_succ m1 M0 Hm0 R) as D. lia. }
  set (M2 := shr_m mrs2) in *.
  assert (P3 : 0 < 2 ^ (e2 - e1)) by (apply Z.pow_pos_nonneg; lia).
  assert (P4 : 0 < 2 ^ (- e2)) by (apply Z.pow_pos_nonneg; lia).
  assert (Q : 2 ^ (- e2) * 2 ^ (e2 - e1) = 2 ^ (- e1)).
  { rewrite <- Z.pow_add_r by lia. f_equal. lia. }
  assert (Lo : k * 2 ^ (- e2) <= M2).
  { rewrite W2. apply Z.div_le_lower_bound. lia.
    rewrite Z.mul_comm, <- Z.mul_assoc, Q. lia. }
  assert (Hi : M2 < (k + 1) * 2 ^ (- e2)).
  { rewrite W2. apply Z.div_lt_upper_bound. lia.
    rewrite (Z.mul_comm (2 ^ (e2 - e1))), <- Z.mul_assoc, Q. lia. }
  clearbody M2.
  destruct M2 as [|p|p]; try lia.
  - assert (k = 0) as -> by nia.
    unfold JS.Math_floor. rewrite Hx. apply Prim2SF_inj. now rewrite Hx.
  - assert (L : (e2 <=? emax - prec) = true).
    { apply Z.leb_le. change (emax - prec) with 971. lia. }
    rewrite L in Hx. unfold JS.Math_floor. rewrite Hx.
    assert (L0 : (0 <=? e2) = false) by (apply Z.leb_gt; lia).
    rewrite L0.
    assert (Zpos p / 2 ^ (- e2) = k) as ->.
    { symmetry. apply Z.div_unique with (Zpos p - k * 2 ^ (- e2)); lia. }
    destruct (Z.eqb_spec k 0) as [->|]; reflexivity.
Qed.

Lemma floor_div_whole (a b : Z) :
  0 <= a < 2 ^ 51 -> 0 < b < 2 ^ 53 ->
  JS.Math_floor (JS.of_Z a / JS.of_Z b)%float = JS.of_Z (a / b).
Proof.
  intros Ha Hb.
  destruct (Z.eq_dec a 0) as [->|Na].
  { rewrite Z.div_0_l by lia.
    assert ((JS.of_Z 0 / JS.of_Z b)%float = 0%float) as ->; [|reflexivity].
    apply Prim2SF_inj. rewrite div_spec, of_Z_0, of_Z_whole by lia. reflexivity. }
  assert (Ha' : a < 2 ^ 53) by (apply Z.lt_trans with (2 ^ 51); [lia|reflexivity]).
  pose proof (div_spec (JS.of_Z a) (JS.of_Z b)) as D.
  rewrite !of_Z_whole in D by lia.
  destruct (whole_bounded a ltac:(lia)) as (Hca & Hda & _).
  destruct (whole_bounded b ltac:(lia)) as (Hcb & Hdb & _).
  unfold whole, SF64div, SFdiv, SFdiv_core_binary in D. cbn [xorb] in D.
  rewrite Hca, Hcb in D.
  rewrite !Zdigits2_mul_pow2 in D by lia.
  set (da := Zdigits2 a) in *. set (db := Zdigits2 b) in *.
  change IntDef.Z.min with Z.min in D. change IntDef.Z.shiftl with Z.shiftl in D.
  change IntDef.Z.div_eucl with Z.div_eucl in D.
  rewrite fexp_eq in D.
  replace (Z.min (Z.max (da + (53 - da) + (da - 53) - (db + (53 - db) + (db - 53)) - 53)
                        (-1074)) (da - 53 - (db - 53)))
    with (da - db - 53) in D by lia.
  replace (da - 53 - (db - 53) - (da - db - 53)) with 53 in D by lia.
  cbv iota in D. rewrite Z.shiftl_mul_pow2 in D by lia.
  set (X := a * 2 ^ (53 - da) * 2 ^ 53) in *.
  set (Y := b * 2 ^ (53 - db)) in *.
  assert (DE : Z.div_eucl X Y = (X / Y, X mod Y)).
  { unfold Z.div, Z.modulo. now destruct (Z.div_eucl X Y). }
  rewrite DE in D.
  assert (PY : 0 < Y) by (apply Z.mul_pos_pos; [lia | apply Z.pow_pos_nonneg; lia]).
  pose proof (Zdigits2_bounds a ltac:(lia)) as Ba. fold da in Ba.
  pose proof (Zdigits2_bounds b ltac:(lia)) as Bb. fold db in Bb.
  assert (da <= 51) as Da51 by (apply Zdigits2_lt_pow; lia).
  set (k := a / b).
  pose proof (Z.div_mod a b ltac:(lia)) as DM. fold k in DM.
  pose proof (Z.mod_pos_bound a b ltac:(lia)) as MB.
  assert (Hk : 0 <= k) by (apply Z.div_pos; lia).
  set (E := da - db - 53) in *.
  assert (XE : X = a * 2 ^ (53 - db) * 2 ^ (- E)).
  { unfold X, E. rewrite <- !Z.mul_assoc, <- !Z.pow_add_r by lia.
    do 2 f_equal. lia. }
  assert (PE : 0 < 2 ^ (- E)) by (apply Z.pow_pos_nonneg; lia).
  assert (PB : 0 < 2 ^ (53 - db)) by (apply Z.pow_pos_nonneg; lia).
  assert (Qlo : k * 2 ^ (- E) <= X / Y).
  { apply Z.div_le_lower_bound. lia. rewrite XE. unfold Y. nia. }
  assert (Big : 2 * b < 2 ^ (- E)).
  { apply Z.lt_le_trans with (2 ^ (db + 1)).
    - rewrite Z.pow_add_r, Z.pow_1_r by lia. lia.
    - apply Z.pow_le_mono_r; lia. }
  assert (Qhi : X / Y + 2 < (k + 1) * 2 ^ (- E)).
  { assert (X / Y < (k + 1) * 2 ^ (- E) - 2); [|lia].
    apply Z.div_lt_upper_bound. lia. rewrite XE. unfold Y. nia. }
  assert (Q52 : 2 ^ 52 <= X / Y).
  { apply Z.div_le_lower_bound. lia. unfold X, Y.
    assert (b * 2 ^ (53 - db) < 2 ^ 53).
    { replace (2 ^ 53) with (2 ^ db * 2 ^ (53 - db)).
      2:{ rewrite <- Z.pow_add_r by lia. f_equal. lia. }
      apply Z.mul_lt_mono_pos_r; lia. }
    assert (2 ^ 52 <= a * 2 ^ (53 - da)).
    { replace (2 ^ 52) with (2 ^ (da - 1) * 2 ^ (53 - da)).
      2:{ rewrite <- Z.pow_add_r by lia. f_equal. lia. }
      apply Z.mul_le_mono_nonneg_r; lia. }
    assert (0 < 2 ^ 52) by reflexivity. assert (0 < 2 ^ 53) by reflexivity.
    nia. }
  assert (Q54 : X / Y < 2 ^ 54).
  { apply Z.div_lt_upper_bound. lia. unfold X, Y.
    assert (2 ^ 52 <= b * 2 ^ (53 - db)).
    { replace (2 ^ 52) with (2 ^ (db - 1) * 2 ^ (53 - db)).
      2:{ rewrite <- Z.pow_add_r by lia. f_equal. lia. }
      apply Z.mul_le_mono_nonneg_r; lia. }
    assert (a * 2 ^ (53 - da) < 2 ^ 53).
    { replace (2 ^ 53) with (2 ^ da * 2 ^ (53 - da)).
      2:{ rewrite <- Z.pow_add_r by lia. f_equal. lia. }
      apply Z.mul_lt_mono_pos_r; [apply Z.pow_pos_nonneg|]; lia. }
    change (2 ^ 54) with (2 ^ 52 * 4). change (2 ^ 53) with (2 ^ 52 * 2) in *.
    assert (0 < 2 ^ 52) by reflexivity. nia. }
  assert (DQ : 53 <= Zdigits2 (X / Y) <= 54).
  { split. apply (Zdigits2_ge_pow (X / Y) 52); lia.
    apply Zdigits2_lt_pow; lia. }
  assert (E1 : E <= Z.max E (fexp prec emax (Zdigits2 (X / Y) + E)) <= E + 1).
  { rewrite fexp_eq. lia. }
  apply (binary_round_aux_floor _ (X / Y) E k (new_location Y (X mod Y))); trivial.
  - lia.
  - lia.
  - assert (2 ^ (Z.max E (fexp prec emax (Zdigits2 (X / Y) + E)) - E) <= 2); [|lia].
    change 2 with (2 ^ 1) at 2. apply Z.pow_le_mono_r; lia.
Qed.
End FloatExact.

(** ** Signs, and a few identities *)

Section FloatSign.

Lemma add_nonneg (x t : float) :
  (0 <=? x) = true -> (0 <=? t) = true -> (0 <=? x + t) = true.
Proof.
  intros Hx Ht.
  destruct (0 <? x) eqn:P.
  - apply leb_trans with x; trivial. now apply add_nonneg_ge.
  - rewrite leb_zero_nonneg in *. rewrite add_spec.
    assert (Q : ~ match Prim2SF x with
                  | S754_infinity false | S754_finite false _ _ => True
                  | _ => False
                  end).
    { intros Q. apply ltb_zero_pos in Q. congruence. }
    destruct (Prim2SF x) as [sx|[]| |[] mx ex]; try discriminate Hx;
      try (now elim Q).
    destruct (Prim2SF t) as [st|[]| |[] mt et]; try discriminate Ht;
      try reflexivity.
    destruct sx, st; reflexivity.
Qed.

Lemma div_nonneg (x y : float) :
  (0 <=? x) = true -> (0 <? y) = true -> is_finite y = true ->
  (0 <=? x / y) = true.
Proof.
  rewrite !leb_zero_nonneg, ltb_zero_pos, is_finite_spec, div_spec.
  unfold SF64div, SFdiv.
  destruct (Prim2SF y) as [sy|[]| |[] my ey]; try contradiction; try discriminate.
  intros Hx _ _.
  destruct (Prim2SF x) as [sx|[]| |[] mx ex]; try discriminate Hx; try reflexivity.
  cbn [xorb].
  destruct (SFdiv_core_binary prec emax (Zpos mx) ex (Zpos my) ey) as [[mz ez] lz] eqn:D.
  apply binary_round_aux_sign.
  unfold SFdiv_core_binary in D.
  match type of D with
  | (let '(q, r) := IntDef.Z.div_eucl ?m' ?m2 in _) = _ =>
      assert (H0 : (0 <= m')%Z);
      [| change IntDef.Z.div_eucl with Z.div_eucl in D;
         pose proof (Z.div_pos m' m2 H0 ltac:(lia)) as Q;
         unfold Z.div in Q; destruct (Z.div_eucl m' m2) as [q r];
         injection D as <- _ _; exact Q ]
  end.
  match goal with
  | |- (0 <= match ?s with _ => _ end)%Z => destruct s
  end; try lia.
  change IntDef.Z.shiftl with Z.shiftl. apply Z.shiftl_nonneg. lia.
Qed.

Lemma mul_pos_nonneg (a b : float) :
  (0 <? a) = true -> is_finite a = true -> (0 <=? b) = true ->
  (0 <=? a * b) = true.
Proof.
  rewrite !leb_zero_nonneg, ltb_zero_pos, is_finite_spec, mul_spec.
  unfold SF64mul, SFmul.
  destruct (Prim2SF a) as [sa|[]| |[] ma ea]; try contradiction; try discriminate.
  intros _ _ Hb.
  destruct (Prim2SF b) as [sb|[]| |[] mb eb]; try discriminate Hb; try reflexivity.
  cbn [xorb]. apply binary_round_aux_sign. lia.
Qed.

Lemma of_Z_nonneg (n : Z) : (0 <= n)%Z -> (0 <=? JS.of_Z n) = true.
Proof.
  intros Hn. destruct n as [|p|p]; try lia. reflexivity.
  unfold JS.of_Z. rewrite leb_zero_nonneg, of_uint63_spec.
  pose proof (Uint63.to_Z_bounded (Uint63.of_Z (Zpos p))) as B.
  destruct (Uint63.to_Z (Uint63.of_Z (Zpos p))) as [|q|q]; try lia. reflexivity.
  cbn [binary_normalize]. unfold binary_round.
  destruct (shl_align q 0 _) as [mz ez]. apply binary_round_aux_sign. lia.
Qed.

Lemma Math_round_nonneg (x : float) :
  (0 <=? x) = true -> (0 <=? JS.Math_round x) = true.
Proof.
  intros Hx. pose proof Hx as Hx'. rewrite leb_zero_nonneg in Hx'.
  unfold JS.Math_round.
  destruct (Prim2SF x) as [sx|[]| |[] m e] eqn:E; try discriminate Hx'; trivial.
  destruct (Z.leb_spec 0 e) as [He|He]; trivial.
  match goal with
  | |- context [((?a / ?b) =? 0)%Z] =>
      assert (Hn : (0 <= a / b)%Z);
      [ apply Z.div_pos;
        [ assert (0 < 2 ^ (- e))%Z by (apply Z.pow_pos_nonneg; lia); lia
        | apply Z.pow_pos_nonneg; lia ]
      | destruct (a / b =? 0)%Z; [reflexivity | now apply of_Z_nonneg] ]
  end.
Qed.

Lemma leb_ltb_trans (x y z : float) :
  (x <=? y) = true -> (y <? z) = true -> (x <? z) = true.
Proof.
  intros H1 H2.
  destruct (leb_not_nan _ _ H1) as [Nx Ny], (ltb_not_nan _ _ H2) as [_ Nz].
  apply leb_iff in H1; trivial. apply ltb_iff in H2; trivial. apply ltb_iff; trivial.
  revert H1 H2.
  destruct (fkey (Prim2SF x)) as [[? ?] ?], (fkey (Prim2SF y)) as [[? ?] ?],
    (fkey (Prim2SF z)) as [[? ?] ?]. cbn. lia.
Qed.

(** Multiplying by one is exact for every value. *)
Lemma mul_one (x : float) : x * 1 = x.
Proof.
  apply Prim2SF_inj. rewrite mul_spec.
  pose proof (Prim2SF_valid x) as V.
  destruct (Prim2SF x) as [s|s| |s m e] eqn:E.
  - cbn. now rewrite xorb_false_r.
  - cbn. now rewrite xorb_false_r.
  - reflexivity.
  - cbn [SpecFloat.valid_binary] in V. now apply SFmul_one.
Qed.

Lemma Math_max_whole_0 (k : Z) :
  (0 <= k < 2 ^ 53)%Z -> JS.Math_max (JS.of_Z k) 0 = JS.of_Z k.
Proof.
  intros Hk. destruct (Z.eq_dec k 0) as [->|N]. reflexivity.
  unfold JS.Math_max. rewrite of_Z_not_nan. cbn [orb is_nan].
  change (is_nan 0) with false. cbn [orb].
  assert (L : (JS.of_Z k <? 0) = false).
  { rewrite FloatAxioms.ltb_spec, of_Z_whole by lia. reflexivity. }
  assert (G : (0 <? JS.of_Z k) = true).
  { apply ltb_zero_pos. rewrite of_Z_whole by lia. exact I. }
  now rewrite L, G.
Qed.

End FloatSign.

(** ** Rounding to one decimal *)

Section Tenths.
Local Open Scope Z_scope.

Lemma toFixed1_tenths (z : float) :
  (2 <=? z)%float = true -> (z <=? 11)%float = true ->
  exists n, 20 <= n <= 110 /\ JS.toFixed1 z = (JS.of_Z n / 10)%float.
Proof.
  intros H2 H11.
  destruct (leb_not_nan _ _ H2) as [_ Nz].
  pose proof (Prim2SF_valid z) as V.
  assert (Big : (0x1p49 <=? abs z)%float = false).
  { destruct (0x1p49 <=? abs z)%float eqn:B; trivial. exfalso.
    apply leb_iff in B; [|reflexivity|].
    2:{ apply is_nan_false. rewrite abs_spec. apply is_nan_false in Nz.
        unfold not_nan in *. destruct (Prim2SF z); cbn; congruence. }
    apply leb_iff in H11; trivial. apply leb_iff in H2; trivial.
    rewrite abs_spec in B. revert B H2 H11.
    change (fkey (Prim2SF 0x1p49)) with (1, -3, 4503599627370496).
    change (fkey (Prim2SF 2)) with (1, -51, 4503599627370496).
    change (fkey (Prim2SF 11)) with (1, -49, 6192449487634432).
    destruct (Prim2SF z) as [s|[]| |[] m e]; cbn; lia. }
  apply leb_iff in H11; trivial. apply leb_iff in H2; trivial.
  unfold JS.toFixed1. rewrite Big. revert H2 H11 V.
  change (fkey (Prim2SF 2)) with (1, -51, 4503599627370496).
  change (fkey (Prim2SF 11)) with (1, -49, 6192449487634432).
  destruct (Prim2SF z) as [s|[]| |[] m e]; cbn [fkey key_le]; try lia.
  intros H2 H11 V. cbn [SpecFloat.valid_binary] in V.
  apply bounded_facts in V as [Hc _].
  pose proof (Zdigits2_bounds (Zpos m) ltac:(lia)) as B. cbn [Zdigits2] in B.
  assert (D : Zpos (digits2_pos m) = 53) by lia. rewrite D in B.
  change (2 ^ (53 - 1)) with 4503599627370496 in B.
  change (2 ^ 53) with 9007199254740992 in B.
  exists (JS.tenths m e). split; trivial. clear Big Nz.
  assert (Ecases : e = -51 \/ e = -50 \/ e = -49) by lia.
  clear Hc D.
  destruct Ecases as [->|[->| ->]].
  - change (JS.tenths m (-51))
      with ((20 * Zpos m + 2251799813685248) / 4503599627370496).
    split; [apply Z.div_le_lower_bound | apply Z.div_le_upper_bound]; lia.
  - change (JS.tenths m (-50))
      with ((20 * Zpos m + 1125899906842624) / 2251799813685248).
    split; [apply Z.div_le_lower_bound | apply Z.div_le_upper_bound]; lia.
  - change (JS.tenths m (-49))
      with ((20 * Zpos m + 562949953421312) / 1125899906842624).
    split; [apply Z.div_le_lower_bound; lia|].
    apply Z.lt_succ_r, Z.div_lt_upper_bound; lia.
Qed.

End Tenths.

(** ** Quotients of at least one *)

Section FloatQuotient.
Local Open Scope Z_scope.

Lemma key_le_trans (a b c : Z * Z * Z) : key_le a b -> key_le b c -> key_le a c.
Proof.
  destruct a as [[? ?] ?], b as [[? ?] ?], c as [[? ?] ?]. cbn. lia.
Qed.

(** The quotient of a value by a positive value that is not above it is at
    least one. *)
Lemma div_ge_one (p g : float) :
  (0 <? g)%float = true -> is_finite g = true -> (g <=? p)%float = true ->
  (1 <=? p / g)%float = true.
Proof.
  intros Hg Fg Hgp.
  destruct (leb_not_nan _ _ Hgp) as [Ng Np].
  assert (Fz : finite_nonzero (Prim2SF g)).
  { apply ltb_zero_pos in Hg. rewrite is_finite_spec in Fg. unfold finite_nonzero.
    destruct (Prim2SF g) as [s|[]| |[] m e]; try contradiction; try discriminate;
      reflexivity. }
  pose proof (div_not_nan p g Np Fz) as Nq.
  apply leb_iff; trivial. apply leb_iff in Hgp; trivial.
  rewrite div_spec.
  pose proof (Prim2SF_valid p) as Vp. pose proof (Prim2SF_valid g) as Vg.
  apply ltb_zero_pos in Hg. rewrite is_finite_spec in Fg.
  change (fkey (Prim2SF 1)) with (1, -52, 4503599627370496).
  destruct (Prim2SF g) as [sg|[]| |[] mg eg]; try contradiction; try discriminate.
  destruct (Prim2SF p) as [sp|[]| |[] mp ep]; cbn [fkey key_le] in Hgp; try lia.
  { cbn. lia. }
  cbn [SpecFloat.valid_binary] in Vp, Vg.
  apply bounded_facts in Vp as [Cp _]. apply bounded_facts in Vg as [Cg _].
  unfold SF64div, SFdiv, SFdiv_core_binary. cbn [xorb].
  change IntDef.Z.min with Z.min. change IntDef.Z.shiftl with Z.shiftl.
  change IntDef.Z.div_eucl with Z.div_eucl.
  cbn [Zdigits2].
  set (d1 := Zpos (digits2_pos mp)) in *. set (d2 := Zpos (digits2_pos mg)) in *.
  pose proof (Zdigits2_bounds (Zpos mp) ltac:(lia)) as Bp. cbn [Zdigits2] in Bp. fold d1 in Bp.
  pose proof (Zdigits2_bounds (Zpos mg) ltac:(lia)) as Bg. cbn [Zdigits2] in Bg. fold d2 in Bg.
  assert (D1 : 1 <= d1 <= 53) by lia. assert (D2 : 1 <= d2 <= 53) by lia.
  rewrite fexp_eq.
  set (e' := Z.max (d1 + ep - (d2 + eg) - 53) (-1074)).
  assert (Hmin : Z.min e' (ep - eg) = e') by lia.
  rewrite Hmin.
  assert (Hs : 53 + d2 - d1 <= ep - eg - e') by lia.
  destruct (ep - eg - e') as [|s|s] eqn:Es; try lia.
  rewrite Z.shiftl_mul_pow2 by lia.
  set (X := Zpos mp * 2 ^ Zpos s).
  assert (DE : Z.div_eucl X (Zpos mg) = (X / Zpos mg, X mod Zpos mg)).
  { unfold Z.div, Z.modulo. now destruct (Z.div_eucl X (Zpos mg)). }
  rewrite DE.
  assert (Q52 : 2 ^ 52 <= X / Zpos mg).
  { apply Z.div_le_lower_bound. lia. unfold X.
    assert (2 ^ (52 + d2) <= 2 ^ (d1 - 1 + Zpos s)) by (apply Z.pow_le_mono_r; lia).
    rewrite !Z.pow_add_r in H by lia.
    assert (0 < 2 ^ Zpos s) by (apply Z.pow_pos_nonneg; lia).
    assert (0 < 2 ^ 52) by reflexivity.
    nia. }
  assert (M : Zpos mg <= Zpos mp * 2 ^ (ep - eg)).
  { destruct (Z.eq_dec eg ep) as [->|Ne].
    - rewrite Z.sub_diag, Z.mul_1_r. lia.
    - assert (d1 = 53) by lia.
      assert (2 ^ 1 <= 2 ^ (ep - eg)) by (apply Z.pow_le_mono_r; lia).
      assert (2 ^ d2 <= 2 ^ 53) by (apply Z.pow_le_mono_r; lia).
      replace (d1 - 1) with 52 in Bp by lia.
      change (2 ^ 53) with (2 ^ 52 * 2) in *. change (2 ^ 1) with 2 in *.
      assert (0 < 2 ^ 52) by reflexivity. nia. }
  destruct (Z_le_gt_dec e' (-52)) as [A|B].
  - apply (binary_round_aux_ge _ _ _ 4503599627370496 (-52)); trivial.
    + lia.
    + change (Zpos 4503599627370496) with (2 ^ 52).
      rewrite <- Z.pow_add_r by lia. replace (52 + (-52 - e')) with (- e') by lia.
      apply Z.div_le_lower_bound. lia. unfold X.
      replace (Zpos s) with (ep - eg + - e') by lia.
      rewrite Z.pow_add_r by lia.
      assert (0 < 2 ^ (- e')) by (apply Z.pow_pos_nonneg; lia). nia.
  - apply key_le_trans with (fkey (S754_finite false 4503599627370496 e')).
    + cbn. lia.
    + apply binary_round_aux_ge; trivial.
      * lia.
      * lia.
      * rewrite fexp_eq. cbn [digits2_pos]. lia.
      * rewrite Z.sub_diag, Z.mul_1_r. exact Q52.
Qed.

Lemma mul_100_ge (x : float) :
  (1 <=? x)%float = true -> (100 <=? x * 100)%float = true.
Proof.
  intros H. destruct (leb_not_nan _ _ H) as [_ Nx].
  assert (Nq : is_nan (x * 100)%float = false) by (apply mul_not_nan; trivial; reflexivity).
  apply leb_iff; trivial. apply leb_iff in H; trivial.
  rewrite mul_spec. pose proof (Prim2SF_valid x) as V.
  change (fkey (Prim2SF 1)) with (1, -52, 4503599627370496) in H.
  change (Prim2SF 100) with (S754_finite false 7036874417766400 (-46)).
  destruct (Prim2SF x) as [s|[]| |[] m e]; cbn [fkey key_le] in H; try lia.
  { cbn. lia. }
  cbn [SpecFloat.valid_binary] in V. apply bounded_facts in V as [C _].
  pose proof (Zdigits2_bounds (Zpos m) ltac:(lia)) as B. cbn [Zdigits2] in B.
  assert (D : Zpos (digits2_pos m) = 53) by lia. rewrite D in B.
  change (2 ^ (53 - 1)) with (2 ^ 52) in B.
  unfold SF64mul, SFmul. cbn [xorb]. rewrite Pos2Z.inj_mul.
  assert (P52 : 0 < 2 ^ 52) by reflexivity.
  destruct (Z_le_gt_dec e 0) as [A|G].
  - apply binary_round_aux_ge; trivial.
    + lia.
    + replace (-46 - (e + -46)) with (- e) by lia.
      assert (2 ^ (- e) <= 2 ^ 52) by (apply Z.pow_le_mono_r; lia). nia.
  - apply key_le_trans with (fkey (S754_finite false 4503599627370496 (e + -46 + 52))).
    + cbn. lia.
    + apply binary_round_aux_ge; trivial.
      * lia.
      * rewrite fexp_eq. cbn [digits2_pos]. lia.
      * replace (e + -46 + 52 - (e + -46)) with 52 by lia.
        change (Zpos 4503599627370496) with (2 ^ 52).
        change (Zpos 7036874417766400) with (100 * 2 ^ 46).
        change (2 ^ 52) with (64 * 2 ^ 46) in *. nia.
Qed.
End FloatQuotient.

(** [Math.min] with a cap that the value has reached. *)
Lemma Math_min_full (y : float) :
  (100 <=? y) = true -> JS.Math_min y 100 = 100.
Proof.
  intros H. destruct (leb_not_nan _ _ H) as [_ Ny].
  unfold JS.Math_min. rewrite Ny. cbn [orb]. change (is_nan 100) with false. cbn iota.
  pose proof (leb_negb_ltb y 100 Ny eq_refl) as L. rewrite H in L.
  destruct (y <? 100); try discriminate L.
  destruct (100 <? y) eqn:G; trivial.
  assert (S : get_sign y = false); [|now rewrite S].
  unfold get_sign, is_zero.
  apply leb_iff in H; trivial.
  change (fkey (Prim2SF 100)) with (1, -46, 7036874417766400)%Z in H.
  assert (Z0 : (y =? 0) = false).
  { rewrite FloatAxioms.eqb_spec. change (Prim2SF 0) with (S754_zero false).
    destruct (Prim2SF y) as [s|[]| |[] m e]; cbn in *; trivial; lia. }
  change PrimFloat.zero with 0. rewrite Z0.
  rewrite FloatAxioms.ltb_spec. change (Prim2SF 0) with (S754_zero false).
  destruct (Prim2SF y) as [s|[]| |[] m e]; cbn in *; trivial; lia.
Qed.

(** * Properties of the page *)

(** ** Exposure calculator *)

Lemma zero_minutes : 0 / 60 = 0.
Proof. reflexivity. Qed.

(** With no time elapsed, the gain compares equal to zero exactly when the
    effective UV is a finite number. *)
Lemma zero_gain_iff_finite (f : float) :
  (f * 0 * 5 =? 0) = is_finite f.
Proof.
  rewrite is_finite_spec, FloatAxioms.eqb_spec, !mul_spec.
  change (Prim2SF 0) with (S754_zero false).
  change (Prim2SF 5) with (S754_finite false 5629499534213120 (-50)).
  destruct (Prim2SF f) as [s|s| |s m e]; reflexivity.
Qed.

Lemma clothing_unit_factor (c : ClothingPreset) :
  unit_factor (attenuation (clothingPresets c)).
Proof. destruct c; [left|right..]; reflexivity. Qed.

Lemma sunscreen_unit_factor (s : SunscreenPreset) :
  unit_factor (attenuation (sunscreenPresets s)).
Proof. destruct s; [left|right..]; reflexivity. Qed.

Lemma effectiveUv_finite (seconds baseUv : float) (c : ClothingPreset) (s : SunscreenPreset) :
  is_finite (effectiveUv (calculateExposureGain seconds baseUv c s)) = is_finite baseUv.
Proof.
  unfold calculateExposureGain. cbn [effectiveUv].
  rewrite (mul_unit_factor_finite _ _ (sunscreen_unit_factor s)).
  apply (mul_unit_factor_finite _ _ (clothing_unit_factor c)).
Qed.

(** On the range of [deriveBaseUv], the UV indices [n / 10] up to 11, no
    elapsed time gives a gain of [+0], whatever the presets. *)
Lemma zero_gain_table :
  forallb (fun n =>
    forallb (fun c =>
      forallb (fun s =>
        Leibniz.eqb (vitaminGain (calculateExposureGain 0 (JS.of_Z n / 10) c s)) 0)
        [none; spf15; spf30; spf50])
      [minimal; light; moderate; covered])
    (map Z.of_nat (seq 0 111)) = true.
Proof. vm_compute. reflexivity. Qed.

Lemma zero_gain_on_range (n : Z) (c : ClothingPreset) (s : SunscreenPreset) :
  (0 <= n <= 110)%Z ->
  vitaminGain (calculateExposureGain 0 (JS.of_Z n / 10) c s) = 0.
Proof.
  intros H. pose proof zero_gain_table as T.
  rewrite forallb_forall in T. specialize (T n (In_Z_range 111 n ltac:(lia))).
  rewrite forallb_forall in T.
  assert (Hc : In c [minimal; light; moderate; covered])
    by (destruct c; cbn; tauto).
  specialize (T c Hc). rewrite forallb_forall in T.
  assert (Hs : In s [none; spf15; spf30; spf50])
    by (destruct s; cbn; tauto).
  now apply FloatAxioms.Leibniz.eqb_spec, T.
Qed.

(** C1, as the code has it: [calculateExposureGain] returns
    [effectiveUv = baseUv * clothingAttenuation * sunscreenAttenuation] and
    [vitaminGain = effectiveUv * (elapsedSeconds / 60) * 5] for every input;
    with [elapsedSeconds = 0] the gain is zero ([=== 0], of either sign)
    for every finite [baseUv], the effective UV being finite exactly when
    [baseUv] is, and the gain is NaN when [baseUv] is infinite or NaN; on
    the range of [deriveBaseUv], the UV indices [n / 10] from 0 to 11, it is
    [+0]; and [calculateExposureGain(60, 10, 'covered', 'spf50')] is exactly
    [{ effectiveUv: 0.8, vitaminGain: 4 }]. *)
Theorem calculateExposureGain_formula
    (seconds baseUv : float) (c : ClothingPreset) (s : SunscreenPreset) :
  let r := calculateExposureGain seconds baseUv c s in
  let r0 := calculateExposureGain 0 baseUv c s in
  effectiveUv r
    = baseUv * attenuation (clothingPresets c) * attenuation (sunscreenPresets s)
  /\ vitaminGain r = effectiveUv r * (seconds / 60) * 5
  /\ is_finite (effectiveUv r) = is_finite baseUv
  /\ (vitaminGain r0 =? 0) = is_finite baseUv
  /\ (is_finite baseUv = false -> vitaminGain r0 = nan)
  /\ (forall n, (0 <= n <= 110)%Z ->
        vitaminGain (calculateExposureGain 0 (JS.of_Z n / 10) c s) = 0)
  /\ calculateExposureGain 60 10 covered spf50
     = {| effectiveUv := 0.8; vitaminGain := 4 |}.
Proof.
  cbv zeta.
  split; [reflexivity|]. split; [reflexivity|].
  split; [apply effectiveUv_finite|].
  split; [|split; [|split]].
  - rewrite <- (effectiveUv_finite 0 baseUv c s).
    unfold calculateExposureGain. cbn [vitaminGain effectiveUv].
    rewrite zero_minutes. apply zero_gain_iff_finite.
  - rewrite <- (effectiveUv_finite 0 baseUv c s).
    unfold calculateExposureGain. cbn [vitaminGain effectiveUv].
    rewrite zero_minutes.
    set (f := baseUv * _ * _). rewrite is_finite_spec. intros H.
    apply Prim2SF_inj. rewrite !mul_spec.
    change (Prim2SF 0) with (S754_zero false).
    change (Prim2SF 5) with (S754_finite false 5629499534213120 (-50)).
    change (Prim2SF nan) with S754_nan.
    destruct (Prim2SF f) as [s'|s'| |s' m e]; try discriminate; reflexivity.
  - intros n Hn. now apply zero_gain_on_range.
  - reflexivity.
Qed.

(** C1 at ten UV, mostly covered, SPF 50, with no time elapsed. *)
Lemma calculateExposureGain_formula_witness :
  (vitaminGain (calculateExposureGain 0 10 covered spf50) =? 0) = true
  /\ vitaminGain (calculateExposureGain 0 (JS.of_Z 65 / 10) covered spf50) = 0.
Proof.
  destruct (calculateExposureGain_formula 60 10 covered spf50)
    as (_ & _ & _ & H & _ & R & _).
  split; [exact H | apply R; lia].
Defined.

(** C1 fails as stated: with an infinite UV index and no time elapsed the
    gain is NaN, which is not zero. *)
Lemma calculateExposureGain_zero_seconds_nan :
  let r := calculateExposureGain 0 infinity minimal none in
  effectiveUv r = infinity /\ vitaminGain r = nan /\ (vitaminGain r =? 0) = false.
Proof. repeat split. Qed.

(** ** Risk label *)

(** C5, as the code has it: for every Number [uv], the label is Low iff
    [uv < 3], Moderate iff [3 <= uv < 6], High iff [6 <= uv < 8], Very High
    iff [8 <= uv < 11], and Extreme iff [uv >= 11] or [uv] is NaN (every
    comparison with NaN is false, so NaN falls through to the last branch);
    [3.0] is Moderate, [10.9] is Very High and [11.0] is Extreme. *)
Theorem determineRiskLabel_thresholds (uv : float) :
  (determineRiskLabel uv = Low <-> (uv <? 3) = true)
  /\ (determineRiskLabel uv = Moderate <-> (3 <=? uv) = true /\ (uv <? 6) = true)
  /\ (determineRiskLabel uv = High <-> (6 <=? uv) = true /\ (uv <? 8) = true)
  /\ (determineRiskLabel uv = VeryHigh <-> (8 <=? uv) = true /\ (uv <? 11) = true)
  /\ (determineRiskLabel uv = Extreme <-> (11 <=? uv) = true \/ is_nan uv = true)
  /\ determineRiskLabel 2.9 = Low
  /\ determineRiskLabel 3.0 = Moderate
  /\ determineRiskLabel 5.9 = Moderate
  /\ determineRiskLabel 7.9 = High
  /\ determineRiskLabel 10.9 = VeryHigh
  /\ determineRiskLabel 11.0 = Extreme.
Proof.
  unfold determineRiskLabel.
  destruct (is_nan uv) eqn:N.
  - rewrite !(ltb_nan_l uv _ N), !(leb_nan_r _ uv N).
    repeat split; try reflexivity; try discriminate; try tauto;
      intros []; discriminate.
  - rewrite (leb_negb_ltb uv 3 N eq_refl), (leb_negb_ltb uv 6 N eq_refl),
      (leb_negb_ltb uv 8 N eq_refl), (leb_negb_ltb uv 11 N eq_refl).
    pose proof (ltb_leb_mono uv 3 6 eq_refl) as H36.
    pose proof (ltb_leb_mono uv 6 8 eq_refl) as H68.
    pose proof (ltb_leb_mono uv 8 11 eq_refl) as H811.
    destruct (uv <? 3), (uv <? 6), (uv <? 8), (uv <? 11); cbn;
      repeat split; intros; try reflexivity; try discriminate;
      intuition discriminate.
Qed.

(** C5 fails as stated: NaN is labelled Extreme although [NaN >= 11] is
    false. *)
Lemma determineRiskLabel_nan_is_Extreme :
  determineRiskLabel nan = Extreme /\ (11 <=? nan) = false.
Proof. split; reflexivity. Qed.

(** ** Base UV index *)

Lemma reduce_charCodes_sum (s : string) (acc : Z) :
  reduce_charCodes s acc = (acc + Spec.charCodeSum s)%Z.
Proof.
  revert acc. induction s as [|c rest IH]; intros acc; cbn.
  - lia.
  - rewrite IH. lia.
Qed.

Lemma deriveBaseUv_unfold (sin : float -> float) (month : Z) (location : string) :
  deriveBaseUv sin month location
  = Spec.baseUvOfSum sin month (Spec.charCodeSum (toLowerCase location)).
Proof.
  unfold deriveBaseUv, Spec.baseUvOfSum, Spec.scaled, seasonal_arg.
  now rewrite reduce_charCodes_sum, Z.add_0_l.
Qed.

Lemma scaled_table :
  forallb (fun r => (2 <=? Spec.scaled r) && (Spec.scaled r <=? 8))
    (map Z.of_nat (seq 0 700)) = true.
Proof. vm_compute. reflexivity. Qed.

Lemma scaled_range (sum : Z) :
  (2 <=? Spec.scaled (sum mod 700)) = true
  /\ (Spec.scaled (sum mod 700) <=? 8) = true.
Proof.
  pose proof scaled_table as T. rewrite forallb_forall in T.
  apply andb_true_iff, T, In_Z_range, Z.mod_pos_bound. reflexivity.
Qed.

(** C2, as the code has it: for every location and month, [deriveBaseUv]
    is the value obtained by summing the character codes of the location
    string put in lower case, taking the sum modulo 700, scaling the
    remainder into [2, 8], adding the seasonal term, clamping to at most 11
    and rounding to one decimal; the scaled remainder does lie in [2, 8];
    the empty string has sum 0. *)
Theorem deriveBaseUv_formula (sin : float -> float) (month : Z) (location : string) :
  deriveBaseUv sin month location
    = Spec.baseUvOfSum sin month (Spec.charCodeSum (toLowerCase location))
  /\ (forall sum : Z, (2 <=? Spec.scaled (sum mod 700)) = true
                      /\ (Spec.scaled (sum mod 700) <=? 8) = true)
  /\ Spec.charCodeSum (toLowerCase "") = 0%Z
  /\ deriveBaseUv sin month "" = Spec.baseUvOfSum sin month 0.
Proof.
  split; [apply deriveBaseUv_unfold|]. split; [apply scaled_range|].
  split; [reflexivity|].
  apply (deriveBaseUv_unfold sin month "").
Qed.

(** On a location without capital letters the change of case is the
    identity, and the code computes the specification's value. *)
Lemma deriveBaseUv_lower_case (sin : float -> float) (month : Z) (location : string) :
  toLowerCase location = location ->
  deriveBaseUv sin month location = Spec.baseUvOfLocation sin month location.
Proof.
  intros H. unfold Spec.baseUvOfLocation.
  rewrite <- H at 2. apply deriveBaseUv_unfold.
Qed.

(** C2 fails as stated: in January the default location
    ['San Francisco, CA'] has index 4.3, while the character codes of the
    string as written (1450, against 1578 in lower case) give 3.2. *)
Lemma deriveBaseUv_ignores_case :
  deriveBaseUv RefSin.sin_series 0 "San Francisco, CA" = 4.3
  /\ Spec.baseUvOfLocation RefSin.sin_series 0 "San Francisco, CA" = 3.2
  /\ deriveBaseUv RefSin.sin_series 0 "San Francisco, CA"
     <> Spec.baseUvOfLocation RefSin.sin_series 0 "San Francisco, CA".
Proof.
  assert (A : deriveBaseUv RefSin.sin_series 0 "San Francisco, CA" = 4.3)
    by (vm_compute; reflexivity).
  assert (B : Spec.baseUvOfLocation RefSin.sin_series 0 "San Francisco, CA" = 3.2)
    by (vm_compute; reflexivity).
  split; [exact A | split; [exact B | ]].
  rewrite A, B. intros E.
  assert (F : (4.3 =? 3.2) = true) by (rewrite E; reflexivity).
  discriminate F.
Qed.

Lemma baseUvOfSum_range (sin : float -> float) (month sum : Z) :
  (0 <=? sin (seasonal_arg month)) = true ->
  (2 <=? Spec.baseUvOfSum sin month sum) = true
  /\ (Spec.baseUvOfSum sin month sum <=? 11) = true.
Proof.
  intros Hs. unfold Spec.baseUvOfSum.
  change (JS.of_Z (month + 1) / 12 * JS.Math_PI) with (seasonal_arg month).
  destruct (scaled_range sum) as [Hn _].
  set (n := Spec.scaled (sum mod 700)) in *.
  set (t := sin (seasonal_arg month) * 3).
  assert (Ht : (0 <=? t) = true) by (apply mul_nonneg; trivial; reflexivity).
  assert (Hp : (0 <? n) = true) by (apply (ltb_leb_mono 0 2 n); trivial).
  pose proof (add_nonneg_ge n t Hp Ht) as Hy.
  pose proof (leb_trans _ _ _ Hn Hy) as H2.
  destruct (Math_min_bounds 2 (n + t) 11 H2 eq_refl) as [L U].
  now apply toFixed1_bounds.
Qed.

(** C3: for every location and every month, on a platform whose sine is not
    negative at the seasonal argument (as the sine on [0, pi] is),
    [deriveBaseUv] lies in the closed interval [2.0, 11.0]; the bounds hold
    for whatever sum of character codes the location has. *)
Theorem deriveBaseUv_range (sin : float -> float) (month : Z) (location : string) :
  (0 <=? sin (seasonal_arg month)) = true ->
  ((2.0 <=? deriveBaseUv sin month location) = true
   /\ (deriveBaseUv sin month location <=? 11.0) = true)
  /\ (forall sum : Z,
        (2.0 <=? Spec.baseUvOfSum sin month sum) = true
        /\ (Spec.baseUvOfSum sin month sum <=? 11.0) = true).
Proof.
  intros Hs. split.
  - rewrite deriveBaseUv_unfold. now apply baseUvOfSum_range.
  - intros sum. now apply baseUvOfSum_range.
Qed.

(** In each of the twelve months the correctly rounded sine of the seasonal
    argument is not negative: the largest argument, for December, is the
    binary64 value of pi, just below pi itself. *)
Lemma sin_series_seasonal :
  forallb (fun m => 0 <=? RefSin.sin_series (seasonal_arg m))
    (map Z.of_nat (seq 0 12)) = true.
Proof. vm_compute. reflexivity. Qed.

(** C3 at the default location in June, with the reference sine. *)
Lemma deriveBaseUv_range_witness :
  (2.0 <=? deriveBaseUv RefSin.sin_series 5 "San Francisco, CA") = true
  /\ (deriveBaseUv RefSin.sin_series 5 "San Francisco, CA" <=? 11.0) = true.
Proof.
  destruct (deriveBaseUv_range RefSin.sin_series 5 "San Francisco, CA")
    as [H _].
  - vm_compute. reflexivity.
  - exact H.
Defined.

(** ** Hourly forecast *)

Lemma forecast_uv_nonneg (sin : float -> float) (baseUv : float) (i : Z) :
  (0 <=? sin (forecast_arg i)) = true ->
  (sin (forecast_arg i) <=? 1) = true ->
  is_nan baseUv = false ->
  (0 <=? forecast_uv sin baseUv i) = true.
Proof.
  intros H0 H1 Hb. unfold forecast_uv.
  apply Math_max_0_nonneg, toFixed1_not_nan, mul_not_nan; trivial.
  now apply forecast_factor_finite_nonzero.
Qed.

Lemma forecast_uv_nan (sin : float -> float) (i : Z) :
  forecast_uv sin nan i = nan.
Proof. unfold forecast_uv. now rewrite nan_mul. Qed.

(** C4, as the code has it: for every [baseUv], [generateForecast] returns
    exactly 8 entries, the entry at index [i] carries the hour label of
    [i] hours from now and
    [uv = max(round(baseUv * (0.4 + sin((i/8) * pi)), 1 decimal), 0)];
    every entry's [uv] is [>= 0] when [baseUv] is not NaN (on a platform
    whose sine lies in [0, 1] at the eight arguments, as the sine on
    [0, pi] does), and every entry's [uv] is NaN when [baseUv] is NaN. *)
Theorem generateForecast_entries
    (sin : float -> float) (fmt : Z -> string) (baseUv : float) :
  List.length (generateForecast sin fmt baseUv) = 8%nat
  /\ map uv (generateForecast sin fmt baseUv)
     = map (Spec.forecastUv sin baseUv) [0; 1; 2; 3; 4; 5; 6; 7]%Z
  /\ map hour (generateForecast sin fmt baseUv)
     = map fmt [0; 1; 2; 3; 4; 5; 6; 7]%Z
  /\ (is_nan baseUv = false ->
      (forall i, (0 <= i < 8)%Z ->
                 (0 <=? sin (forecast_arg i)) = true
                 /\ (sin (forecast_arg i) <=? 1) = true) ->
      forall entry, In entry (generateForecast sin fmt baseUv) ->
                    (0 <=? uv entry) = true)
  /\ (is_nan baseUv = true ->
      forall entry, In entry (generateForecast sin fmt baseUv) ->
                    uv entry = nan /\ (0 <=? uv entry) = false).
Proof.
  split; [reflexivity|]. split; [reflexivity|]. split; [reflexivity|].
  split.
  - intros Hb Hs entry Hin. unfold generateForecast in Hin.
    apply in_map_iff in Hin as (i & <- & Hi). cbn [uv].
    apply in_map_iff in Hi as (n & <- & Hn). apply in_seq in Hn.
    destruct (Hs (Z.of_nat n) ltac:(lia)) as [H0 H1].
    now apply forecast_uv_nonneg.
  - intros Hb entry Hin. apply is_nan_true_eq in Hb. subst baseUv.
    unfold generateForecast in Hin.
    apply in_map_iff in Hin as (i & <- & _). cbn [uv].
    rewrite forecast_uv_nan. split; reflexivity.
Qed.

(** C4 fails as stated: for [baseUv = NaN] the entries are NaN, and
    [NaN >= 0] is false. *)
Lemma generateForecast_nan :
  map uv (generateForecast RefSin.sin_series (fun _ => EmptyString) nan)
    = [nan; nan; nan; nan; nan; nan; nan; nan]
  /\ (0 <=? nan) = false.
Proof. split; vm_compute; reflexivity. Qed.

(** At each of the eight forecast arguments the correctly rounded sine lies
    in [0, 1]. *)
Lemma sin_series_forecast :
  forallb (fun i => (0 <=? RefSin.sin_series (forecast_arg i))
                    && (RefSin.sin_series (forecast_arg i) <=? 1))
    (map Z.of_nat (seq 0 8)) = true.
Proof. vm_compute. reflexivity. Qed.

(** C4 on a forecast for [baseUv = 5.5] with the reference sine. *)
Lemma generateForecast_entries_witness :
  Forall (fun entry => (0 <=? uv entry) = true)
    (generateForecast RefSin.sin_series (fun _ => EmptyString) 5.5).
Proof.
  apply Forall_forall.
  apply (generateForecast_entries RefSin.sin_series (fun _ => EmptyString) 5.5).
  - reflexivity.
  - intros i Hi. apply andb_true_iff.
    pose proof sin_series_forecast as T. rewrite forallb_forall in T.
    apply T, In_Z_range. exact Hi.
Defined.

(** ** Session timer *)

Lemma tick_inactive (a : App) (n : nat) :
  sessionActive a = false -> Nat.iter n tick a = a.
Proof.
  intros H. induction n as [|n IH]; [reflexivity|].
  change (Nat.iter (S n) tick a) with (tick (Nat.iter n tick a)).
  rewrite IH. unfold tick. now rewrite H.
Qed.

(** C6: when the session is running, [handleStop] makes it inactive, leaves
    the counter of elapsed seconds as it is, where later ticks no longer
    move it, and sets [vitaminProgress] to the rounded sum of the previous
    [vitaminProgress] and the [vitaminGain] of the exposure calculator for
    the elapsed seconds, the other persisted fields staying the same and the
    new state being written to the slot; when the session is not running,
    [handleStop] changes nothing: session, persisted state and slot are the
    same. *)
Theorem handleStop_effect (sin : float -> float) (month : Z) (a : App) :
  (sessionActive a = true ->
   let p := persistedState a in
   let a' := handleStop sin month a in
   let gain := vitaminGain (calculateExposureGain (sessionSeconds a)
                              (deriveBaseUv sin month (location p))
                              (clothing p) (sunscreen p)) in
   sessionActive a' = false
   /\ sessionSeconds a' = sessionSeconds a
   /\ (forall n, sessionSeconds (Nat.iter n tick a') = sessionSeconds a)
   /\ vitaminProgress (persistedState a') = JS.Math_round (vitaminProgress p + gain)
   /\ location (persistedState a') = location p
   /\ clothing (persistedState a') = clothing p
   /\ sunscreen (persistedState a') = sunscreen p
   /\ vitaminGoal (persistedState a') = vitaminGoal p
   /\ store a' = persist (store a) (persistedState a'))
  /\ (sessionActive a = false -> handleStop sin month a = a).
Proof.
  split.
  - intros H. cbv zeta. unfold handleStop. rewrite H. cbn [negb].
    unfold updatePersistedState, updateState, setSessionActive.
    cbn. repeat split. intros n. now rewrite tick_inactive.
  - intros H. unfold handleStop. now rewrite H.
Qed.

(** C6 on a session of one minute at the default settings in June: the UV
    index is 6.5, the gain 10.4, and the progress goes from 250 to 260; a
    second stop changes nothing. *)
Lemma handleStop_effect_witness :
  let a := Nat.iter 60 tick (handleStart (mount empty_storage)) in
  let a' := handleStop RefSin.sin_series 5 a in
  sessionActive a = true
  /\ sessionSeconds a' = 60
  /\ vitaminProgress (persistedState a') = 260
  /\ handleStop RefSin.sin_series 5 a' = a'.
Proof.
  cbv zeta.
  set (a := Nat.iter 60 tick (handleStart (mount empty_storage))).
  assert (Ha : sessionActive a = true) by (vm_compute; reflexivity).
  destruct (handleStop_effect RefSin.sin_series 5 a) as [Run _].
  destruct (Run Ha) as (Hact & Hsec & _ & Hprog & _).
  destruct (handleStop_effect RefSin.sin_series 5 (handleStop RefSin.sin_series 5 a))
    as [_ Idle].
  split; [exact Ha|]. split; [rewrite Hsec; vm_compute; reflexivity|].
  split; [rewrite Hprog; vm_compute; reflexivity|].
  exact (Idle Hact).
Defined.

(** ** Persistence *)

Lemma reload_number (x fallback : float) :
  or_default JS.truthy_number (json_number x) fallback
  = if JS.truthy_number x && is_finite x then x else fallback.
Proof.
  unfold json_number, or_default, JS.truthy_number.
  destruct (is_finite x) eqn:F.
  - destruct (is_zero x) eqn:Z.
    + destruct (is_nan x); reflexivity.
    + rewrite Z. destruct (is_nan x); reflexivity.
  - destruct (is_nan x || is_zero x); reflexivity.
Qed.

Lemma merge_no_updates (p : PersistedState) : merge p no_updates = p.
Proof. now destruct p. Qed.

Lemma mount_state (s : Storage) : persistedState (mount s) = loadState s.
Proof. apply merge_no_updates. Qed.

(** C7, as the code has it: when a state is saved and the page is started
    afresh on that storage, the two presets are reloaded as saved, the
    location is reloaded as saved when it is not empty, each of the two
    numbers is reloaded as saved when it is truthy and finite, and every
    other field (an empty location; a number that is zero, NaN or infinite,
    the last two being written as [null]) is replaced by its default; in
    particular a saved [vitaminProgress] of 0 reloads as 250. *)
Theorem persistence_round_trip (p : PersistedState) (s : Storage) :
  readable s = true -> writable s = true ->
  let q := persistedState (mount (snd (updateState no_updates (p, s)))) in
  location q = (if JS.truthy_string (location p) then location p
                else location defaultPersistedState)
  /\ clothing q = clothing p
  /\ sunscreen q = sunscreen p
  /\ vitaminGoal q = (if JS.truthy_number (vitaminGoal p) && is_finite (vitaminGoal p)
                      then vitaminGoal p else 1000)
  /\ vitaminProgress q = (if JS.truthy_number (vitaminProgress p)
                             && is_finite (vitaminProgress p)
                          then vitaminProgress p else 250)
  /\ (vitaminProgress p = 0 -> vitaminProgress q = 250).
Proof.
  intros R W. cbv zeta. rewrite mount_state.
  unfold updateState, persist, setItem. rewrite W. cbn [snd].
  unfold loadState, getItem. cbn [readable slot]. rewrite R.
  rewrite merge_no_updates.
  cbn [JSON_stringify st_location st_clothing st_sunscreen st_vitaminGoal st_vitaminProgress
       location clothing sunscreen vitaminGoal vitaminProgress or_default
       truthy_preset defaultPersistedState].
  rewrite !reload_number. repeat split. intros ->. reflexivity.
Qed.

(** C7 on the default state with its progress reset to zero. *)
Lemma persistence_round_trip_witness :
  let p := {| location := "San Francisco, CA"; clothing := covered;
              sunscreen := spf50; vitaminGoal := 800; vitaminProgress := 0 |} in
  let q := persistedState (mount (snd (updateState no_updates (p, empty_storage)))) in
  location q = "San Francisco, CA"%string /\ clothing q = covered /\ sunscreen q = spf50
  /\ vitaminGoal q = 800 /\ vitaminProgress q = 250.
Proof.
  cbv zeta.
  destruct (persistence_round_trip
              {| location := "San Francisco, CA"; clothing := covered;
                 sunscreen := spf50; vitaminGoal := 800; vitaminProgress := 0 |}
              empty_storage eq_refl eq_refl)
    as (H1 & H2 & H3 & H4 & _ & H5).
  exact (conj H1 (conj H2 (conj H3 (conj H4 (H5 eq_refl))))).
Defined.

(** C7 fails as stated: an infinite goal is truthy, is written as [null],
    and reloads as the default 1000. *)
Lemma persistence_round_trip_infinite_goal :
  let p := {| location := "San Francisco, CA"; clothing := light;
              sunscreen := spf30; vitaminGoal := infinity; vitaminProgress := 250 |} in
  let q := persistedState (mount (snd (updateState no_updates (p, empty_storage)))) in
  JS.truthy_number (vitaminGoal p) = true
  /\ vitaminGoal q = 1000
  /\ (vitaminGoal q =? vitaminGoal p) = false.
Proof. repeat split. Qed.

(** ** Progress buttons *)

Lemma minus100_progress (a : App) :
  vitaminProgress (persistedState (minus100 a))
  = JS.Math_max (vitaminProgress (persistedState a) - 100) 0.
Proof. reflexivity. Qed.

Lemma minus100_nonneg (a : App) :
  (0 <=? vitaminProgress (persistedState a)) = true ->
  (0 <=? vitaminProgress (persistedState (minus100 a))) = true.
Proof.
  intros H. rewrite minus100_progress.
  apply Math_max_0_nonneg, sub_not_nan; [|reflexivity].
  now apply leb_not_nan in H.
Qed.

(** C8: from a [vitaminProgress] that is [>= 0], any number of clicks on
    "-100 IU" leaves [vitaminProgress >= 0]; each click sets it to
    [max(previous - 100, 0)]. *)
Theorem minus100_floor (a : App) (n : nat) :
  (0 <=? vitaminProgress (persistedState a)) = true ->
  (0 <=? vitaminProgress (persistedState (Nat.iter n minus100 a))) = true
  /\ vitaminProgress (persistedState (Nat.iter (S n) minus100 a))
     = JS.Math_max (vitaminProgress (persistedState (Nat.iter n minus100 a)) - 100) 0.
Proof.
  intros H. split; [|apply minus100_progress].
  induction n as [|n IH]; [exact H|].
  change (Nat.iter (S n) minus100 a) with (minus100 (Nat.iter n minus100 a)).
  now apply minus100_nonneg.
Qed.

(** C8 from the default progress of 250: five clicks end at 0. *)
Lemma minus100_floor_witness :
  (0 <=? vitaminProgress (persistedState (Nat.iter 5 minus100 (mount empty_storage)))) = true
  /\ vitaminProgress (persistedState (Nat.iter 5 minus100 (mount empty_storage))) = 0.
Proof.
  split.
  - apply (minus100_floor (mount empty_storage) 5). reflexivity.
  - reflexivity.
Defined.

(** ** Stored text of any shape *)

Lemma clothingOfKey_key (k : string) (c : ClothingPreset) :
  clothingOfKey k = Some c -> k = clothingKey c.
Proof.
  unfold clothingOfKey.
  destruct (String.eqb_spec k "minimal") as [->|_]; [now intros [= <-]|].
  destruct (String.eqb_spec k "light") as [->|_]; [now intros [= <-]|].
  destruct (String.eqb_spec k "moderate") as [->|_]; [now intros [= <-]|].
  destruct (String.eqb_spec k "covered") as [->|_]; [now intros [= <-]|].
  discriminate.
Qed.

Lemma sunscreenOfKey_key (k : string) (s : SunscreenPreset) :
  sunscreenOfKey k = Some s -> k = sunscreenKey s.
Proof.
  unfold sunscreenOfKey.
  destruct (String.eqb_spec k "none") as [->|_]; [now intros [= <-]|].
  destruct (String.eqb_spec k "spf15") as [->|_]; [now intros [= <-]|].
  destruct (String.eqb_spec k "spf30") as [->|_]; [now intros [= <-]|].
  destruct (String.eqb_spec k "spf50") as [->|_]; [now intros [= <-]|].
  discriminate.
Qed.

Lemma typedString_load (v : option JValue) (t : option string) (d : string) :
  typedString v = Some t ->
  or_default ToBoolean v (JString d) = JString (or_default JS.truthy_string t d).
Proof.
  destruct v as [[]|]; cbn; intros [= <-]; cbn; trivial.
  now destruct (JS.truthy_string s).
Qed.

Lemma typedNumber_load (v : option JValue) (t : option float) (d : float) :
  typedNumber v = Some t ->
  or_default ToBoolean v (JNumber d) = JNumber (or_default JS.truthy_number t d).
Proof.
  destruct v as [[]|]; cbn; intros [= <-]; cbn; trivial.
  now destruct (JS.truthy_number x).
Qed.

Lemma typedClothing_load (v : option JValue) (t : option ClothingPreset)
    (d : ClothingPreset) :
  typedClothing v = Some t ->
  or_default ToBoolean v (JString (clothingKey d))
  = JString (clothingKey (or_default truthy_preset t d)).
Proof.
  destruct v as [[]|]; cbn; try (intros [= <-]; reflexivity); try discriminate.
  destruct (clothingOfKey s) as [c|] eqn:K; cbn; intros [= <-].
  apply clothingOfKey_key in K. subst s. now destruct c.
Qed.

Lemma typedSunscreen_load (v : option JValue) (t : option SunscreenPreset)
    (d : SunscreenPreset) :
  typedSunscreen v = Some t ->
  or_default ToBoolean v (JString (sunscreenKey d))
  = JString (sunscreenKey (or_default truthy_preset t d)).
Proof.
  destruct v as [[]|]; cbn; try (intros [= <-]; reflexivity); try discriminate.
  destruct (sunscreenOfKey s) as [c|] eqn:K; cbn; intros [= <-].
  apply sunscreenOfKey_key in K. subst s. now destruct c.
Qed.

(** On a storage whose fields have their declared types, the load on any
    content is the typed load. *)
Lemma typed_load_agrees (rs : RawStorage) (s : Storage) :
  typed_storage rs = Some s -> loadRaw rs = asLoaded (loadState s).
Proof.
  unfold typed_storage, loadRaw, loadState, getItem.
  destruct (raw_slot rs) as [[|parsed]|]; cbn [typed_item].
  - intros [= <-]. cbn [readable slot]. now destruct (raw_readable rs).
  - destruct (properties parsed) as [members|]; cbn [typed_item].
    + destruct (typedString (member "location" members)) as [l|] eqn:L;
        [|discriminate].
      destruct (typedClothing (member "clothing" members)) as [c|] eqn:C;
        [|discriminate].
      destruct (typedSunscreen (member "sunscreen" members)) as [sc|] eqn:S;
        [|discriminate].
      destruct (typedNumber (member "vitaminGoal" members)) as [g|] eqn:G;
        [|discriminate].
      destruct (typedNumber (member "vitaminProgress" members)) as [p|] eqn:P;
        [|discriminate].
      intros [= <-]. cbn [readable slot].
      destruct (raw_readable rs); [|reflexivity].
      cbn [asLoaded defaultPersistedState ld_location ld_clothing ld_sunscreen
           ld_vitaminGoal ld_vitaminProgress location clothing sunscreen
           vitaminGoal vitaminProgress st_location st_clothing st_sunscreen
           st_vitaminGoal st_vitaminProgress].
      rewrite (typedString_load _ _ _ L).
      change (JString "light") with (JString (clothingKey light)).
      change (JString "spf30") with (JString (sunscreenKey spf30)).
      rewrite (typedClothing_load _ _ _ C), (typedSunscreen_load _ _ _ S).
      rewrite (typedNumber_load _ _ _ G), (typedNumber_load _ _ _ P).
      reflexivity.
    + intros [= <-]. cbn [readable slot]. now destruct (raw_readable rs).
  - intros [= <-]. cbn [readable slot]. now destruct (raw_readable rs).
Qed.

(** Every storage of the typed model is the typed reading of a storage. *)
Lemma raw_storage_typed (s : Storage) : typed_storage (raw_storage s) = Some s.
Proof.
  destruct s as [[[|[l c sc g p]]|] r w]; try reflexivity.
  destruct l, c as [[]|], sc as [[]|], g, p; reflexivity.
Qed.

Lemma or_default_truthy (v : option JValue) (d : JValue) :
  ToBoolean d = true -> ToBoolean (or_default ToBoolean v d) = true.
Proof.
  intros D. destruct v as [a|]; cbn; trivial.
  destruct (ToBoolean a) eqn:T; trivial.
Qed.

Lemma loadRaw_truthy (rs : RawStorage) :
  ToBoolean (ld_location (loadRaw rs)) = true
  /\ ToBoolean (ld_clothing (loadRaw rs)) = true
  /\ ToBoolean (ld_sunscreen (loadRaw rs)) = true
  /\ ToBoolean (ld_vitaminGoal (loadRaw rs)) = true
  /\ ToBoolean (ld_vitaminProgress (loadRaw rs)) = true.
Proof.
  unfold loadRaw.
  destruct (raw_readable rs); [|now repeat split].
  destruct (raw_slot rs) as [[|parsed]|].
  - now repeat split.
  - destruct (properties parsed) as [members|]; [|now repeat split].
    cbn [ld_location ld_clothing ld_sunscreen ld_vitaminGoal ld_vitaminProgress].
    repeat split; now apply or_default_truthy.
  - now repeat split.
Qed.

Lemma loadRaw_member (rs : RawStorage) (members : list (string * JValue)) :
  raw_readable rs = true -> raw_slot rs = Some (RawJson (JObject members)) ->
  ld_vitaminGoal (loadRaw rs)
  = or_default ToBoolean (member "vitaminGoal" members) (JNumber 1000).
Proof. intros R S. unfold loadRaw. now rewrite R, S. Qed.

(** A stored goal that is the string ["0"] is kept by the load, is no state
    of the declared type, and divides like 0. *)
Lemma string_goal_kept :
  ld_vitaminGoal (loadRaw string_goal_storage) = JString "0"
  /\ ToBoolean (JString "0") = true
  /\ ToNumber (JString "0") = Some 0
  /\ typed_storage string_goal_storage = None
  /\ rawProgressPercentage (loadRaw string_goal_storage) = Some 100
  /\ 250 / 0 = infinity.
Proof. repeat split. Qed.

(** A stored clothing that names no preset is kept as well. *)
Lemma foreign_clothing_kept :
  ld_clothing (loadRaw foreign_clothing_storage) = JString "constructor"
  /\ typed_storage foreign_clothing_storage = None.
Proof. repeat split. Qed.

(** ** The goal and the percentage *)

Lemma loadState_goal_truthy (s : Storage) :
  JS.truthy_number (vitaminGoal (loadState s)) = true.
Proof.
  unfold loadState.
  destruct (getItem s) as [[[|parsed]|]|]; try reflexivity.
  cbn [vitaminGoal]. unfold or_default.
  destruct (st_vitaminGoal parsed) as [x|]; [|reflexivity].
  destruct (JS.truthy_number x) eqn:T; [exact T | reflexivity].
Qed.

Lemma positive_over_zero (x : float) : (0 <? x) = true -> x / 0 = infinity.
Proof.
  rewrite FloatAxioms.ltb_spec. intros H.
  apply Prim2SF_inj. rewrite div_spec. revert H.
  change (Prim2SF 0) with (S754_zero false).
  change (Prim2SF infinity) with (S754_infinity false).
  destruct (Prim2SF x) as [s|s| |s m e]; try destruct s; cbn; congruence.
Qed.

(** C9, as the code has it: the default goal is positive.  Right after a
    load the goal is the stored value when that is truthy and 1000
    otherwise: it is always truthy, and when it is a Number it is never zero
    or NaN; on a storage whose fields have their declared types it is the
    Number of the typed state.  The load checks no types, so a truthy stored
    goal of another type is kept as it is: the string ["0"] stays, and
    divides like 0.  Ticks, the session controls, the location and preset
    fields and the progress buttons leave the goal as it is; a goal edit
    stores [Number(value || 0)] without any check, which is 0 for the empty
    text.  With a goal of 0 the percentage
    [min(progress / goal * 100, 100)] is computed by a division by zero: it
    is 100 for a positive progress and NaN for a progress of 0. *)
Theorem vitaminGoal_evolution (sin : float -> float) (month : Z) (a : App) :
  (0 <? vitaminGoal defaultPersistedState) = true
  /\ (forall rs,
        ToBoolean (ld_vitaminGoal (loadRaw rs)) = true
        /\ (forall x, ld_vitaminGoal (loadRaw rs) = JNumber x ->
                      JS.truthy_number x = true))
  /\ (forall rs s, typed_storage rs = Some s ->
        ld_vitaminGoal (loadRaw rs) = JNumber (vitaminGoal (persistedState (mount s)))
        /\ JS.truthy_number (vitaminGoal (persistedState (mount s))) = true)
  /\ (forall rs members,
        raw_readable rs = true ->
        raw_slot rs = Some (RawJson (JObject members)) ->
        ld_vitaminGoal (loadRaw rs)
        = match member "vitaminGoal" members with
          | Some v => if ToBoolean v then v else JNumber 1000
          | None => JNumber 1000
          end)
  /\ (ld_vitaminGoal (loadRaw string_goal_storage) = JString "0"
      /\ ToNumber (JString "0") = Some 0
      /\ rawProgressPercentage (loadRaw string_goal_storage) = Some 100)
  /\ (forall ev, (forall v, ev <> EditGoal v) -> ev <> Reload ->
        vitaminGoal (persistedState (step sin month a ev))
        = vitaminGoal (persistedState a))
  /\ (forall v, vitaminGoal (persistedState (step sin month a (EditGoal v)))
                = goalOfInput v)
  /\ goalOfInput EmptyText = 0
  /\ (forall p, vitaminGoal p = 0 -> (0 <? vitaminProgress p) = true ->
        progressPercentage p = 100)
  /\ (forall p, vitaminGoal p = 0 -> vitaminProgress p = 0 ->
        progressPercentage p = nan).
Proof.
  split; [reflexivity|]. split.
  { intros rs. destruct (loadRaw_truthy rs) as (_ & _ & _ & T & _).
    split; [exact T|]. intros x E. now rewrite E in T. }
  split.
  { intros rs s T. rewrite (typed_load_agrees rs s T), mount_state.
    split; [reflexivity | apply loadState_goal_truthy]. }
  split.
  { intros rs members R S. now rewrite (loadRaw_member rs members R S). }
  split; [repeat split|]. split.
  { intros ev NoEdit NoReload. destruct ev; cbn [step]; try reflexivity.
    - unfold tick. now destruct (sessionActive a).
    - unfold handleStart. now destruct (sessionActive a).
    - unfold handleStop. now destruct (sessionActive a).
    - now destruct (NoEdit value).
    - now destruct NoReload. }
  split; [reflexivity|]. split; [reflexivity|]. split.
  - intros p Hg Hp. unfold progressPercentage.
    rewrite Hg, (positive_over_zero _ Hp). reflexivity.
  - intros p Hg Hp. unfold progressPercentage. rewrite Hg, Hp. reflexivity.
Qed.

(** C9 on a page whose goal field has been cleared while the progress is
    250. *)
Lemma vitaminGoal_evolution_witness :
  progressPercentage {| location := "San Francisco, CA"; clothing := light;
                        sunscreen := spf30; vitaminGoal := 0;
                        vitaminProgress := 250 |} = 100.
Proof.
  destruct (vitaminGoal_evolution RefSin.sin_series 5 (mount empty_storage))
    as (_ & _ & _ & _ & _ & _ & _ & _ & H & _).
  apply H; reflexivity.
Defined.

(** C9 fails as stated: clearing the goal field of a freshly loaded page
    gives a reachable state whose goal is 0, not positive; the percentage is
    then 250 / 0 * 100 clamped to 100, and NaN once the progress is reset. *)
Lemma vitaminGoal_zero_reachable :
  let a := step RefSin.sin_series 5 (mount empty_storage) (EditGoal EmptyText) in
  reachable RefSin.sin_series 5 a
  /\ vitaminGoal (persistedState a) = 0
  /\ (0 <? vitaminGoal (persistedState a)) = false
  /\ vitaminProgress (persistedState a) / vitaminGoal (persistedState a) = infinity
  /\ progressPercentage (persistedState a) = 100
  /\ progressPercentage (persistedState (step RefSin.sin_series 5 a ResetProgress)) = nan.
Proof.
  cbv zeta. split.
  - apply reach_step, reach_mount.
  - repeat split.
Qed.

(** ** Write-back on load *)



(** * Further properties of the page *)

(** ** Runs of events *)

Lemma run_snoc (sin : float -> float) (month : Z) (a : App) (evs : list Event) (ev : Event) :
  run sin month a (evs ++ [ev]) = step sin month (run sin month a evs) ev.
Proof. unfold run. now rewrite fold_left_app. Qed.

(** ** The timer text *)

Lemma two_digits_table :
  forallb (fun k => String.eqb (JS.padStart 2 "0" (NilZero.string_of_int (Z.to_int k)))
                               (two_digits k))
    (map Z.of_nat (seq 0 100)) = true.
Proof. vm_compute. reflexivity. Qed.

Lemma padStart_two_digits (k : Z) :
  (0 <= k < 100)%Z ->
  JS.padStart 2 "0" (NilZero.string_of_int (Z.to_int k)) = two_digits k.
Proof.
  intros Hk. pose proof two_digits_table as T.
  rewrite forallb_forall in T. apply String.eqb_eq, T, (In_Z_range 100). lia.
Qed.

Lemma normalizeTimer_fields (s : Z) :
  (0 <= s < 2 ^ 51)%Z ->
  normalizeTimer (JS.of_Z s)
  = Some (JS.padStart 2 "0" (NilZero.string_of_int (Z.to_int (s / 3600)))
          ++ ":" ++ two_digits (s mod 3600 / 60)
          ++ ":" ++ two_digits (s mod 60))%string.
Proof.
  intros Hs.
  assert (Hs' : (s < 2 ^ 53)%Z) by (apply Z.lt_trans with (2 ^ 51)%Z; [lia|reflexivity]).
  assert (Hh : (0 <= s / 3600 < 2 ^ 53)%Z).
  { split. apply Z.div_pos; lia. apply Z.div_lt_upper_bound; lia. }
  pose proof (Z.mod_pos_bound s 3600 ltac:(lia)) as Hm.
  pose proof (Z.mod_pos_bound s 60 ltac:(lia)) as Hsec.
  assert (Hmin : (0 <= s mod 3600 / 60 < 60)%Z).
  { split. apply Z.div_pos; lia. apply Z.div_lt_upper_bound; lia. }
  unfold normalizeTimer.
  change 3600 with (JS.of_Z 3600). change 60 with (JS.of_Z 60).
  rewrite !remainder_whole by (split; first [lia | reflexivity]).
  rewrite !floor_div_whole.
  2:{ split. lia. apply Z.lt_trans with 3600%Z. lia. reflexivity. }
  2:{ split. lia. reflexivity. }
  2:{ lia. }
  2:{ split. lia. reflexivity. }
  rewrite Math_floor_whole.
  2:{ split. lia. apply Z.lt_trans with 60%Z. lia. reflexivity. }
  rewrite !toString_whole.
  2:{ split. lia. apply Z.lt_trans with 60%Z. lia. reflexivity. }
  2:{ split. lia. apply Z.lt_trans with 60%Z. lia. reflexivity. }
  2:{ lia. }
  rewrite (padStart_two_digits (s mod 3600 / 60)) by lia.
  rewrite (padStart_two_digits (s mod 60)) by lia.
  reflexivity.
Qed.

Lemma normalizeTimer_clock_text (s : Z) :
  (0 <= s < 360000)%Z -> normalizeTimer (JS.of_Z s) = Some (clock_text s).
Proof.
  intros Hs. rewrite normalizeTimer_fields by lia.
  assert (Hh : (0 <= s / 3600 < 100)%Z).
  { split. apply Z.div_pos; lia. apply Z.div_lt_upper_bound; lia. }
  now rewrite padStart_two_digits by lia.
Qed.

(** X1: For a whole number of seconds below [2^51], [normalizeTimer]
    prints the hours (padded to two digits, more when there are a hundred
    hours or more), the minutes of the hour and the seconds of the minute,
    each computed as in integer arithmetic; below a hundred hours the text
    is [HH:MM:SS], eight characters long. *)
Theorem normalizeTimer_whole_seconds (s : Z) :
  (0 <= s < 2 ^ 51)%Z ->
  normalizeTimer (JS.of_Z s)
  = Some (JS.padStart 2 "0" (NilZero.string_of_int (Z.to_int (s / 3600)))
          ++ ":" ++ two_digits (s mod 3600 / 60)
          ++ ":" ++ two_digits (s mod 60))%string
  /\ ((s < 360000)%Z ->
      normalizeTimer (JS.of_Z s) = Some (clock_text s)
      /\ String.length (clock_text s) = 8%nat).
Proof.
  intros Hs. split.
  - now apply normalizeTimer_fields.
  - intros H100. split.
    + apply normalizeTimer_clock_text. lia.
    + reflexivity.
Qed.

Lemma normalizeTimer_whole_seconds_witness :
  normalizeTimer (JS.of_Z 3725) = Some "01:02:05"%string.
Proof.
  destruct (normalizeTimer_whole_seconds 3725) as [_ H].
  - split; [lia | reflexivity].
  - destruct H as [H _]; [reflexivity | exact H].
Defined.

(** ** The session timer *)

Lemma tick_active (a : App) :
  sessionActive a = true ->
  tick a = {| persistedState := persistedState a; store := store a; ready := ready a;
              sessionActive := true; sessionSeconds := sessionSeconds a + 1 |}.
Proof. intros H. unfold tick. now rewrite H. Qed.

Lemma ticks_count (a : App) (k : Z) (n : nat) :
  sessionActive a = true -> sessionSeconds a = JS.of_Z k ->
  (0 <= k)%Z -> (k + Z.of_nat n < 2 ^ 53)%Z ->
  let a' := Nat.iter n tick a in
  sessionActive a' = true
  /\ sessionSeconds a' = JS.of_Z (k + Z.of_nat n)
  /\ persistedState a' = persistedState a
  /\ store a' = store a.
Proof.
  intros Ha Hs Hk. induction n as [|n IH]; intros Hn a'.
  - subst a'. cbn [Nat.iter]. rewrite Z.add_0_r. auto.
  - subst a'. change (Nat.iter (S n) tick a) with (tick (Nat.iter n tick a)).
    destruct IH as (I1 & I2 & I3 & I4); [lia|].
    rewrite tick_active by exact I1. cbn [sessionActive sessionSeconds persistedState store].
    rewrite I2. change 1 with (JS.of_Z 1). rewrite of_Z_add by lia.
    repeat split; trivial. f_equal. lia.
Qed.

(** X2: A session that is started and then left running for [n] timer
    ticks, [n] up to [2^53], has counted exactly [n] seconds, is still
    running, and has changed neither the persisted state nor the storage;
    below a hundred hours the timer shows these seconds as [HH:MM:SS]. *)
Theorem session_counts_seconds (a : App) (n : nat) :
  sessionActive a = false -> (Z.of_nat n < 2 ^ 53)%Z ->
  let a' := Nat.iter n tick (handleStart a) in
  sessionActive a' = true
  /\ sessionSeconds a' = JS.of_Z (Z.of_nat n)
  /\ persistedState a' = persistedState a
  /\ store a' = store a
  /\ ((Z.of_nat n < 360000)%Z ->
      normalizeTimer (sessionSeconds a') = Some (clock_text (Z.of_nat n))).
Proof.
  intros Ha Hn.
  assert (S0 : handleStart a
               = {| persistedState := persistedState a; store := store a;
                    ready := ready a; sessionActive := true; sessionSeconds := 0 |}).
  { unfold handleStart. now rewrite Ha. }
  pose proof (ticks_count (handleStart a) 0 n) as T.
  rewrite S0 in *. cbn [sessionActive sessionSeconds persistedState store] in T.
  destruct T as (T1 & T2 & T3 & T4); trivial; try lia.
  cbv zeta. repeat split; trivial.
  intros H100. rewrite T2. cbn [Z.add]. apply normalizeTimer_clock_text. lia.
Qed.

Lemma session_counts_seconds_witness :
  let a := Nat.iter 90 tick (handleStart (mount empty_storage)) in
  sessionSeconds a = 90 /\ normalizeTimer (sessionSeconds a) = Some "00:01:30"%string.
Proof.
  destruct (session_counts_seconds (mount empty_storage) 90) as (_ & H & _ & _ & T).
  - reflexivity.
  - reflexivity.
  - split. exact H. apply T. reflexivity.
Defined.

(** ** The session and the persisted state *)

Lemma session_step_keeps (sin : float -> float) (month : Z) (a : App) (ev : Event) :
  session_event ev = true ->
  persistedState (step sin month a ev) = persistedState a
  /\ store (step sin month a ev) = store a
  /\ ready (step sin month a ev) = ready a.
Proof.
  destruct ev; try discriminate; intros _; cbn [step].
  - unfold tick. destruct (sessionActive a); repeat split.
  - unfold handleStart. destruct (sessionActive a); repeat split.
  - repeat split.
Qed.

(** X3: The timer and the Start and Reset buttons never touch the
    persisted state or the storage; only Stop commits a gain.  After Reset
    the session is over with the counter at 0, and a Stop that follows
    commits nothing: the gain of the session that was reset is discarded. *)
Theorem session_events_commit_nothing
    (sin : float -> float) (month : Z) (a : App) (evs : list Event) :
  forallb session_event evs = true ->
  let a' := run sin month a evs in
  persistedState a' = persistedState a
  /\ store a' = store a
  /\ sessionActive (step sin month a' ResetSession) = false
  /\ sessionSeconds (step sin month a' ResetSession) = 0
  /\ run sin month a' [ResetSession; Stop] = step sin month a' ResetSession
  /\ persistedState (run sin month a' [ResetSession; Stop]) = persistedState a.
Proof.
  intros H a'.
  assert (K : persistedState a' = persistedState a /\ store a' = store a).
  { subst a'. induction evs as [|ev evs IH] using rev_ind.
    - split; reflexivity.
    - rewrite forallb_app in H. apply andb_true_iff in H as [H1 H2].
      cbn [forallb] in H2. rewrite andb_true_r in H2.
      rewrite run_snoc.
      destruct (session_step_keeps sin month (run sin month a evs) ev H2)
        as (E1 & E2 & _).
      destruct (IH H1) as [I1 I2]. split; congruence. }
  destruct K as [K1 K2]. repeat split; trivial.
Qed.

Lemma session_events_commit_nothing_witness :
  let a := mount empty_storage in
  let a' := run RefSin.sin_series 5 a [Start; Tick; Tick; Tick] in
  persistedState (run RefSin.sin_series 5 a' [ResetSession; Stop]) = persistedState a.
Proof.
  destruct (session_events_commit_nothing RefSin.sin_series 5
              (mount empty_storage) [Start; Tick; Tick; Tick])
    as (_ & _ & _ & _ & _ & H).
  - reflexivity.
  - exact H.
Defined.

(** ** The sunlight window *)

Lemma charCodeAt_range (c : ascii) : (0 <= charCodeAt c <= 255)%Z.
Proof.
  unfold charCodeAt. pose proof (N_ascii_bounded c) as B. lia.
Qed.

Lemma weighted_sum_nonneg (s : string) (index : Z) :
  (0 <= index)%Z -> (0 <= weighted_sum s index)%Z.
Proof.
  revert index. induction s as [|c rest IH]; intros index Hi; cbn [weighted_sum].
  - lia.
  - pose proof (charCodeAt_range c). pose proof (IH (index + 1)%Z ltac:(lia)). nia.
Qed.

Lemma weighted_sum_bound (s : string) (index : Z) :
  (0 <= index)%Z ->
  (2 * weighted_sum s index
   <= 255 * Z.of_nat (String.length s) * (2 * index + Z.of_nat (String.length s) + 1))%Z.
Proof.
  revert index. induction s as [|c rest IH]; intros index Hi;
    cbn [weighted_sum String.length].
  - lia.
  - pose proof (charCodeAt_range c). pose proof (IH (index + 1)%Z ltac:(lia)).
    rewrite Nat2Z.inj_succ. nia.
Qed.

Lemma reduce_weighted_exact (s : string) (index A : Z) :
  (0 <= index)%Z -> (0 <= A)%Z ->
  (index + Z.of_nat (String.length s) < 2 ^ 53)%Z ->
  (A + weighted_sum s index < 2 ^ 53)%Z ->
  reduce_weighted s index (JS.of_Z A) = JS.of_Z (A + weighted_sum s index).
Proof.
  revert index A. induction s as [|c rest IH]; intros index A Hi HA HL HS;
    cbn [reduce_weighted weighted_sum String.length] in *.
  - now rewrite Z.add_0_r.
  - pose proof (charCodeAt_range c) as Hc.
    pose proof (weighted_sum_nonneg rest (index + 1) ltac:(lia)) as Hw.
    rewrite Nat2Z.inj_succ in HL.
    assert (P : (0 <= charCodeAt c * (index + 1))%Z) by nia.
    rewrite of_Z_mul by lia.
    rewrite of_Z_add by lia.
    rewrite IH by lia. f_equal. lia.
Qed.

Lemma sunrise_table :
  forallb (fun r =>
    let h := 5 + JS.of_Z r / 60 in
    Leibniz.eqb (JS.Math_floor h) (JS.of_Z (5 + r / 60))
    && Leibniz.eqb (JS.Math_round ((h - JS.Math_floor h) * 60)) (JS.of_Z (r mod 60)))
    (map Z.of_nat (seq 0 120)) = true.
Proof. vm_compute. reflexivity. Qed.

Lemma sunset_table :
  forallb (fun r =>
    let h := 17 + JS.of_Z r / 60 in
    Leibniz.eqb (JS.Math_floor h) (JS.of_Z (17 + r / 60))
    && Leibniz.eqb (JS.Math_round ((h - JS.Math_floor h) * 60)) (JS.of_Z (r mod 60)))
    (map Z.of_nat (seq 0 180)) = true.
Proof. vm_compute. reflexivity. Qed.

Lemma formatHours_sunrise (fmt : float -> float -> string) (r : Z) :
  (0 <= r < 120)%Z ->
  formatHours fmt (5 + JS.of_Z r / 60)
  = fmt (JS.of_Z (5 + r / 60)) (JS.of_Z (r mod 60)).
Proof.
  intros Hr. pose proof sunrise_table as T. rewrite forallb_forall in T.
  specialize (T r (In_Z_range 120 r Hr)). cbv zeta in T.
  apply andb_true_iff in T as [T1 T2].
  apply FloatAxioms.Leibniz.eqb_spec in T1, T2.
  unfold formatHours. now rewrite T2, T1.
Qed.

Lemma formatHours_sunset (fmt : float -> float -> string) (r : Z) :
  (0 <= r < 180)%Z ->
  formatHours fmt (17 + JS.of_Z r / 60)
  = fmt (JS.of_Z (17 + r / 60)) (JS.of_Z (r mod 60)).
Proof.
  intros Hr. pose proof sunset_table as T. rewrite forallb_forall in T.
  specialize (T r (In_Z_range 180 r Hr)). cbv zeta in T.
  apply andb_true_iff in T as [T1 T2].
  apply FloatAxioms.Leibniz.eqb_spec in T1, T2.
  unfold formatHours. now rewrite T2, T1.
Qed.

(** X4: For a location of at most eight million characters the position
    weighted sum [H] of its character codes is computed exactly, and the
    sunlight window is formatted from whole hours and minutes: sunrise at
    hour [5 + (H mod 120) / 60], which is 5 or 6, sunset at hour
    [17 + (H mod 180) / 60], which is 17, 18 or 19, and both at minute
    [H mod 60].  The minutes never reach 60, so [setMinutes] never carries
    into the hour. *)
Theorem deriveSunWindow_times (fmt : float -> float -> string) (location : string) :
  (Z.of_nat (String.length location) <= 8000000)%Z ->
  let H := weighted_sum location 0 in
  deriveSunWindow fmt location
  = {| sunrise := fmt (JS.of_Z (5 + H mod 120 / 60)) (JS.of_Z (H mod 60));
       sunset := fmt (JS.of_Z (17 + H mod 180 / 60)) (JS.of_Z (H mod 60)) |}
  /\ (5 <= 5 + H mod 120 / 60 <= 6)%Z
  /\ (17 <= 17 + H mod 180 / 60 <= 19)%Z
  /\ (0 <= H mod 60 < 60)%Z.
Proof.
  intros HL H.
  pose proof (weighted_sum_bound location 0 ltac:(lia)) as B. fold H in B.
  pose proof (weighted_sum_nonneg location 0 ltac:(lia)) as N. fold H in N.
  assert (HH : (H < 2 ^ 53)%Z).
  { assert (2 * H <= 255 * 8000000 * (8000000 + 1))%Z by nia.
    change (2 ^ 53)%Z with 9007199254740992%Z. lia. }
  pose proof (Z.mod_pos_bound H 120 ltac:(lia)) as M1.
  pose proof (Z.mod_pos_bound H 180 ltac:(lia)) as M2.
  split; [|split; [|split]].
  - unfold deriveSunWindow.
    change (reduce_weighted location 0 0) with (reduce_weighted location 0 (JS.of_Z 0)).
    rewrite reduce_weighted_exact by lia.
    cbn [Z.add]. fold H.
    change 120 with (JS.of_Z 120). change 180 with (JS.of_Z 180).
    rewrite !remainder_whole by (split; first [lia | reflexivity]).
    rewrite formatHours_sunrise, formatHours_sunset by lia.
    replace ((H mod 120) mod 60)%Z with (H mod 60)%Z.
    2:{ replace (H mod 120)%Z with (H + (- 2 * (H / 120)) * 60)%Z
          by (pose proof (Z.div_mod H 120 ltac:(lia)); lia).
        now rewrite Z.mod_add by lia. }
    replace ((H mod 180) mod 60)%Z with (H mod 60)%Z.
    2:{ replace (H mod 180)%Z with (H + (- 3 * (H / 180)) * 60)%Z
          by (pose proof (Z.div_mod H 180 ltac:(lia)); lia).
        now rewrite Z.mod_add by lia. }
    reflexivity.
  - assert (0 <= H mod 120 / 60 <= 1)%Z; [|lia].
    split. apply Z.div_pos; lia. apply Z.lt_succ_r, Z.div_lt_upper_bound; lia.
  - assert (0 <= H mod 180 / 60 <= 2)%Z; [|lia].
    split. apply Z.div_pos; lia. apply Z.lt_succ_r, Z.div_lt_upper_bound; lia.
  - apply Z.mod_pos_bound. lia.
Qed.

Lemma deriveSunWindow_times_witness :
  deriveSunWindow time_24h "San Francisco, CA"
  = {| sunrise := "6:18"; sunset := "17:18" |}.
Proof.
  destruct (deriveSunWindow_times time_24h "San Francisco, CA") as [H _].
  - cbn. lia.
  - exact H.
Defined.

(** ** The pseudo UV index *)

Lemma lower_unit_idempotent (c : ascii) : lower_unit (lower_unit c) = lower_unit c.
Proof. destruct c as [[] [] [] [] [] [] [] []]; reflexivity. Qed.

Lemma toLowerCase_idempotent (s : string) : toLowerCase (toLowerCase s) = toLowerCase s.
Proof.
  induction s as [|c rest IH]; cbn [toLowerCase]; trivial.
  now rewrite lower_unit_idempotent, IH.
Qed.

Lemma charCodeSum_list (s : string) :
  Spec.charCodeSum s
  = fold_right Z.add 0%Z (map charCodeAt (list_ascii_of_string s)).
Proof.
  induction s as [|c rest IH]; cbn [Spec.charCodeSum list_ascii_of_string map fold_right];
    trivial.
  now rewrite IH.
Qed.

Lemma sum_permutation (l1 l2 : list ascii) :
  Permutation l1 l2 ->
  fold_right Z.add 0%Z (map charCodeAt l1) = fold_right Z.add 0%Z (map charCodeAt l2).
Proof.
  induction 1; cbn [map fold_right]; lia.
Qed.

(** X5: The pseudo UV index does not depend on the case of the letters of
    the location nor on the order of its characters: two locations whose
    lower-case forms have the same characters, each as often, get the same
    index. *)
Theorem deriveBaseUv_same_letters
    (sin : float -> float) (month : Z) (a b : string) :
  deriveBaseUv sin month (toLowerCase a) = deriveBaseUv sin month a
  /\ (Permutation (list_ascii_of_string (toLowerCase a))
                  (list_ascii_of_string (toLowerCase b)) ->
      deriveBaseUv sin month a = deriveBaseUv sin month b).
Proof.
  split.
  - now rewrite !deriveBaseUv_unfold, toLowerCase_idempotent.
  - intros P. rewrite !deriveBaseUv_unfold, !charCodeSum_list.
    now rewrite (sum_permutation _ _ P).
Qed.

Lemma deriveBaseUv_same_letters_witness :
  deriveBaseUv RefSin.sin_series 5 "Oslo" = deriveBaseUv RefSin.sin_series 5 "SOLO".
Proof.
  destruct (deriveBaseUv_same_letters RefSin.sin_series 5 "Oslo" "SOLO") as [_ H].
  apply H. cbn. apply perm_swap.
Defined.

Section RiskTable.
Local Open Scope Z_scope.

Lemma risk_table :
  forallb (fun n =>
    match determineRiskLabel (JS.of_Z n / 10)%float with
    | Low => n <? 30
    | Moderate => (30 <=? n) && (n <? 60)
    | High => (60 <=? n) && (n <? 80)
    | VeryHigh => (80 <=? n) && (n <? 110)
    | Extreme => n =? 110
    end)
    (map (fun k => 20 + Z.of_nat k) (seq 0 91)) = true.
Proof. vm_compute. reflexivity. Qed.

End RiskTable.

Lemma baseUvOfSum_tenths (sin : float -> float) (month sum : Z) :
  (0 <=? sin (seasonal_arg month)) = true ->
  exists n, (20 <= n <= 110)%Z /\ Spec.baseUvOfSum sin month sum = JS.of_Z n / 10.
Proof.
  intros Hs. unfold Spec.baseUvOfSum.
  change (JS.of_Z (month + 1) / 12 * JS.Math_PI) with (seasonal_arg month).
  destruct (scaled_range sum) as [Hn _].
  set (n := Spec.scaled (sum mod 700)) in *.
  set (t := sin (seasonal_arg month) * 3).
  assert (Ht : (0 <=? t) = true) by (apply mul_nonneg; trivial; reflexivity).
  assert (Hp : (0 <? n) = true) by (apply (ltb_leb_mono 0 2 n); trivial).
  pose proof (add_nonneg_ge n t Hp Ht) as Hy.
  pose proof (leb_trans _ _ _ Hn Hy) as H2.
  destruct (Math_min_bounds 2 (n + t) 11 H2 eq_refl) as [L U].
  now apply toFixed1_tenths.
Qed.

Lemma risk_of_tenths (n : Z) :
  (20 <= n <= 110)%Z ->
  determineRiskLabel (JS.of_Z n / 10)
  = if (n <? 30)%Z then Low
    else if (n <? 60)%Z then Moderate
    else if (n <? 80)%Z then High
    else if (n <? 110)%Z then VeryHigh
    else Extreme.
Proof.
  intros Hn. pose proof risk_table as T. rewrite forallb_forall in T.
  assert (I : In n (map (fun k => 20 + Z.of_nat k)%Z (seq 0 91))).
  { apply in_map_iff. exists (Z.to_nat (n - 20)). split. lia. apply in_seq. lia. }
  specialize (T n I).
  destruct (determineRiskLabel (JS.of_Z n / 10));
    rewrite ?andb_true_iff, ?Z.ltb_lt, ?Z.leb_le, ?Z.eqb_eq in T;
    repeat match goal with
           | |- context [(?a <? ?b)%Z] => destruct (Z.ltb_spec a b)
           end; first [reflexivity | lia].
Qed.

(** X6: On a platform whose sine is not negative at the seasonal argument,
    the pseudo UV index is one of the 91 one-decimal values 2.0, 2.1, ...,
    11.0, that is [n / 10] for a whole [n] from 20 to 110, and the exposure
    level shown for it follows [n]: Low below 30, Moderate below 60, High
    below 80, Very High below 110, and Extreme only for 11.0 itself. *)
Theorem deriveBaseUv_one_decimal (sin : float -> float) (month : Z) (location : string) :
  (0 <=? sin (seasonal_arg month)) = true ->
  exists n : Z,
    (20 <= n <= 110)%Z
    /\ deriveBaseUv sin month location = JS.of_Z n / 10
    /\ determineRiskLabel (deriveBaseUv sin month location)
       = (if (n <? 30)%Z then Low
          else if (n <? 60)%Z then Moderate
          else if (n <? 80)%Z then High
          else if (n <? 110)%Z then VeryHigh
          else Extreme).
Proof.
  intros Hs. rewrite deriveBaseUv_unfold.
  destruct (baseUvOfSum_tenths sin month
              (Spec.charCodeSum (toLowerCase location)) Hs) as (n & Hn & E).
  exists n. rewrite E. repeat split; try lia. now apply risk_of_tenths.
Qed.

Lemma deriveBaseUv_one_decimal_witness :
  exists n : Z,
    (20 <= n <= 110)%Z
    /\ deriveBaseUv RefSin.sin_series 5 "San Francisco, CA" = JS.of_Z n / 10
    /\ determineRiskLabel (deriveBaseUv RefSin.sin_series 5 "San Francisco, CA")
       = (if (n <? 30)%Z then Low
          else if (n <? 60)%Z then Moderate
          else if (n <? 80)%Z then High
          else if (n <? 110)%Z then VeryHigh
          else Extreme).
Proof.
  apply (deriveBaseUv_one_decimal RefSin.sin_series 5 "San Francisco, CA").
  vm_compute. reflexivity.
Defined.

(** ** The exposure level *)

(** X7: The exposure level never goes down when the index goes up: for
    [a <= b] the label of [a] is not above the label of [b] in the order
    Low, Moderate, High, Very High, Extreme. *)
Theorem determineRiskLabel_monotone (a b : float) :
  (a <=? b) = true ->
  (riskRank (determineRiskLabel a) <= riskRank (determineRiskLabel b))%nat.
Proof.
  intros H.
  pose proof (leb_ltb_trans a b 3 H) as M3.
  pose proof (leb_ltb_trans a b 6 H) as M6.
  pose proof (leb_ltb_trans a b 8 H) as M8.
  pose proof (leb_ltb_trans a b 11 H) as M11.
  unfold determineRiskLabel.
  destruct (b <? 3), (b <? 6), (b <? 8), (b <? 11);
    repeat match goal with
           | M : true = true -> _ |- _ => specialize (M eq_refl); rewrite M
           end;
    destruct (a <? 3), (a <? 6), (a <? 8), (a <? 11); cbn [riskRank]; lia.
Qed.

Lemma determineRiskLabel_monotone_witness :
  (riskRank (determineRiskLabel 5.9) <= riskRank (determineRiskLabel 8))%nat.
Proof.
  apply (determineRiskLabel_monotone 5.9 8). reflexivity.
Defined.

(** ** The forecast of the page *)

(** X8: The forecast that the page renders, [generateForecast] applied to
    the index of the current location, has no negative and no NaN entry,
    on a platform whose sine is not negative at the seasonal argument and
    lies in [0, 1] at the eight forecast arguments. *)
Theorem page_forecast_nonneg
    (sin : float -> float) (month : Z) (fmt : Z -> string) (location : string) :
  (0 <=? sin (seasonal_arg month)) = true ->
  (forall i, (0 <= i < 8)%Z ->
             (0 <=? sin (forecast_arg i)) = true /\ (sin (forecast_arg i) <=? 1) = true) ->
  forall entry,
    In entry (generateForecast sin fmt (deriveBaseUv sin month location)) ->
    (0 <=? uv entry) = true /\ is_nan (uv entry) = false.
Proof.
  intros Hs Hf entry Hin.
  assert (Hb : is_nan (deriveBaseUv sin month location) = false).
  { rewrite deriveBaseUv_unfold.
    destruct (baseUvOfSum_range sin month
                (Spec.charCodeSum (toLowerCase location)) Hs) as [L _].
    now destruct (leb_not_nan _ _ L). }
  unfold generateForecast in Hin.
  apply in_map_iff in Hin as (i & <- & Hi). cbn [uv].
  apply in_map_iff in Hi as (n & <- & Hn). apply in_seq in Hn.
  destruct (Hf (Z.of_nat n) ltac:(lia)) as [H0 H1].
  pose proof (forecast_uv_nonneg sin _ (Z.of_nat n) H0 H1 Hb) as P.
  split; trivial. now destruct (leb_not_nan _ _ P).
Qed.

Lemma page_forecast_nonneg_witness :
  Forall (fun entry => (0 <=? uv entry) = true)
    (generateForecast RefSin.sin_series (fun _ => EmptyString)
       (deriveBaseUv RefSin.sin_series 5 "San Francisco, CA")).
Proof.
  assert (H1 : (0 <=? RefSin.sin_series (seasonal_arg 5)) = true)
    by (vm_compute; reflexivity).
  assert (H2 : forall i, (0 <= i < 8)%Z ->
                 (0 <=? RefSin.sin_series (forecast_arg i)) = true
                 /\ (RefSin.sin_series (forecast_arg i) <=? 1) = true).
  { intros i Hi. apply andb_true_iff.
    pose proof sin_series_forecast as T. rewrite forallb_forall in T.
    apply T, In_Z_range. exact Hi. }
  apply Forall_forall. intros entry Hin.
  exact (proj1 (page_forecast_nonneg RefSin.sin_series 5 (fun _ => EmptyString)
                  "San Francisco, CA" H1 H2 entry Hin)).
Defined.

(** ** Exposure without attenuation *)

(** X9: With minimal clothing and no sunscreen nothing is lost to
    rounding: the effective UV is the base UV itself, for every Number, and
    a session of 60 seconds gains exactly [baseUv * 5]. *)
Theorem no_attenuation_exact (seconds baseUv : float) :
  effectiveUv (calculateExposureGain seconds baseUv minimal none) = baseUv
  /\ vitaminGain (calculateExposureGain seconds baseUv minimal none)
     = baseUv * (seconds / 60) * 5
  /\ vitaminGain (calculateExposureGain 60 baseUv minimal none) = baseUv * 5.
Proof.
  cbn [calculateExposureGain effectiveUv vitaminGain clothingPresets
       sunscreenPresets attenuation].
  change (60 / 60) with 1. rewrite !mul_one. repeat split.
Qed.

(** ** Storage *)

Lemma updatePersistedState_fields (u : Partial) (a : App) :
  persistedState (updatePersistedState u a) = merge (persistedState a) u
  /\ store (updatePersistedState u a) = persist (store a) (merge (persistedState a) u)
  /\ ready (updatePersistedState u a) = ready a
  /\ sessionActive (updatePersistedState u a) = sessionActive a
  /\ sessionSeconds (updatePersistedState u a) = sessionSeconds a.
Proof. repeat split. Qed.

Lemma persist_writable (st : Storage) (p : PersistedState) :
  writable st = true ->
  persist st p = {| slot := Some (JSON_stringify p); readable := readable st;
                    writable := true |}.
Proof. intros W. unfold persist, setItem. now rewrite W. Qed.

Lemma persist_unwritable (st : Storage) (p : PersistedState) :
  writable st = false -> persist st p = st.
Proof. intros W. unfold persist, setItem. now rewrite W. Qed.

Lemma mount_store (s : Storage) : store (mount s) = persist s (loadState s).
Proof.
  unfold mount, afterReady. cbn [load ready initial store].
  destruct (updatePersistedState_fields no_updates (load (initial s))) as (_ & -> & _).
  cbn [load initial store persistedState]. now rewrite merge_no_updates.
Qed.

(** What an event does to the persisted state and the storage: nothing, an
    update that is also written, or a fresh start. *)
Lemma step_cases (sin : float -> float) (month : Z) (a : App) (ev : Event) :
  (persistedState (step sin month a ev) = persistedState a
   /\ store (step sin month a ev) = store a)
  \/ (exists u, persistedState (step sin month a ev) = merge (persistedState a) u
               /\ store (step sin month a ev)
                  = persist (store a) (merge (persistedState a) u))
  \/ step sin month a ev = mount (store a).
Proof.
  destruct ev; cbn [step].
  - left. unfold tick. destruct (sessionActive a); split; reflexivity.
  - left. unfold handleStart. destruct (sessionActive a); split; reflexivity.
  - unfold handleStop. destruct (sessionActive a); cbn [negb].
    + right. left. eexists. split; reflexivity.
    + left. split; reflexivity.
  - left. split; reflexivity.
  - right. left. eexists. split; reflexivity.
  - right. left. eexists. split; reflexivity.
  - right. left. eexists. split; reflexivity.
  - right. left. eexists. split; reflexivity.
  - right. left. eexists. split; reflexivity.
  - right. left. eexists. split; reflexivity.
  - right. left. eexists. split; reflexivity.
  - right. right. reflexivity.
Qed.

Lemma run_in_sync
    (sin : float -> float) (month : Z) (s : Storage) (evs : list Event) :
  writable s = true ->
  slot (store (run sin month (mount s) evs))
  = Some (JSON_stringify (persistedState (run sin month (mount s) evs)))
  /\ readable (store (run sin month (mount s) evs)) = readable s
  /\ writable (store (run sin month (mount s) evs)) = true.
Proof.
  intros W. induction evs as [|ev evs IH] using rev_ind.
  - cbn [run fold_left]. rewrite mount_store, mount_state.
    rewrite persist_writable by exact W. repeat split.
  - rewrite run_snoc.
    set (b := run sin month (mount s) evs) in *.
    destruct IH as (I1 & I2 & I3).
    destruct (step_cases sin month b ev) as [[E1 E2]|[(u & E1 & E2)|E]].
    + rewrite E1, E2. auto.
    + rewrite E1, E2, persist_writable by exact I3. repeat split. exact I2.
    + rewrite E, mount_store, mount_state, persist_writable by exact I3.
      repeat split. exact I2.
Qed.

(** X10: On a storage that accepts writes, the slot holds the serialization
    of the current persisted state at every moment after the first
    interactive render, whatever the user and the timer do; the storage
    stays readable or unreadable, and writable, as it was.  A load at that
    moment therefore yields the current state as the serialization gives it
    back, or the default state when the storage cannot be read. *)
Theorem storage_in_sync
    (sin : float -> float) (month : Z) (s : Storage) (evs : list Event) :
  writable s = true ->
  let a := run sin month (mount s) evs in
  slot (store a) = Some (JSON_stringify (persistedState a))
  /\ readable (store a) = readable s
  /\ writable (store a) = true
  /\ loadState (store a)
     = if readable s then reloaded (persistedState a) else defaultPersistedState.
Proof.
  intros W a.
  destruct (run_in_sync sin month s evs W) as (I1 & I2 & I3). fold a in I1, I2, I3.
  repeat split; trivial.
  unfold reloaded, loadState, getItem. cbn [readable slot].
  rewrite I2. destruct (readable s); trivial. now rewrite I1.
Qed.

Lemma storage_in_sync_witness :
  slot (store (run RefSin.sin_series 5 (mount empty_storage)
                 [EditLocation "Oslo"; Plus100; SelectSunscreen spf50]))
  = Some (Json {| st_location := Some "Oslo"%string;
                  st_clothing := Some light;
                  st_sunscreen := Some spf50;
                  st_vitaminGoal := Some 1000;
                  st_vitaminProgress := Some 350 |}).
Proof.
  destruct (storage_in_sync RefSin.sin_series 5 empty_storage
              [EditLocation "Oslo"; Plus100; SelectSunscreen spf50]) as [H _].
  - reflexivity.
  - exact H.
Defined.

(** X11: On a storage that refuses writes, nothing the page does changes
    the storage, while the state in memory still follows the controls; a
    reload therefore comes back to what the storage held at the start. *)
Theorem unwritable_storage_untouched
    (sin : float -> float) (month : Z) (s : Storage) (evs : list Event) :
  writable s = false ->
  store (run sin month (mount s) evs) = s
  /\ persistedState (run sin month (mount s) (evs ++ [Reload])) = loadState s
  /\ (forall v, location (persistedState
                  (run sin month (mount s) (evs ++ [EditLocation v]))) = v).
Proof.
  intros W.
  assert (I : forall l, store (run sin month (mount s) l) = s).
  { induction l as [|ev l IH] using rev_ind.
    - cbn [run fold_left]. rewrite mount_store. now apply persist_unwritable.
    - rewrite run_snoc.
      destruct (step_cases sin month (run sin month (mount s) l) ev)
        as [[_ E2]|[(u & _ & E2)|E]].
      + now rewrite E2.
      + rewrite E2, IH. now apply persist_unwritable.
      + rewrite E, IH, mount_store. now apply persist_unwritable. }
  split; [apply I|split].
  - rewrite run_snoc. cbn [step]. now rewrite I, mount_state.
  - intros v. rewrite run_snoc. reflexivity.
Qed.

Lemma unwritable_storage_untouched_witness :
  let s := {| slot := None; readable := true; writable := false |} in
  store (run RefSin.sin_series 5 (mount s) [Plus100; EditLocation "Oslo"]) = s.
Proof.
  destruct (unwritable_storage_untouched RefSin.sin_series 5
              {| slot := None; readable := true; writable := false |}
              [Plus100; EditLocation "Oslo"]) as [H _].
  - reflexivity.
  - exact H.
Defined.

Lemma loadState_truthy (s : Storage) :
  JS.truthy_string (location (loadState s)) = true
  /\ JS.truthy_number (vitaminGoal (loadState s)) = true
  /\ JS.truthy_number (vitaminProgress (loadState s)) = true.
Proof.
  unfold loadState, getItem.
  destruct (readable s) eqn:R.
  - destruct (slot s) as [[|r]|] eqn:S; cbn [location vitaminGoal vitaminProgress];
      repeat split; try reflexivity.
    + destruct (st_location r) as [l|]; cbn [or_default]; [|reflexivity].
      destruct (JS.truthy_string l) eqn:T; trivial.
    + destruct (st_vitaminGoal r) as [g|]; cbn [or_default]; [|reflexivity].
      destruct (JS.truthy_number g) eqn:T; trivial.
    + destruct (st_vitaminProgress r) as [g|]; cbn [or_default]; [|reflexivity].
      destruct (JS.truthy_number g) eqn:T; trivial.
  - repeat split.
Qed.

(** X12: Whatever the storage holds, each of the five fields of the state
    that the load leaves behind is a truthy value: the stored one, of
    whatever JSON type, or the default.  When the storage cannot be read,
    holds nothing under the key, holds text that is not JSON, or holds the
    text of a value that is not an object, the loaded state is the default
    state.  When every stored field is missing, [null] or of its declared
    type, the loaded state is the state of the typed load: its location is
    a non-empty string and its goal and progress are Numbers that are
    neither zero nor NaN. *)
Theorem loadState_fallbacks (rs : RawStorage) :
  (ToBoolean (ld_location (loadRaw rs)) = true
   /\ ToBoolean (ld_clothing (loadRaw rs)) = true
   /\ ToBoolean (ld_sunscreen (loadRaw rs)) = true
   /\ ToBoolean (ld_vitaminGoal (loadRaw rs)) = true
   /\ ToBoolean (ld_vitaminProgress (loadRaw rs)) = true)
  /\ (raw_readable rs = false \/ raw_slot rs = None \/ raw_slot rs = Some RawCorrupt
      \/ (exists parsed, raw_slot rs = Some (RawJson parsed)
                         /\ forall members, parsed <> JObject members) ->
      loadRaw rs = asLoaded defaultPersistedState)
  /\ (forall s, typed_storage rs = Some s ->
       loadRaw rs = asLoaded (loadState s)
       /\ JS.truthy_string (location (loadState s)) = true
       /\ JS.truthy_number (vitaminGoal (loadState s)) = true
       /\ JS.truthy_number (vitaminProgress (loadState s)) = true).
Proof.
  split; [apply loadRaw_truthy|]. split.
  - unfold loadRaw. intros [R|[S|[S|(parsed & S & N)]]].
    + now rewrite R.
    + rewrite S. now destruct (raw_readable rs).
    + rewrite S. now destruct (raw_readable rs).
    + rewrite S. destruct (raw_readable rs); trivial.
      destruct parsed; try reflexivity. now elim (N members).
  - intros s T. split; [now apply typed_load_agrees | apply loadState_truthy].
Qed.

Lemma loadState_fallbacks_witness :
  loadRaw {| raw_slot := Some (RawJson (JArray [JNumber 1; JString "x"]));
             raw_readable := true; raw_writable := true |}
  = asLoaded defaultPersistedState.
Proof.
  destruct (loadState_fallbacks
              {| raw_slot := Some (RawJson (JArray [JNumber 1; JString "x"]));
                 raw_readable := true; raw_writable := true |})
    as (_ & H & _).
  apply H. right. right. right.
  exists (JArray [JNumber 1; JString "x"]). split; [reflexivity | discriminate].
Defined.

Lemma loadState_of_slot (st : Storage) (p : PersistedState) :
  readable st = true -> slot st = Some (JSON_stringify p) ->
  loadState st = reloaded p.
Proof.
  intros R S. unfold reloaded, loadState, getItem. cbn [readable slot].
  now rewrite R, S.
Qed.

Lemma reloaded_fields (p : PersistedState) :
  reloaded p
  = {| location := if JS.truthy_string (location p) then location p
                   else location defaultPersistedState;
       clothing := clothing p;
       sunscreen := sunscreen p;
       vitaminGoal := if JS.truthy_number (vitaminGoal p) && is_finite (vitaminGoal p)
                      then vitaminGoal p else vitaminGoal defaultPersistedState;
       vitaminProgress := if JS.truthy_number (vitaminProgress p)
                             && is_finite (vitaminProgress p)
                          then vitaminProgress p
                          else vitaminProgress defaultPersistedState |}.
Proof.
  unfold reloaded, loadState, getItem. cbn [readable slot].
  cbn [JSON_stringify st_location st_clothing st_sunscreen st_vitaminGoal
       st_vitaminProgress].
  now rewrite !reload_number.
Qed.

Lemma reloaded_idempotent (p : PersistedState) : reloaded (reloaded p) = reloaded p.
Proof.
  rewrite (reloaded_fields p). rewrite reloaded_fields.
  cbn [location clothing sunscreen vitaminGoal vitaminProgress].
  f_equal.
  - destruct (JS.truthy_string (location p)) eqn:T; [now rewrite T | reflexivity].
  - destruct (JS.truthy_number (vitaminGoal p) && is_finite (vitaminGoal p)) eqn:T;
      [now rewrite T | reflexivity].
  - destruct (JS.truthy_number (vitaminProgress p) && is_finite (vitaminProgress p)) eqn:T;
      [now rewrite T | reflexivity].
Qed.

Lemma reload_state (sin : float -> float) (month : Z) (a : App) :
  readable (store a) = true -> writable (store a) = true ->
  slot (store a) = Some (JSON_stringify (persistedState a)) ->
  let a' := step sin month a Reload in
  persistedState a' = reloaded (persistedState a)
  /\ readable (store a') = true /\ writable (store a') = true
  /\ slot (store a') = Some (JSON_stringify (persistedState a')).
Proof.
  intros R W S. cbn [step]. rewrite mount_state, mount_store.
  rewrite persist_writable by exact W. cbn [readable writable slot].
  rewrite (loadState_of_slot _ _ R S). auto.
Qed.

(** X13: With a storage that works, a reload at any moment brings back
    the persisted state as it was, provided the location is not empty and
    the goal and the progress are finite and not zero; and whatever the
    state was, a second reload changes nothing more. *)
Theorem reload_restores
    (sin : float -> float) (month : Z) (s : Storage) (evs : list Event) :
  readable s = true -> writable s = true ->
  let a := run sin month (mount s) evs in
  let p := persistedState a in
  (JS.truthy_string (location p) = true ->
   JS.truthy_number (vitaminGoal p) && is_finite (vitaminGoal p) = true ->
   JS.truthy_number (vitaminProgress p) && is_finite (vitaminProgress p) = true ->
   persistedState (step sin month a Reload) = p)
  /\ persistedState (run sin month a [Reload; Reload])
     = persistedState (run sin month a [Reload]).
Proof.
  intros R W a p.
  destruct (run_in_sync sin month s evs W) as (I1 & I2 & I3).
  fold a in I1, I2, I3. rewrite R in I2.
  destruct (reload_state sin month a I2 I3 I1) as (E1 & R1 & W1 & S1).
  split.
  - intros TL TG TP. rewrite E1, reloaded_fields. fold p.
    rewrite TL, TG, TP. now destruct p.
  - cbn [run fold_left].
    destruct (reload_state sin month (step sin month a Reload) R1 W1 S1) as (E2 & _).
    rewrite E2, E1. apply reloaded_idempotent.
Qed.

Lemma reload_restores_witness :
  let a := run RefSin.sin_series 5 (mount empty_storage)
             [EditLocation "Oslo"; Plus100] in
  persistedState (step RefSin.sin_series 5 a Reload) = persistedState a.
Proof.
  destruct (reload_restores RefSin.sin_series 5 empty_storage
              [EditLocation "Oslo"; Plus100]) as [H _].
  - reflexivity.
  - reflexivity.
  - apply H; reflexivity.
Defined.

(** ** The progress is never negative *)

Lemma effectiveUv_table :
  forallb (fun n =>
    forallb (fun c =>
      forallb (fun s =>
        let e := JS.of_Z n / 10 * attenuation (clothingPresets c)
                 * attenuation (sunscreenPresets s) in
        (0 <? e) && is_finite e && (e <=? JS.of_Z n / 10))
        [none; spf15; spf30; spf50])
      [minimal; light; moderate; covered])
    (map (fun k => 20 + Z.of_nat k)%Z (seq 0 91)) = true.
Proof. vm_compute. reflexivity. Qed.

Lemma effectiveUv_positive (sin : float -> float) (month : Z) (l : string)
    (seconds : float) (c : ClothingPreset) (s : SunscreenPreset) :
  (0 <=? sin (seasonal_arg month)) = true ->
  let e := effectiveUv (calculateExposureGain seconds (deriveBaseUv sin month l) c s) in
  (0 <? e) = true /\ is_finite e = true /\ (e <=? deriveBaseUv sin month l) = true.
Proof.
  intros Hs. rewrite deriveBaseUv_unfold.
  destruct (baseUvOfSum_tenths sin month (Spec.charCodeSum (toLowerCase l)) Hs)
    as (n & Hn & ->).
  cbn [calculateExposureGain effectiveUv].
  pose proof effectiveUv_table as T. rewrite forallb_forall in T.
  assert (I : In n (map (fun k => 20 + Z.of_nat k)%Z (seq 0 91))).
  { apply in_map_iff. exists (Z.to_nat (n - 20)). split. lia. apply in_seq. lia. }
  specialize (T n I). rewrite forallb_forall in T.
  assert (Ic : In c [minimal; light; moderate; covered])
    by (destruct c; cbn; tauto).
  specialize (T c Ic). rewrite forallb_forall in T.
  assert (Is : In s [none; spf15; spf30; spf50]) by (destruct s; cbn; tauto).
  specialize (T s Is). cbv zeta in T.
  apply andb_true_iff in T as [T T3]. apply andb_true_iff in T as [T1 T2]. auto.
Qed.

Lemma vitaminGain_nonneg (sin : float -> float) (month : Z) (l : string)
    (seconds : float) (c : ClothingPreset) (s : SunscreenPreset) :
  (0 <=? sin (seasonal_arg month)) = true ->
  (0 <=? seconds) = true ->
  (0 <=? vitaminGain (calculateExposureGain seconds (deriveBaseUv sin month l) c s)) = true.
Proof.
  intros Hs Hsec.
  destruct (effectiveUv_positive sin month l seconds c s Hs) as (P & F & _).
  cbn [calculateExposureGain effectiveUv vitaminGain] in *.
  apply mul_nonneg; [|reflexivity|reflexivity].
  apply mul_pos_nonneg; trivial.
  apply div_nonneg; trivial; reflexivity.
Qed.

(** X14: For the index that the page derives from a location, on a
    platform whose sine is not negative at the seasonal argument, the
    effective UV of every clothing and sunscreen choice is positive and
    not above the index, hence at most 11; and the vitamin gain of a
    session whose seconds are not negative is never negative and never
    NaN. *)
Theorem page_exposure_bounds (sin : float -> float) (month : Z) (l : string)
    (seconds : float) (c : ClothingPreset) (s : SunscreenPreset) :
  (0 <=? sin (seasonal_arg month)) = true ->
  let r := calculateExposureGain seconds (deriveBaseUv sin month l) c s in
  (0 <? effectiveUv r) = true
  /\ (effectiveUv r <=? deriveBaseUv sin month l) = true
  /\ (effectiveUv r <=? 11) = true
  /\ ((0 <=? seconds) = true ->
      (0 <=? vitaminGain r) = true /\ is_nan (vitaminGain r) = false).
Proof.
  intros Hs r.
  destruct (effectiveUv_positive sin month l seconds c s Hs) as (P & _ & U).
  fold r in P, U. repeat split; trivial.
  - apply leb_trans with (deriveBaseUv sin month l); trivial.
    rewrite deriveBaseUv_unfold. now apply baseUvOfSum_range.
  - now apply vitaminGain_nonneg.
  - pose proof (vitaminGain_nonneg sin month l seconds c s Hs H) as G.
    now destruct (leb_not_nan _ _ G).
Qed.

Lemma page_exposure_bounds_witness :
  let r := calculateExposureGain 600 (deriveBaseUv RefSin.sin_series 5 "Oslo")
             covered spf50 in
  (0 <? effectiveUv r) = true /\ (effectiveUv r <=? 11) = true
  /\ (0 <=? vitaminGain r) = true.
Proof.
  destruct (page_exposure_bounds RefSin.sin_series 5 "Oslo" 600 covered spf50)
    as (H1 & _ & H3 & H4).
  - vm_compute. reflexivity.
  - split; [exact H1 | split; [exact H3 | apply H4; reflexivity]].
Defined.

(** A session of zero seconds gains nothing. *)
Lemma mul_zero_finite (e : float) :
  (0 <? e) = true -> is_finite e = true -> e * (0 / 60) * 5 = 0.
Proof.
  intros P F. change (0 / 60) with 0.
  assert (E0 : e * 0 = 0).
  { apply Prim2SF_inj. rewrite mul_spec.
    apply ltb_zero_pos in P. rewrite is_finite_spec in F.
    change (Prim2SF 0) with (S754_zero false).
    destruct (Prim2SF e) as [s|[]| |[] m x]; try contradiction; try discriminate.
    reflexivity. }
  rewrite E0. reflexivity.
Qed.

(** X15: A session that is stopped before the first tick changes nothing:
    for a progress that is a whole number below [2^53], Start followed at
    once by Stop leaves the persisted state as it was (the zero gain is
    added and the sum rounded, both exactly), ends the session with the
    counter at 0, and writes the unchanged state to the storage; this on a
    platform whose sine is not negative at the seasonal argument. *)
Theorem empty_session_keeps_progress
    (sin : float -> float) (month : Z) (a : App) (n : Z) :
  (0 <=? sin (seasonal_arg month)) = true ->
  sessionActive a = false ->
  vitaminProgress (persistedState a) = JS.of_Z n -> (0 <= n < 2 ^ 53)%Z ->
  let a' := run sin month a [Start; Stop] in
  persistedState a' = persistedState a
  /\ sessionActive a' = false
  /\ sessionSeconds a' = 0
  /\ store a' = persist (store a) (persistedState a).
Proof.
  intros Hs Ha Hp Hn. cbn [run fold_left step].
  set (a1 := {| persistedState := persistedState a; store := store a;
                ready := ready a; sessionActive := true; sessionSeconds := 0 |}).
  assert (E1 : handleStart a = a1) by (unfold handleStart; now rewrite Ha).
  rewrite E1.
  assert (G : vitaminGain (calculateExposureGain 0
                (deriveBaseUv sin month (location (persistedState a)))
                (clothing (persistedState a)) (sunscreen (persistedState a))) = 0).
  { destruct (effectiveUv_positive sin month (location (persistedState a)) 0
                (clothing (persistedState a)) (sunscreen (persistedState a)) Hs)
      as (P & F & _).
    cbn [calculateExposureGain effectiveUv vitaminGain] in *.
    now apply mul_zero_finite. }
  assert (R : JS.Math_round (vitaminProgress (persistedState a) + 0)
              = vitaminProgress (persistedState a)).
  { rewrite Hp. change 0 with (JS.of_Z 0). rewrite of_Z_add, Z.add_0_r by lia.
    now apply Math_round_whole. }
  assert (E2 : handleStop sin month a1
               = updatePersistedState
                   {| upd_location := None; upd_clothing := None;
                      upd_sunscreen := None; upd_vitaminGoal := None;
                      upd_vitaminProgress := Some (vitaminProgress (persistedState a)) |}
                   (setSessionActive false a1)).
  { unfold handleStop. cbn [a1 sessionActive negb persistedState sessionSeconds].
    now rewrite G, R. }
  rewrite E2.
  match goal with
  | |- context [updatePersistedState ?u ?b] =>
      destruct (updatePersistedState_fields u b) as (-> & -> & _ & -> & ->)
  end.
  cbn [a1 setSessionActive persistedState store sessionActive sessionSeconds].
  assert (M : merge (persistedState a)
                {| upd_location := None; upd_clothing := None; upd_sunscreen := None;
                   upd_vitaminGoal := None;
                   upd_vitaminProgress := Some (vitaminProgress (persistedState a)) |}
              = persistedState a) by (now destruct (persistedState a)).
  rewrite M. repeat split.
Qed.

Lemma empty_session_keeps_progress_witness :
  persistedState (run RefSin.sin_series 5 (mount empty_storage) [Start; Stop])
  = persistedState (mount empty_storage).
Proof.
  destruct (empty_session_keeps_progress RefSin.sin_series 5 (mount empty_storage) 250)
    as [H _].
  - vm_compute. reflexivity.
  - reflexivity.
  - reflexivity.
  - split. lia. reflexivity.
  - exact H.
Defined.

Lemma handleStop_progress_nonneg (sin : float -> float) (month : Z) (a : App) :
  (0 <=? sin (seasonal_arg month)) = true ->
  (0 <=? vitaminProgress (persistedState a)) = true ->
  (0 <=? sessionSeconds a) = true ->
  (0 <=? vitaminProgress (persistedState (handleStop sin month a))) = true.
Proof.
  intros Hs Hp Hsec. unfold handleStop.
  destruct (sessionActive a); cbn [negb]; trivial.
  cbn [updatePersistedState updateState persistedState setSessionActive merge
       vitaminProgress upd_vitaminProgress spread].
  apply Math_round_nonneg, add_nonneg; trivial.
  now apply vitaminGain_nonneg.
Qed.

Lemma loadState_persist_progress (st : Storage) (p : PersistedState) :
  (0 <=? vitaminProgress p) = true ->
  (0 <=? vitaminProgress (loadState st)) = true ->
  (0 <=? vitaminProgress (loadState (persist st p))) = true.
Proof.
  intros Hp Hst. destruct (writable st) eqn:W.
  - rewrite persist_writable by exact W.
    unfold loadState, getItem. cbn [readable slot].
    destruct (readable st); [|reflexivity].
    cbn [JSON_stringify st_vitaminProgress vitaminProgress].
    rewrite reload_number.
    destruct (JS.truthy_number (vitaminProgress p) && is_finite (vitaminProgress p));
      trivial.
  - now rewrite persist_unwritable.
Qed.

Lemma step_progress_nonneg (sin : float -> float) (month : Z) (a : App) (ev : Event) :
  (0 <=? sin (seasonal_arg month)) = true ->
  (0 <=? vitaminProgress (persistedState a)) = true
  /\ (0 <=? sessionSeconds a) = true
  /\ (0 <=? vitaminProgress (loadState (store a))) = true ->
  (0 <=? vitaminProgress (persistedState (step sin month a ev))) = true
  /\ (0 <=? sessionSeconds (step sin month a ev)) = true
  /\ (0 <=? vitaminProgress (loadState (store (step sin month a ev)))) = true.
Proof.
  intros Hs (Hp & Hsec & Hst).
  assert (U : forall u a0,
             persistedState a0 = persistedState a -> store a0 = store a ->
             sessionSeconds a0 = sessionSeconds a ->
             (0 <=? vitaminProgress (merge (persistedState a) u)) = true ->
             (0 <=? vitaminProgress (persistedState (updatePersistedState u a0))) = true
             /\ (0 <=? sessionSeconds (updatePersistedState u a0)) = true
             /\ (0 <=? vitaminProgress
                         (loadState (store (updatePersistedState u a0)))) = true).
  { intros u a0 E1 E2 E3 Hm.
    destruct (updatePersistedState_fields u a0) as (-> & -> & _ & _ & ->).
    rewrite E1, E2, E3. repeat split; trivial.
    now apply loadState_persist_progress. }
  destruct ev; cbn [step].
  - unfold tick. destruct (sessionActive a); cbn [persistedState sessionSeconds store];
      repeat split; trivial.
    apply add_nonneg; trivial.
  - unfold handleStart.
    destruct (sessionActive a); cbn [persistedState sessionSeconds store];
      repeat split; trivial.
  - pose proof (handleStop_progress_nonneg sin month a Hs Hp Hsec) as Q.
    unfold handleStop in *. destruct (sessionActive a); cbn [negb] in *.
    + apply U; trivial.
    + auto.
  - cbn [handleReset persistedState sessionSeconds store]. repeat split; trivial.
  - apply U; trivial.
  - apply U; trivial.
  - apply U; trivial.
  - apply U; trivial.
  - apply U; trivial. cbn [merge vitaminProgress upd_vitaminProgress spread].
    apply Math_max_0_nonneg, sub_not_nan; [|reflexivity].
    now apply leb_not_nan in Hp.
  - apply U; trivial. cbn [merge vitaminProgress upd_vitaminProgress spread].
    apply add_nonneg; trivial.
  - apply U; trivial.
  - rewrite mount_state, mount_store. repeat split; trivial.
    now apply loadState_persist_progress.
Qed.

(** X16: On a storage whose fields are each missing, [null] or of the
    declared type, if the progress that the first load takes from it is not
    negative, the progress is never negative and never NaN afterwards, and
    neither is the session counter, whatever the user and the timer do and
    however often the page is reloaded; this on a platform whose sine is
    not negative at the seasonal argument.  Stored values of another type
    are kept by the load unchecked and are outside this statement. *)
Theorem progress_never_negative
    (sin : float -> float) (month : Z) (rs : RawStorage) (s : Storage)
    (evs : list Event) :
  typed_storage rs = Some s ->
  (0 <=? sin (seasonal_arg month)) = true ->
  (0 <=? vitaminProgress (loadState s)) = true ->
  let a := run sin month (mount s) evs in
  loadRaw rs = asLoaded (persistedState (mount s))
  /\ (0 <=? vitaminProgress (persistedState a)) = true
  /\ is_nan (vitaminProgress (persistedState a)) = false
  /\ (0 <=? sessionSeconds a) = true.
Proof.
  intros T Hs H0 a.
  assert (I : (0 <=? vitaminProgress (persistedState a)) = true
              /\ (0 <=? sessionSeconds a) = true
              /\ (0 <=? vitaminProgress (loadState (store a))) = true).
  { subst a. induction evs as [|ev evs IH] using rev_ind.
    - cbn [run fold_left]. rewrite mount_state, mount_store. repeat split; trivial.
      now apply loadState_persist_progress.
    - rewrite run_snoc. now apply step_progress_nonneg. }
  destruct I as (I1 & I2 & _). repeat split; trivial.
  - rewrite mount_state. now apply typed_load_agrees.
  - now destruct (leb_not_nan _ _ I1).
Qed.

Lemma progress_never_negative_witness :
  let rs := {| raw_slot := Some (RawJson (JObject
                 [("clothing"%string, JString "covered");
                  ("vitaminProgress"%string, JNumber 120)]));
               raw_readable := true; raw_writable := true |} in
  let s := {| slot := Some (Json {| st_location := None;
                                    st_clothing := Some covered;
                                    st_sunscreen := None;
                                    st_vitaminGoal := None;
                                    st_vitaminProgress := Some 120 |});
              readable := true; writable := true |} in
  let a := run RefSin.sin_series 5 (mount s)
             [Minus100; Minus100; Start; Tick; Tick; Stop; Reload] in
  typed_storage rs = Some s
  /\ (0 <=? vitaminProgress (persistedState a)) = true.
Proof.
  cbv zeta. split; [reflexivity|].
  destruct (progress_never_negative RefSin.sin_series 5
              {| raw_slot := Some (RawJson (JObject
                   [("clothing"%string, JString "covered");
                    ("vitaminProgress"%string, JNumber 120)]));
                 raw_readable := true; raw_writable := true |}
              {| slot := Some (Json {| st_location := None;
                                       st_clothing := Some covered;
                                       st_sunscreen := None;
                                       st_vitaminGoal := None;
                                       st_vitaminProgress := Some 120 |});
                 readable := true; writable := true |}
              [Minus100; Minus100; Start; Tick; Tick; Stop; Reload])
    as (_ & H & _).
  - reflexivity.
  - vm_compute. reflexivity.
  - reflexivity.
  - exact H.
Defined.

(** ** The progress bar *)

(** X17: For a progress that is not negative and a goal that is positive
    and finite, the width of the progress bar lies between 0 and 100, and
    it is exactly 100 once the progress has reached the goal. *)
Theorem progressPercentage_bar (p : PersistedState) :
  (0 <=? vitaminProgress p) = true ->
  (0 <? vitaminGoal p) = true -> is_finite (vitaminGoal p) = true ->
  (0 <=? progressPercentage p) = true
  /\ (progressPercentage p <=? 100) = true
  /\ ((vitaminGoal p <=? vitaminProgress p) = true -> progressPercentage p = 100).
Proof.
  intros Hp Hg Fg. unfold progressPercentage.
  assert (R : (0 <=? JS.Math_min (vitaminProgress p / vitaminGoal p * 100) 100) = true
              /\ (JS.Math_min (vitaminProgress p / vitaminGoal p * 100) 100 <=? 100) = true).
  { apply Math_min_bounds; [|reflexivity].
    apply mul_nonneg; [|reflexivity|reflexivity].
    now apply div_nonneg. }
  destruct R as [R1 R2]. repeat split; trivial.
  intros Hfull. apply Math_min_full, mul_100_ge. now apply div_ge_one.
Qed.

Lemma progressPercentage_bar_witness :
  (0 <=? progressPercentage defaultPersistedState) = true
  /\ (progressPercentage defaultPersistedState <=? 100) = true
  /\ progressPercentage {| location := "Oslo"; clothing := light; sunscreen := none;
                           vitaminGoal := 600; vitaminProgress := 750 |} = 100.
Proof.
  destruct (progressPercentage_bar defaultPersistedState) as (H1 & H2 & _);
    try reflexivity.
  destruct (progressPercentage_bar
              {| location := "Oslo"; clothing := light; sunscreen := none;
                 vitaminGoal := 600; vitaminProgress := 750 |}) as (_ & _ & H3);
    try reflexivity.
  split; [exact H1 | split; [exact H2 | apply H3; reflexivity]].
Defined.

(** ** The progress buttons on whole numbers *)

(** X18: On a progress that is a whole number [n], [0 <= n] and
    [n + 100 < 2^53], "+100 IU" followed by "-100 IU" gives back [n]
    exactly; "-100 IU" followed by "+100 IU" gives back [n] when [n] is at
    least 100. *)
Theorem plus_minus_round_trip (a : App) (n : Z) :
  vitaminProgress (persistedState a) = JS.of_Z n ->
  (0 <= n)%Z -> (n + 100 < 2 ^ 53)%Z ->
  vitaminProgress (persistedState (plus100 a)) = JS.of_Z (n + 100)
  /\ vitaminProgress (persistedState (minus100 (plus100 a))) = JS.of_Z n
  /\ ((100 <= n)%Z ->
      vitaminProgress (persistedState (minus100 a)) = JS.of_Z (n - 100)
      /\ vitaminProgress (persistedState (plus100 (minus100 a))) = JS.of_Z n).
Proof.
  intros E Hn Hb.
  assert (P : forall b k, vitaminProgress (persistedState b) = JS.of_Z k ->
                (0 <= k)%Z -> (k + 100 < 2 ^ 53)%Z ->
                vitaminProgress (persistedState (plus100 b)) = JS.of_Z (k + 100)).
  { intros b k Eb Hk Hkb.
    cbn [plus100 setProgress updatePersistedState updateState persistedState merge
         vitaminProgress upd_vitaminProgress spread].
    rewrite Eb. change 100 with (JS.of_Z 100). now apply of_Z_add. }
  assert (M : forall b k, vitaminProgress (persistedState b) = JS.of_Z k ->
                (100 <= k < 2 ^ 53)%Z ->
                vitaminProgress (persistedState (minus100 b)) = JS.of_Z (k - 100)).
  { intros b k Eb Hk. rewrite minus100_progress, Eb.
    change 100 with (JS.of_Z 100). rewrite of_Z_sub by lia.
    apply Math_max_whole_0. lia. }
  split; [|split].
  - now apply P.
  - rewrite (M (plus100 a) (n + 100)%Z).
    + f_equal. lia.
    + now apply P.
    + lia.
  - intros H100. split.
    + apply M; trivial. lia.
    + rewrite (P (minus100 a) (n - 100)%Z).
      * f_equal. lia.
      * apply M; trivial. lia.
      * lia.
      * lia.
Qed.

Lemma plus_minus_round_trip_witness :
  vitaminProgress (persistedState (minus100 (plus100 (mount empty_storage)))) = 250
  /\ vitaminProgress (persistedState (plus100 (minus100 (mount empty_storage)))) = 250.
Proof.
  destruct (plus_minus_round_trip (mount empty_storage) 250) as (_ & H1 & H2).
  - reflexivity.
  - lia.
  - reflexivity.
  - split. exact H1. destruct H2 as [_ H2]. lia. exact H2.
Defined.
